(** * TailorNet displacement predictor: masking, kernel blending, orchestration

    A shallow embedding of [tailornet/models/tailor_networks.py].

    Tensors are nested lists of real numbers, outermost dimension first: a
    batch of parameter vectors is a [list (list R)], a per-vertex field of a
    batch is a [list (list (list R))].  A tensor without rows is the empty
    list, whatever its other sizes are.  Arithmetic is the exact arithmetic
    of [R]; rounding, infinities and NaN of the floating-point tensors are
    not part of the model, and the facts about the kernel weights that an
    underflow of the single-precision exponential would break are stated for
    distances in the range [exp_in_range].  The learned networks are
    deterministic functions on rows (evaluation mode, no dropout).  Python
    exceptions are the [Err] results of an error type; the order in which
    the sub-networks are run is recorded in a trace. *)

From Stdlib Require Import Reals Lra Lia.
From stdpp Require Import base list strings gmap.

Local Open Scope string_scope.
Local Open Scope list_scope.

(** ** Exceptions and results *)

Inductive error : Type :=
| KeyError (key : string)      (* dict lookup of a missing key *)
| TypeError                    (* [None] where a tensor is required *)
| CatSizeMismatch              (* torch.cat: sizes differ outside dim 1 *)
| CatEmpty                     (* torch.cat of no tensors *)
| LinearSizeMismatch           (* nn.Linear: wrong number of input features *)
| ViewSizeMismatch             (* Tensor.view: shape invalid for the size *)
| BroadcastMismatch            (* operands cannot be broadcast together *)
| StackEmpty                   (* torch.stack of an empty list *)
| StackSizeMismatch            (* torch.stack: tensors of different shapes *)
| IndexError.                  (* index assignment outside the dimension *)

Inductive result (A : Type) : Type :=
| Ok (a : A)
| Err (e : error).
Arguments Ok {A} a.
Arguments Err {A} e.

Definition rbind {A B} (m : result A) (f : A → result B) : result B :=
  match m with
  | Ok a => f a
  | Err e => Err e
  end.

Definition is_Err {A} (m : result A) : Prop := ∃ e, m = Err e.

(** ** Tensors *)

Abbreviation tensor2 := (list (list R)).
Abbreviation tensor3 := (list (list (list R))).
Abbreviation tensor4 := (list (list (list (list R)))).

(** [is_batch w t]: [t] has shape [N, w] for [N = length t]. *)
Definition is_batch (w : nat) (t : tensor2) : Prop :=
  Forall (λ row, length row = w) t.

(** ** Tensor operations *)

(** [Tensor.sum] and [Tensor.mean] over the last dimension of a vector. *)
Definition sumR (l : list R) : R := foldr Rplus 0%R l.

Definition mean (l : list R) : R := (sumR l / INR (length l))%R.

Fixpoint mapM_r {A B} (f : A → result B) (l : list A) : result (list B) :=
  match l with
  | [] => Ok []
  | x :: l' => rbind (f x) (λ y, rbind (mapM_r f l') (λ ys, Ok (y :: ys)))
  end.

(** [chunks k count l]: the first [count] consecutive pieces of [k] entries. *)
Fixpoint chunks {A} (k count : nat) (l : list A) : list (list A) :=
  match count with
  | O => []
  | S c => take k l :: chunks k c (drop k l)
  end.

(** [t.view(bs, -1, 3)] for a two-dimensional [t]: the entries in row-major
    order, regrouped; the free dimension is inferred.  It raises when [bs] is
    zero or when the number of entries is not a multiple of [bs * 3]. *)
Definition view_bs_3 (bs : nat) (t : tensor2) : result tensor3 :=
  let flat := concat t in
  let numel := length flat in
  if bool_decide (bs ≠ 0%nat ∧ (numel mod (bs * 3) = 0)%nat)
  then Ok (map (λ sample, chunks 3 (length sample / 3) sample)
               (chunks (numel / bs) bs flat))
  else Err ViewSizeMismatch.

(** [torch.cat(ts, dim=1)] of two-dimensional tensors. *)
Definition cat_dim1 (ts : list tensor2) : result tensor2 :=
  match ts with
  | [] => Err CatEmpty
  | t :: ts' =>
      if bool_decide (Forall (λ u : tensor2, length u = length t) ts')
      then Ok (foldl (zip_with app) t ts')
      else Err CatSizeMismatch
  end.

(** One dimension of broadcasting: sizes must agree unless one of them is 1,
    which is then repeated. *)
Definition bcast {A B C} (f : A → B → result C) (xs : list A) (ys : list B)
  : result (list C) :=
  match xs, ys with
  | [x], _ => mapM_r (f x) ys
  | _, [y] => mapM_r (λ x, f x y) xs
  | _, _ =>
      if bool_decide (length xs = length ys)
      then mapM_r (λ p, f p.1 p.2) (zip xs ys)
      else Err BroadcastMismatch
  end.

Definition scalar_op (op : R → R → R) (a b : R) : result R := Ok (op a b).

Definition sub4 : tensor4 → tensor4 → result tensor4 :=
  bcast (bcast (bcast (bcast (scalar_op Rminus)))).

Definition mul4 : tensor4 → tensor4 → result tensor4 :=
  bcast (bcast (bcast (bcast (scalar_op Rmult)))).

Definition add3 : tensor3 → tensor3 → result tensor3 :=
  bcast (bcast (bcast (scalar_op Rplus))).

Definition mul2 : tensor2 → tensor2 → result tensor2 :=
  bcast (bcast (scalar_op Rmult)).

Definition add2 : tensor2 → tensor2 → result tensor2 :=
  bcast (bcast (scalar_op Rplus)).

(** The shape of a (uniform) three-dimensional tensor. *)
Definition shape3 (t : tensor3) : nat * nat * nat :=
  (length t, length (hd [] t), length (hd [] (hd [] t))).

Definition has_shape3 (n v c : nat) (t : tensor3) : Prop :=
  length t = n ∧ Forall (λ s, length s = v ∧ Forall (λ x : list R, length x = c) s) t.

(** [torch.stack(ts)] of three-dimensional tensors: a new leading dimension. *)
Definition stack (ts : list tensor3) : result tensor4 :=
  match ts with
  | [] => Err StackEmpty
  | t :: ts' =>
      if bool_decide (Forall (λ u, shape3 u = shape3 t) ts')
      then Ok ts
      else Err StackSizeMismatch
  end.

(** [t.transpose(0, 1)] of a tensor whose second dimension has size [n]. *)
Fixpoint transpose01 {A} (n : nat) (t : list (list A)) : list (list A) :=
  match t with
  | [] => replicate n []
  | row :: t' => zip_with cons row (transpose01 n t')
  end.

(** [t.sum(0)] of a list of two-dimensional tensors of one shape (the sum
    over an empty list is left without entries). *)
Definition sum_fields (fs : list tensor2) : tensor2 :=
  match fs with
  | [] => []
  | f :: fs' => foldl (zip_with (zip_with Rplus)) f fs'
  end.

(** ** Input masking *)

(** Indices of the joints which affect the deformation of each garment. *)
Definition VALID_THETA : gmap string (list nat) :=
  list_to_map
    [ ("t-shirt",     [0; 1; 2; 3; 6; 9; 12; 13; 14; 16; 17; 18; 19]);
      ("old-t-shirt", [0; 1; 2; 3; 6; 9; 12; 13; 14; 16; 17; 18; 19]);
      ("shirt",       [0; 1; 2; 3; 6; 9; 12; 13; 14; 16; 17; 18; 19; 20; 21]);
      ("pant",        [0; 1; 2; 4; 5; 7; 8]);
      ("skirt",       [0; 1; 2]) ]%nat.

(** [torch.zeros_like(t)]. *)
Definition zeros_like (t : tensor2) : tensor2 := map (map (λ _, 0%R)) t.

(** [t.view(-1, 24, 3)] for a two-dimensional [t]: the entries in row-major
    order, regrouped into samples of 24 joints of 3 components.  It raises
    unless the number of entries is a multiple of 72. *)
Definition view_24_3 (t : tensor2) : result tensor3 :=
  let flat := concat t in
  let numel := length flat in
  if bool_decide (numel mod 72 = 0)%nat
  then Ok (map (chunks 3 24) (chunks 72 (numel / 72) flat))
  else Err ViewSizeMismatch.

(** [mask[idx] = 1.] on one sample of zeros: the entries at [idx] become one
    (a list of sub-vectors when [one] is itself a vector). *)
Definition set_ones {A} (one : A) (idx : list nat) (zeros : list A) : list A :=
  foldr (λ j m, <[j := one]> m) zeros idx.

(** [mask[:, idx] = 1.] and [mask[:, idx, :] = 1.]: the assignment on every
    sample; an index outside dimension 1 raises. *)
Definition assign_ones {A} (one : A) (idx : list nat) (mask : list (list A))
  : result (list (list A)) :=
  if bool_decide (Forall (λ sample, Forall (λ j, (j < length sample)%nat) idx) mask)
  then Ok (map (set_ones one idx) mask)
  else Err IndexError.

(** [x * mask] for a mask of shape [M, k].  Broadcasting aligns the shapes
    from the trailing dimension, where every row of [x] must have [k] entries
    or one; the leading sizes must then agree unless one of them is 1.  (The
    width [k] is explicit because a mask without rows has none left in a list
    of rows.) *)
Definition mul_mask (k : nat) (x mask : tensor2) : result tensor2 :=
  if bool_decide (Forall (λ row : list R, length row = k ∨ length row = 1%nat) x)
  then mul2 x mask
  else Err BroadcastMismatch.

(** The mask of [mask_thetas] for one sample: zeros viewed as 24 joints of 3
    components, the valid joints set to one, viewed again as 72 scalars. *)
Definition theta_mask (valid_theta : list nat) : list R :=
  concat (set_ones (replicate 3 1%R) valid_theta (replicate 24 (replicate 3 0%R))).

(** The mask of [mask_betas] and [mask_gammas] for one sample: zeros like the
    row, the valid entries set to one. *)
Definition index_mask (valid : list nat) (row : list R) : list R :=
  set_ones 1%R valid (replicate (length row) 0%R).

(** thetas: shape [N, 72]. *)
Definition mask_thetas (thetas : tensor2) (cloth_type : string) : result tensor2 :=
  match VALID_THETA !! cloth_type with
  | None => Err (KeyError cloth_type)
  | Some valid_theta =>
      rbind (view_24_3 (zeros_like thetas)) (λ mask,
      rbind (assign_ones (replicate 3 1%R) valid_theta mask) (λ mask,
      let mask := map (λ sample, concat sample) mask in   (* mask.view(-1, 72) *)
      mul_mask 72 thetas mask))
  end.

(** betas: shape [N, 10]. *)
Definition mask_betas (betas : tensor2) (cloth_type : string) : result tensor2 :=
  let valid_beta := [0; 1]%nat in
  rbind (assign_ones 1%R valid_beta (zeros_like betas)) (λ mask,
  mul2 betas mask).

(** gammas: shape [N, 4]. *)
Definition mask_gammas (gammas : tensor2) (cloth_type : string) : result tensor2 :=
  let valid_gamma := [0; 1]%nat in
  rbind (assign_ones 1%R valid_gamma (zeros_like gammas)) (λ mask,
  rbind (mul2 gammas mask) (λ gammas,
  if bool_decide (cloth_type = "old-t-shirt")
  then add2 gammas [[0; 0; 1.5; 0]%R]
  else Ok gammas)).

(** [f(x) if x is not None else None], for an [f] that may raise. *)
Definition on_present {A B} (f : A → result B) (x : option A) : result (option B) :=
  match x with
  | Some a => rbind (f a) (λ b, Ok (Some b))
  | None => Ok None
  end.

Definition mask_inputs (thetas betas gammas : option tensor2) (cloth_type : string)
  : result (option tensor2 * option tensor2 * option tensor2) :=
  rbind (on_present (λ t, mask_thetas t cloth_type) thetas) (λ thetas,
  rbind (on_present (λ b, mask_betas b cloth_type) betas) (λ betas,
  rbind (on_present (λ g, mask_gammas g cloth_type) gammas) (λ gammas,
  Ok (thetas, betas, gammas)))).

(** ** Execution traces *)

(** A sub-network has been evaluated. *)
Inductive event : Type := RunLF | RunHF | RunSS2G.

(** A computation that may raise, with the trace of what ran until then. *)
Definition M (A : Type) : Type := (list event * result A)%type.

Definition ret {A} (a : A) : M A := ([], Ok a).

Definition lift {A} (r : result A) : M A := ([], r).

Definition bind {A B} (m : M A) (f : A → M B) : M B :=
  match m with
  | (tr, Ok a) => let '(tr', r) := f a in ((tr ++ tr')%list, r)
  | (tr, Err e) => (tr, Err e)
  end.

Notation "'let*' x ':=' m 'in' k" := (bind m (λ x, k))
  (at level 10, x name, m at level 100, k at level 200, only parsing).

Fixpoint mapM_M {A B} (f : A → M B) (l : list A) : M (list B) :=
  match l with
  | [] => ret []
  | x :: l' =>
      let* y := f x in
      let* ys := mapM_M f l' in
      ret (y :: ys)
  end.

Definition outcome {A} (m : M A) : result A := m.2.

(** ** Fully connected network *)

(** [nn.Linear]: one row of weights and one bias per output feature. *)
Record Linear : Type := { weight : list (list R); bias : list R }.

Definition dot (u v : list R) : R := sumR (zip_with Rmult u v).

Definition Linear_forward (l : Linear) (x : list R) : list R :=
  zip_with Rplus (map (λ w, dot w x) (weight l)) (bias l).

Definition relu (x : list R) : list R := map (Rmax 0) x.

(** The sequence of layers of [FullyConnected] on one sample, in evaluation
    mode (dropout is the identity): Linear, ReLU, then [num_layers - 2] times
    Linear and ReLU, then the output Linear. *)
Definition layers_net (first : Linear) (hidden : list Linear) (last : Linear)
    (x : list R) : list R :=
  Linear_forward last
    (foldl (λ h l, relu (Linear_forward l h)) (relu (Linear_forward first x)) hidden).

(** A fully connected network: its declared sizes and what its layers, with
    their loaded weights, compute on one sample. *)
Record FullyConnected : Type := {
  input_size : nat;
  output_size : nat;
  net : list R → list R
}.

(** A linear output layer produces [output_size] features. *)
Definition FullyConnected_ok (fc : FullyConnected) : Prop :=
  ∀ row, length row = input_size fc → length (net fc row) = output_size fc.

Definition FullyConnected_forward (fc : FullyConnected) (x : tensor2) : result tensor2 :=
  if bool_decide (is_batch (input_size fc) x)
  then Ok (map (net fc) x)
  else Err LinearSizeMismatch.

Definition run_mlp (ev : event) (fc : FullyConnected) (x : tensor2) : M tensor2 :=
  match FullyConnected_forward fc x with
  | Ok y => ([ev], Ok y)
  | Err e => ([], Err e)
  end.

(** ** Sub-networks *)

Module TailorNetLF.
Record t : Type := { cloth_type : string; mlp : FullyConnected }.

Definition init (garment_class : string) (n_verts : nat) (layers : list R → list R) : t :=
  {| cloth_type := garment_class;
     mlp := {| input_size := 72 + 10 + 4; output_size := n_verts; net := layers |} |}.

Definition forward (self : t) (thetas betas gammas : tensor2) : M tensor2 :=
  let* masked := lift (mask_inputs (Some thetas) (Some betas) (Some gammas)
                                   (cloth_type self)) in
  match masked with
  | (Some thetas, Some betas, Some gammas) =>
      let* x := lift (cat_dim1 [thetas; betas; gammas]) in
      run_mlp RunLF (mlp self) x
  | _ => lift (Err TypeError)
  end.
End TailorNetLF.

Module TailorNetHF.
Record t : Type := { cloth_type : string; mlp : FullyConnected }.

Definition init (garment_class : string) (n_verts : nat) (layers : list R → list R) : t :=
  {| cloth_type := garment_class;
     mlp := {| input_size := 72; output_size := n_verts; net := layers |} |}.

Definition forward (self : t) (thetas : tensor2) (betas gammas : option tensor2)
  : M tensor2 :=
  let* thetas := lift (mask_thetas thetas (cloth_type self)) in
  run_mlp RunHF (mlp self) thetas.
End TailorNetHF.

Module TailorNetSS2G.
Record t : Type := { cloth_type : string; mlp : FullyConnected }.

Definition init (garment_class : string) (n_verts : nat) (layers : list R → list R) : t :=
  {| cloth_type := garment_class;
     mlp := {| input_size := 10 + 4; output_size := n_verts; net := layers |} |}.

Definition forward (self : t) (thetas betas gammas : option tensor2) : M tensor2 :=
  let* masked := lift (mask_inputs None betas gammas (cloth_type self)) in
  match masked with
  | (_, Some betas, Some gammas) =>
      let* x := lift (cat_dim1 [betas; gammas]) in
      run_mlp RunSS2G (mlp self) x
  | _ => lift (Err TypeError)
  end.
End TailorNetSS2G.

(** ** TailorNet *)

Record TailorNet : Type := {
  cloth_type : string;
  kernel_sigma : R;
  basis : tensor3;                          (* unposed pivot garments: P × V × 3 *)
  tailornet_lf : TailorNetLF.t;
  tailornet_hfs : list TailorNetHF.t;       (* one per shape-style pivot *)
  tailornet_ss2g : TailorNetSS2G.t
}.

(** Distance of the given shape-style from the pivots, in terms of the
    displacement difference in canonical pose. *)
Definition pivot_dist (rest_verts basis : tensor3) : result tensor2 :=
  rbind (sub4 (map (λ x, [x]) rest_verts) [basis]) (λ dist,
  Ok (map (map (λ verts,
         (mean (map (λ xyz, sumR (map (λ x, x ^ 2) xyz)) verts) * 1000)%R)) dist)).

Definition rbf_weight (sigma : R) (dist : tensor2) : tensor2 :=
  map (map (λ d, exp (- d / sigma))) dist.

Definition normalize_weight (weight : tensor2) : tensor2 :=
  map (λ row, map (λ w, (w / sumR row)%R) row) weight.

(** The normalized RBF weights of a batch of pivot distances. *)
Definition kernel_weights (sigma : R) (dist : tensor2) : tensor2 :=
  normalize_weight (rbf_weight sigma dist).

(** The rest-vertex field of the shape-style network for a batch. *)
Definition ss2g_rest_verts (self : TailorNet) (bs : nat) (betas gammas : tensor2)
  : M tensor3 :=
  let* rest := TailorNetSS2G.forward (tailornet_ss2g self) None (Some betas) (Some gammas) in
  lift (view_bs_3 bs rest).

(** High-frequency displacement mixed over the pivots with the RBF kernel. *)
Definition interp4 (self : TailorNet) (thetas betas gammas : tensor2)
    (pred_disp_pivot : tensor4) (sigma : R) : M tensor3 :=
  let bs := length pred_disp_pivot in
  let* rest_verts := ss2g_rest_verts self bs betas gammas in
  let* dist := lift (pivot_dist rest_verts (basis self)) in
  let weight := rbf_weight sigma dist in
  let weight := normalize_weight weight in
  let* weighted := lift (mul4 pred_disp_pivot (map (map (λ w, [[w]])) weight)) in
  ret (map sum_fields weighted).

(** The high-frequency displacement of one pivot network for the batch. *)
Definition hf_pivot_field (batch_size : nat) (betas thetas gammas : tensor2)
    (tailornet_hf : TailorNetHF.t) : M tensor3 :=
  let* out := TailorNetHF.forward tailornet_hf thetas (Some betas) (Some gammas) in
  lift (view_bs_3 batch_size out).

Definition forward (self : TailorNet) (betas thetas gammas : tensor2) : M tensor3 :=
  let batch_size := length thetas in
  let* hfs := mapM_M (hf_pivot_field batch_size betas thetas gammas)
                     (tailornet_hfs self) in
  let* stacked := lift (stack hfs) in
  let pred_disp_hf_pivot := transpose01 batch_size stacked in
  let* pred_disp_hf := interp4 self thetas betas gammas pred_disp_hf_pivot
                               (kernel_sigma self) in
  let* lf := TailorNetLF.forward (tailornet_lf self) thetas betas gammas in
  let* pred_disp_lf := lift (view_bs_3 batch_size lf) in
  lift (add3 pred_disp_lf pred_disp_hf).

(** ** What construction establishes, and valid inputs *)

(** Every sub-network is built with [n_verts = V * 3] outputs for the [V]
    vertices of the pivot garments, there is one high-frequency network per
    pivot, and the garment classes of the networks that mask [thetas] are keys
    of [VALID_THETA]. *)
Definition TailorNet_wf (P V : nat) (self : TailorNet) : Prop :=
  (0 < P)%nat ∧
  has_shape3 P V 3 (basis self) ∧
  length (tailornet_hfs self) = P ∧
  Forall (λ hf, is_Some (VALID_THETA !! TailorNetHF.cloth_type hf) ∧
                input_size (TailorNetHF.mlp hf) = 72%nat ∧
                output_size (TailorNetHF.mlp hf) = (V * 3)%nat ∧
                FullyConnected_ok (TailorNetHF.mlp hf)) (tailornet_hfs self) ∧
  (is_Some (VALID_THETA !! TailorNetLF.cloth_type (tailornet_lf self)) ∧
   input_size (TailorNetLF.mlp (tailornet_lf self)) = (72 + 10 + 4)%nat ∧
   output_size (TailorNetLF.mlp (tailornet_lf self)) = (V * 3)%nat ∧
   FullyConnected_ok (TailorNetLF.mlp (tailornet_lf self))) ∧
  (input_size (TailorNetSS2G.mlp (tailornet_ss2g self)) = (10 + 4)%nat ∧
   output_size (TailorNetSS2G.mlp (tailornet_ss2g self)) = (V * 3)%nat ∧
   FullyConnected_ok (TailorNetSS2G.mlp (tailornet_ss2g self))).

(** A batch of [N] samples: thetas [N, 72], betas [N, 10], gammas [N, 4]. *)
Definition valid_batch (N : nat) (betas thetas gammas : tensor2) : Prop :=
  (0 < N)%nat ∧
  (length thetas = N ∧ is_batch 72 thetas) ∧
  (length betas = N ∧ is_batch 10 betas) ∧
  (length gammas = N ∧ is_batch 4 gammas).

(** ** Index notation, for stating what the tensor code computes *)

Definition at1 (t : list R) (i : nat) : R := nth i t 0%R.
Definition at2 (t : tensor2) (i j : nat) : R := at1 (nth i t []) j.
Definition at3 (t : tensor3) (i j k : nat) : R := at2 (nth i t []) j k.
Definition at4 (t : tensor4) (i j k l : nat) : R := at3 (nth i t []) j k l.

(** [big_sum n f] is [f 0 + ... + f (n - 1)]. *)
Definition big_sum (n : nat) (f : nat → R) : R := sumR (map f (seq 0 n)).

(** The kernel blending rule in the words of its description: the mean over
    the [V] vertices of the squared Euclidean distance to the basis of pivot
    [p], times 1000; the weight [exp (- dist / sigma)]; the sum over the [P]
    pivots of the pivot fields weighted by the normalized weights. *)
Definition dist_spec (rest_verts basis : tensor3) (V b p : nat) : R :=
  (big_sum V (λ v, big_sum 3 (λ c, (at3 rest_verts b v c - at3 basis p v c) ^ 2))
   / INR V * 1000)%R.

Definition weight_spec (sigma : R) (rest_verts basis : tensor3) (V b p : nat) : R :=
  exp (- dist_spec rest_verts basis V b p / sigma).

Definition blend_spec (sigma : R) (rest_verts basis : tensor3) (pivot : tensor4)
    (P V b v c : nat) : R :=
  big_sum P (λ p,
    (weight_spec sigma rest_verts basis V b p
     / big_sum P (λ q, weight_spec sigma rest_verts basis V b q)
     * at4 pivot b p v c)%R).

(** A guard with floor [eps] on the normalization denominator: whenever the
    unnormalized weights of the pivots sum to less than [eps], the weights
    are the uniform ones. *)
Definition uniform_weights (P : nat) : list R := replicate P (1 / INR P)%R.

Definition degenerate_guard (sigma eps : R) : Prop :=
  ∀ dist_row : list R,
    dist_row ≠ [] →
    (sumR (map (λ d, exp (- d / sigma)) dist_row) < eps)%R →
    kernel_weights sigma [dist_row] = [uniform_weights (length dist_row)].

(** The exponent [- d / sigma] of an unnormalized weight lies where the
    single-precision exponential is a normal number, neither rounded to zero
    nor infinite ([exp (-80)] is about 1.8e-35, [exp 80] about 5.5e34).  The
    facts about the weights that division by an underflowed sum would break
    in floating point are stated for distances in this range. *)
Definition exp_in_range (sigma d : R) : Prop := (- 80 <= - d / sigma <= 80)%R.

(** [masked_row valid row row']: [row'] is [row] with the entries outside
    [valid] replaced by zero. *)
Definition masked_row (valid : nat → bool) (row row' : list R) : Prop :=
  length row' = length row ∧
  ∀ (i : nat) x, row !! i = Some x → row' !! i = Some (if valid i then x else 0%R).

(** Entry [i] of a flattened pose vector belongs to joint [i / 3]. *)
Definition joint_in (valid_theta : list nat) (i : nat) : bool :=
  bool_decide ((i / 3)%nat ∈ valid_theta).

Definition index_in (valid : list nat) (i : nat) : bool := bool_decide (i ∈ valid).
(** One entry of [pivot_dist]: the distance of one sample to one pivot. *)
Definition sample_dist (r bp : tensor2) : R :=
  (mean (map (λ xyz, sumR (map (λ x, x ^ 2) xyz)) (zip_with (zip_with Rminus) r bp))
   * 1000)%R.

(** A field of [V] vertices with [C] coordinates each. *)
Definition is_field (V C : nat) (f : tensor2) : Prop := length f = V ∧ is_batch C f.

Definition has_shape4 (n p v c : nat) (t : tensor4) : Prop :=
  length t = n ∧ Forall (has_shape3 p v c) t.

(** ** A small predictor, for instances

    Two pivots on a garment of one vertex; every network has three layers of
    width 2 with zero weights, so that it returns the bias of its output
    layer. *)
Definition zero_layer (n_in n_out : nat) (b : list R) : Linear :=
  {| weight := replicate n_out (replicate n_in 0%R); bias := b |}.

Definition constant_net (n_in : nat) (out : list R) : list R → list R :=
  layers_net (zero_layer n_in 2 [0; 0]%R) [zero_layer 2 2 [0; 0]%R]
             (zero_layer 2 (length out) out).

Definition demo_net : TailorNet := {|
  cloth_type := "t-shirt";
  kernel_sigma := (1 / 100)%R;
  basis := [ [[0; 0; 0]]; [[1; 0; 0]] ]%R;
  tailornet_lf := TailorNetLF.init "t-shirt" 3 (constant_net 86 [1; 2; 3]%R);
  tailornet_hfs := [ TailorNetHF.init "t-shirt" 3 (constant_net 72 [1; 0; 0]%R);
                     TailorNetHF.init "t-shirt" 3 (constant_net 72 [0; 1; 0]%R) ];
  tailornet_ss2g := TailorNetSS2G.init "t-shirt" 3 (constant_net 14 [0; 0; 0]%R)
|}.

Definition demo_thetas : tensor2 := [replicate 72 0%R].
Definition demo_betas : tensor2 := [replicate 10 0%R].
Definition demo_gammas : tensor2 := [replicate 4 0%R].

(** Two style vectors, for a batch whose sizes disagree. *)
Definition demo_gammas2 : tensor2 := [replicate 4 0%R; replicate 4 0%R].

(** The value of the tensor code of [interp4] in one expression: the fields
    of the pivots, each scaled by its normalized weight, summed over the
    pivots. *)
Definition blend (sigma : R) (rest_verts basis : tensor3) (pivot : tensor4) : tensor3 :=
  map sum_fields
    (zip_with (zip_with (λ (field : tensor2) w, map (map (λ x, (x * w)%R)) field))
       pivot
       (kernel_weights sigma
          (map (λ r, map (λ bp, sample_dist r bp) basis) rest_verts))).

(** A predictor with a single pivot, close to the rest vertices that its
    shape-style network returns. *)
Definition demo_net1 : TailorNet := {|
  cloth_type := "t-shirt";
  kernel_sigma := (1 / 100)%R;
  basis := [ [[1 / 100; 0; 0]] ]%R;
  tailornet_lf := TailorNetLF.init "t-shirt" 3 (constant_net 86 [1; 2; 3]%R);
  tailornet_hfs := [ TailorNetHF.init "t-shirt" 3 (constant_net 72 [1; 0; 0]%R) ];
  tailornet_ss2g := TailorNetSS2G.init "t-shirt" 3 (constant_net 14 [0; 0; 0]%R)
|}.

(** ** The value of the orchestrator on a valid batch, as one expression *)

(** What [mask_betas] and [mask_gammas] return on the batches they accept. *)
Definition masked_betas (betas : tensor2) (cloth_type : string) : tensor2 :=
  map (λ row, zip_with Rmult row (index_mask [0; 1]%nat row)) betas.

Definition masked_gammas (gammas : tensor2) (cloth_type : string) : tensor2 :=
  let gammas := map (λ row, zip_with Rmult row (index_mask [0; 1]%nat row)) gammas in
  if bool_decide (cloth_type = "old-t-shirt")
  then map (λ row, zip_with Rplus row [0; 0; 1.5; 0]%R) gammas
  else gammas.

(** The valid joints of a garment class ([[]] for a class outside the table,
    where [mask_thetas] raises). *)
Definition theta_valid (c : string) : list nat := default [] (VALID_THETA !! c).

Definition hf_field_value (V : nat) (thetas : tensor2) (hf : TailorNetHF.t) : tensor3 :=
  map (chunks 3 V)
    (map (net (TailorNetHF.mlp hf))
       (map (λ row, zip_with Rmult row (theta_mask (theta_valid (TailorNetHF.cloth_type hf))))
            thetas)).

Definition lf_field_value (V : nat) (betas thetas gammas : tensor2) (lf : TailorNetLF.t)
  : tensor3 :=
  map (chunks 3 V)
    (map (net (TailorNetLF.mlp lf))
       (zip_with app
          (zip_with app
             (map (λ row, zip_with Rmult row
                            (theta_mask (theta_valid (TailorNetLF.cloth_type lf))))
                  thetas)
             (masked_betas betas (TailorNetLF.cloth_type lf)))
          (masked_gammas gammas (TailorNetLF.cloth_type lf)))).

Definition rest_verts_value (V : nat) (betas gammas : tensor2) (ss : TailorNetSS2G.t)
  : tensor3 :=
  map (chunks 3 V)
    (map (net (TailorNetSS2G.mlp ss))
       (zip_with app (masked_betas betas (TailorNetSS2G.cloth_type ss))
                     (masked_gammas gammas (TailorNetSS2G.cloth_type ss)))).

Definition batch_value (self : TailorNet) (V : nat) (betas thetas gammas : tensor2)
  : tensor3 :=
  zip_with (zip_with (zip_with Rplus))
    (lf_field_value V betas thetas gammas (tailornet_lf self))
    (blend (kernel_sigma self)
       (rest_verts_value V betas gammas (tailornet_ss2g self))
       (basis self)
       (transpose01 (length thetas)
          (map (hf_field_value V thetas) (tailornet_hfs self)))).

(** Two batches of poses agree on the joints [valid]: the same number of
    samples, and the same entries wherever the joint of the entry is valid. *)
Definition agree_on_joints (valid : list nat) (t1 t2 : tensor2) : Prop :=
  length t1 = length t2 ∧
  ∀ b i, (b < length t1)%nat → (i < 72)%nat → (i / 3)%nat ∈ valid →
    at2 t1 b i = at2 t2 b i.

(** Two batches of shape or style vectors agree on their first two entries:
    the same number of samples, samples of the same width, the same first two
    entries. *)
Definition agree_on_first_two (t1 t2 : tensor2) : Prop :=
  Forall2 (λ r1 r2 : list R, length r1 = length r2 ∧ take 2 r1 = take 2 r2) t1 t2.

(** ** The layers of a fully connected network *)

Inductive layer : Type :=
| LinearLayer (in_features out_features : nat)
| ReLULayer
| DropoutLayer.     (* nn.Dropout(p=0.2) *)

(** The list of layers that [FullyConnected.__init__] hands to
    [nn.Sequential].  [num_layers] defaults to [None], and [None - 2]
    raises; [range] of a number below one is empty. *)
Definition FullyConnected_layers (input_size output_size hidden_size : nat)
    (num_layers : option Z) : result (list layer) :=
  match num_layers with
  | None => Err TypeError
  | Some n =>
      let net := [LinearLayer input_size hidden_size; ReLULayer; DropoutLayer] in
      let net := net ++ concat (replicate (Z.to_nat (n - 2))
                                  [LinearLayer hidden_size hidden_size; ReLULayer]) in
      Ok (net ++ [LinearLayer hidden_size output_size])
  end.

(** The number of features that come out of a sequence of layers given [w]
    features: a linear layer raises unless it is given its [in_features]. *)
Fixpoint features_through (layers : list layer) (w : nat) : result nat :=
  match layers with
  | [] => Ok w
  | LinearLayer i o :: layers' =>
      if bool_decide (w = i) then features_through layers' o
      else Err LinearSizeMismatch
  | _ :: layers' => features_through layers' w
  end.

Definition is_linear (l : layer) : bool :=
  match l with LinearLayer _ _ => true | _ => false end.

Definition is_dropout (l : layer) : bool :=
  match l with DropoutLayer => true | _ => false end.

(** ** Facts about the masks *)

Lemma set_ones_length {A} (one : A) idx zeros :
  length (set_ones one idx zeros) = length zeros.
Proof.
  induction idx as [|j idx IH]; simpl; [done|].
  by rewrite length_insert.
Qed.

Lemma set_ones_lookup {A} (one : A) idx zeros (j : nat) :
  (j < length zeros)%nat →
  set_ones one idx zeros !! j =
    if bool_decide (j ∈ idx) then Some one else zeros !! j.
Proof.
  intros Hj. induction idx as [|k idx IH].
  - case_bool_decide as Hin; [by apply elem_of_nil in Hin|done].
  - cbn [set_ones foldr]. fold (set_ones one idx zeros).
    destruct (decide (k = j)) as [->|Hne].
    + clear IH.
      rewrite list_lookup_insert_eq by (by rewrite set_ones_length).
      case_bool_decide as Hin; [done|].
      exfalso. apply Hin. by left.
    + rewrite list_lookup_insert_ne by done. rewrite IH. clear IH.
      destruct (decide (j ∈ idx)) as [Hin|Hin].
      * rewrite !bool_decide_eq_true_2; [done|by right|done].
      * rewrite !bool_decide_eq_false_2; [done| |done].
        intros [?|?]%elem_of_cons; [congruence|done].
Qed.

Lemma concat_lookup_uniform {A} (k : nat) (l : list (list A)) (i : nat) :
  (0 < k)%nat →
  Forall (λ x, length x = k) l →
  concat l !! i = l !! (i / k)%nat ≫= (λ x, x !! (i mod k)%nat).
Proof.
  intros Hk Hl. revert i. induction Hl as [|x l Hx Hl IH]; intros i; simpl.
  - done.
  - destruct (decide (i < k)%nat) as [Hlt|Hge].
    + rewrite lookup_app_l by lia.
      rewrite Nat.div_small, Nat.mod_small by lia. done.
    + rewrite lookup_app_r by lia. rewrite Hx, IH.
      assert (i / k = S ((i - k) / k))%nat as ->.
      { replace i with ((i - k) + 1 * k)%nat at 1 by lia.
        rewrite Nat.div_add by lia. lia. }
      assert (i mod k = (i - k) mod k)%nat as ->.
      { replace i with ((i - k) + 1 * k)%nat at 1 by lia.
        by rewrite Nat.Div0.mod_add. }
      done.
Qed.

Lemma concat_length_uniform {A} (k : nat) (l : list (list A)) :
  Forall (λ x, length x = k) l → length (concat l) = (length l * k)%nat.
Proof.
  induction 1 as [|x l Hx Hl IH]; simpl; [done|].
  rewrite length_app, Hx, IH. lia.
Qed.

Lemma theta_joints_uniform valid :
  Forall (λ x : list R, length x = 3%nat)
    (set_ones (replicate 3 1%R) valid (replicate 24 (replicate 3 0%R))).
Proof.
  apply Forall_forall. intros x Hx.
  apply list_elem_of_lookup in Hx as [j Hx].
  assert (j < 24)%nat as Hlt.
  { apply lookup_lt_Some in Hx. by rewrite set_ones_length, length_replicate in Hx. }
  rewrite set_ones_lookup in Hx by (by rewrite length_replicate).
  destruct (bool_decide _).
  - by inversion Hx.
  - apply lookup_replicate_1 in Hx as [-> _]. done.
Qed.

Lemma theta_mask_length valid : length (theta_mask valid) = 72%nat.
Proof.
  unfold theta_mask.
  rewrite (concat_length_uniform 3) by apply theta_joints_uniform.
  by rewrite set_ones_length, length_replicate.
Qed.

Lemma theta_mask_lookup valid (i : nat) :
  (i < 72)%nat →
  theta_mask valid !! i =
    Some (if bool_decide ((i / 3)%nat ∈ valid) then 1%R else 0%R).
Proof.
  intros Hi. unfold theta_mask.
  assert (i / 3 < 24)%nat as Hj by (apply Nat.Div0.div_lt_upper_bound; lia).
  assert (i mod 3 < 3)%nat as Hc by (apply Nat.mod_upper_bound; lia).
  rewrite (concat_lookup_uniform 3); [|lia|apply theta_joints_uniform].
  rewrite set_ones_lookup by (by rewrite length_replicate).
  case_bool_decide.
  - change (replicate 3 1%R !! (i mod 3)%nat = Some 1%R).
    by apply lookup_replicate_2.
  - rewrite lookup_replicate_2 by done.
    change (replicate 3 0%R !! (i mod 3)%nat = Some 0%R).
    by apply lookup_replicate_2.
Qed.

Lemma index_mask_length valid row : length (index_mask valid row) = length row.
Proof. unfold index_mask. by rewrite set_ones_length, length_replicate. Qed.

Lemma index_mask_lookup valid row (i : nat) :
  (i < length row)%nat →
  index_mask valid row !! i = Some (if bool_decide (i ∈ valid) then 1%R else 0%R).
Proof.
  intros Hi. unfold index_mask.
  rewrite set_ones_lookup by (by rewrite length_replicate).
  case_bool_decide; [done|]. by apply lookup_replicate_2.
Qed.

(** ** Masking, row by row *)

Lemma mask_row_masked (valid : nat → bool) (mask row : list R) :
  length mask = length row →
  (∀ i : nat, (i < length row)%nat →
     mask !! i = Some (if valid i then 1%R else 0%R)) →
  masked_row valid row (zip_with Rmult row mask).
Proof.
  intros Hlen Hmask. split.
  - rewrite length_zip_with. lia.
  - intros i x Hx. rewrite lookup_zip_with, Hx. simpl.
    rewrite Hmask by (by eapply lookup_lt_Some). simpl.
    destruct (valid i); f_equal; lra.
Qed.

Lemma theta_row_masked valid (row : list R) :
  length row = 72%nat →
  masked_row (joint_in valid) row (zip_with Rmult row (theta_mask valid)).
Proof.
  intros Hlen. apply mask_row_masked.
  - by rewrite theta_mask_length.
  - intros i Hi. apply theta_mask_lookup. lia.
Qed.

Lemma index_row_masked valid (row : list R) :
  masked_row (index_in valid) row (zip_with Rmult row (index_mask valid row)).
Proof.
  apply mask_row_masked.
  - apply index_mask_length.
  - intros i Hi. by apply index_mask_lookup.
Qed.

Lemma Forall2_map_r_same {A B} (P : A → B → Prop) (f : A → B) (l : list A) :
  Forall (λ x, P x (f x)) l → Forall2 P l (map f l).
Proof. induction 1; simpl; by constructor. Qed.

(** Masking a masked row again changes nothing. *)
Lemma zip_mask_idem (row mask : list R) :
  Forall (λ m, m = 0%R ∨ m = 1%R) mask →
  zip_with Rmult (zip_with Rmult row mask) mask = zip_with Rmult row mask.
Proof.
  intros Hm. revert row. induction Hm as [|m mask Hm0 Hm IH]; intros [|x row]; simpl; try done.
  f_equal; [|apply IH]. destruct Hm0 as [->| ->]; lra.
Qed.

Lemma set_ones_bits idx (zeros : list R) :
  Forall (λ m, m = 0%R ∨ m = 1%R) zeros →
  Forall (λ m, m = 0%R ∨ m = 1%R) (set_ones 1%R idx zeros).
Proof.
  intros Hz. induction idx as [|j idx IH]; simpl; [done|].
  apply Forall_insert; [done|by right].
Qed.

Lemma index_mask_bits valid row :
  Forall (λ m, m = 0%R ∨ m = 1%R) (index_mask valid row).
Proof.
  apply set_ones_bits, Forall_forall. intros m Hm.
  apply elem_of_replicate in Hm as [-> _]. by left.
Qed.

Lemma theta_mask_bits valid :
  Forall (λ m, m = 0%R ∨ m = 1%R) (theta_mask valid).
Proof.
  apply Forall_forall. intros m Hm.
  apply list_elem_of_lookup in Hm as [i Hi].
  assert (i < 72)%nat as Hlt.
  { apply lookup_lt_Some in Hi. by rewrite theta_mask_length in Hi. }
  rewrite theta_mask_lookup in Hi by done.
  destruct (bool_decide _); inversion Hi; auto.
Qed.

Lemma VALID_THETA_keys c :
  is_Some (VALID_THETA !! c) ↔
  c ∈ ["t-shirt"; "old-t-shirt"; "shirt"; "pant"; "skirt"].
Proof.
  unfold VALID_THETA. rewrite <- elem_of_dom, dom_list_to_map_L.
  rewrite elem_of_list_to_set. done.
Qed.

Lemma index_mask_zip valid (row mask : list R) :
  length mask = length row →
  index_mask valid (zip_with Rmult row mask) = index_mask valid row.
Proof. intros H. unfold index_mask. rewrite length_zip_with. do 2 f_equal. lia. Qed.

Lemma masked_betas_idem betas c :
  masked_betas (masked_betas betas c) c = masked_betas betas c.
Proof.
  unfold masked_betas. rewrite map_map. apply map_ext. intros row.
  rewrite index_mask_zip by apply index_mask_length.
  apply zip_mask_idem, index_mask_bits.
Qed.

Lemma gamma_row_idem (row : list R) :
  let g := λ row : list R,
    zip_with Rplus (zip_with Rmult row (index_mask [0; 1]%nat row)) [0; 0; 1.5; 0]%R in
  g (g row) = g row.
Proof.
  destruct row as [|a [|b [|c [|d rest]]]]; cbn;
    repeat (apply (f_equal2 cons); [lra|]); try done.
  by rewrite !zip_with_nil_r.
Qed.

Lemma masked_gammas_idem gammas c :
  masked_gammas (masked_gammas gammas c) c = masked_gammas gammas c.
Proof.
  unfold masked_gammas. case_bool_decide.
  - rewrite !map_map. apply map_ext. intros row. apply gamma_row_idem.
  - rewrite map_map. apply map_ext. intros row.
    rewrite index_mask_zip by apply index_mask_length.
    apply zip_mask_idem, index_mask_bits.
Qed.

(** Equality of lists of real expressions, entry by entry. *)
Ltac list_R_eq :=
  repeat (apply (f_equal2 (@cons R)); [lra|]); try reflexivity.

Ltac rows_R_eq :=
  repeat (apply (f_equal2 (@cons (list R))); [list_R_eq|]); try reflexivity.

(** ** Results and traces *)

Lemma bind_lift_Ok {A B} (a : A) (f : A → M B) : bind (lift (Ok a)) f = f a.
Proof. unfold bind, lift. by destruct (f a). Qed.

Lemma bind_lift_Err {A B} e (f : A → M B) : bind (lift (Err e)) f = ([], Err e).
Proof. done. Qed.

Lemma bind_Ok {A B} tr (a : A) (f : A → M B) :
  bind (tr, Ok a) f = ((tr ++ (f a).1)%list, (f a).2).
Proof. unfold bind. by destruct (f a). Qed.

Lemma bind_Err {A B} tr e (f : A → M B) : bind (tr, Err e) f = (tr, Err e).
Proof. done. Qed.

Lemma mapM_r_Ok {A B} (f : A → result B) (g : A → B) (l : list A) :
  Forall (λ x, f x = Ok (g x)) l → mapM_r f l = Ok (map g l).
Proof.
  induction 1 as [|x l Hx Hl IH]; simpl; [done|].
  by rewrite Hx, IH.
Qed.

(** ** Views *)

Lemma chunks_length {A} k count (l : list A) : length (chunks k count l) = count.
Proof. revert l. induction count as [|c IH]; intros l; simpl; [done|]. by rewrite IH. Qed.

Lemma chunks_concat {A} (k : nat) (t : list (list A)) :
  Forall (λ row, length row = k) t →
  chunks k (length t) (concat t) = t.
Proof.
  induction 1 as [|row t Hrow Ht IH]; simpl; [done|].
  rewrite take_app_length' by done.
  rewrite drop_app_length' by done.
  by rewrite IH.
Qed.

Lemma chunks_uniform {A} (k count : nat) (l : list A) :
  length l = (count * k)%nat →
  Forall (λ x, length x = k) (chunks k count l).
Proof.
  revert l. induction count as [|c IH]; intros l Hl; simpl; constructor.
  - rewrite length_take. lia.
  - apply IH. rewrite length_drop. lia.
Qed.

Lemma view_bs_3_rows (N V : nat) (t : tensor2) :
  (0 < N)%nat → length t = N → is_batch (V * 3) t →
  view_bs_3 N t = Ok (map (chunks 3 V) t).
Proof.
  intros HN Hlen Ht. unfold view_bs_3.
  pose proof (concat_length_uniform (V * 3) t Ht) as Hnumel.
  rewrite Hlen in Hnumel. rewrite Hnumel.
  rewrite bool_decide_eq_true_2.
  2:{ split; [lia|].
      replace (N * (V * 3))%nat with (V * (N * 3))%nat by lia.
      apply Nat.Div0.mod_mul. }
  f_equal.
  replace (N * (V * 3) / N)%nat with (V * 3)%nat
    by (symmetry; rewrite Nat.mul_comm; apply Nat.div_mul; lia).
  rewrite <- Hlen, chunks_concat by done.
  apply map_ext_Forall. eapply Forall_impl; [exact Ht|].
  intros row Hrow. cbv beta in *. rewrite Hrow, Nat.div_mul by lia. done.
Qed.

Lemma view_rows_shape (N V : nat) (t : tensor2) :
  length t = N → is_batch (V * 3) t →
  has_shape3 N V 3 (map (chunks 3 V) t).
Proof.
  intros Hlen Ht. split; [by rewrite length_map|].
  apply Forall_map. eapply Forall_impl; [exact Ht|].
  intros row Hrow. cbv beta in *. split; [apply chunks_length|].
  by apply chunks_uniform.
Qed.

(** ** Broadcasting on operands of matching sizes *)

Lemma bcast_singleton_r {A B C} (f : A → B → result C) (xs : list A) (y : B) :
  bcast f xs [y] = mapM_r (λ x, f x y) xs.
Proof. by destruct xs as [|x [|x' xs]]. Qed.

Lemma bcast_same_length {A B C} (f : A → B → result C) (xs : list A) (ys : list B) :
  length xs = length ys →
  bcast f xs ys = mapM_r (λ p, f p.1 p.2) (zip xs ys).
Proof.
  intros H. destruct xs as [|x [|x' xs]], ys as [|y [|y' ys]]; simpl in *; try done.
  all: try (by destruct (f x y)).
  all: try (rewrite bool_decide_eq_true_2 by done; done).
Qed.

Lemma bcast_zip_Ok {A B B' C} (f : A → B' → result C) (k : B → B') (g : A → B → C)
    (xs : list A) (ys : list B) :
  Forall2 (λ x y, f x (k y) = Ok (g x y)) xs ys →
  bcast f xs (map k ys) = Ok (zip_with g xs ys).
Proof.
  intros H. rewrite bcast_same_length
    by (rewrite length_map; by eapply Forall2_length).
  induction H as [|x y xs ys Hxy H IH]; simpl; [done|].
  by rewrite Hxy, IH.
Qed.

Lemma bcast_zip_Ok_id {A B C} (f : A → B → result C) (g : A → B → C)
    (xs : list A) (ys : list B) :
  Forall2 (λ x y, f x y = Ok (g x y)) xs ys →
  bcast f xs ys = Ok (zip_with g xs ys).
Proof. intros H. rewrite <- (map_id ys) at 1. by apply (bcast_zip_Ok f (λ y, y)). Qed.

Lemma Forall2_same_length_Forall {A B} (P : A → B → Prop) (xs : list A) (ys : list B) :
  length xs = length ys →
  Forall (λ x, ∀ y, y ∈ ys → P x y) xs →
  Forall2 P xs ys.
Proof.
  intros Hlen Hxs. apply Forall2_same_length_lookup. split; [done|].
  intros i x y Hx Hy. eapply Forall_lookup_1 in Hxs; [|exact Hx].
  apply Hxs. by eapply list_elem_of_lookup_2.
Qed.

Lemma scalar_bcast_Ok (op : R → R → R) (x y : list R) :
  length x = length y →
  bcast (scalar_op op) x y = Ok (zip_with op x y).
Proof.
  intros H. apply bcast_zip_Ok_id.
  apply Forall2_same_length_Forall; [done|].
  apply Forall_forall. by intros.
Qed.

(** Two fields of [V] vertices and [C] coordinates, entry by entry. *)
Lemma field_bcast_Ok (op : R → R → R) (V C : nat) (f g : tensor2) :
  length f = V → is_batch C f → length g = V → is_batch C g →
  bcast (bcast (scalar_op op)) f g = Ok (zip_with (zip_with op) f g).
Proof.
  intros Hf Hfc Hg Hgc. apply bcast_zip_Ok_id.
  apply Forall2_same_length_Forall; [congruence|].
  eapply Forall_impl; [exact Hfc|]. intros x Hx y Hy. cbv beta in *.
  apply scalar_bcast_Ok.
  eapply Forall_forall in Hgc; [|exact Hy]. cbv beta in Hgc. congruence.
Qed.

(** A field times one weight, the weight repeated over vertices and
    coordinates. *)
Lemma field_scale_Ok (f : tensor2) (w : R) :
  bcast (bcast (scalar_op Rmult)) f [[w]] = Ok (map (map (λ x, (x * w)%R)) f).
Proof.
  rewrite bcast_singleton_r. apply mapM_r_Ok, Forall_forall. intros xyz _.
  rewrite bcast_singleton_r. apply mapM_r_Ok, Forall_forall. by intros.
Qed.

(** ** Masking as the code runs it *)

Lemma zeros_row (row : list R) : map (λ _, 0%R) row = replicate (length row) 0%R.
Proof. induction row as [|x row IH]; simpl; by f_equal. Qed.

Lemma zeros_like_concat (t : tensor2) :
  concat (zeros_like t) = replicate (length (concat t)) 0%R.
Proof.
  induction t as [|row t IH]; [done|].
  cbn [zeros_like map concat]. fold (zeros_like t).
  by rewrite IH, zeros_row, length_app, replicate_add.
Qed.

Lemma chunks_replicate {A} (k count : nat) (x : A) :
  chunks k count (replicate (count * k) x) = replicate count (replicate k x).
Proof.
  induction count as [|c IH]; [done|].
  cbn [chunks replicate]. rewrite take_replicate, drop_replicate.
  replace (k `min` (S c * k))%nat with k by lia.
  replace (S c * k - k)%nat with (c * k)%nat by lia.
  by rewrite IH.
Qed.

Lemma bcast_mismatch {A B C} (f : A → B → result C) (xs : list A) (ys : list B) :
  length xs ≠ 1%nat → length ys ≠ 1%nat → length xs ≠ length ys →
  bcast f xs ys = Err BroadcastMismatch.
Proof.
  intros Hx Hy Hne.
  destruct xs as [|x [|x' xs]], ys as [|y [|y' ys]]; simpl in *; try done.
  all: by rewrite bool_decide_eq_false_2.
Qed.

Lemma same_shape_bcast_Ok (op : R → R → R) (f g : tensor2) :
  Forall2 (λ x y : list R, length x = length y) f g →
  bcast (bcast (scalar_op op)) f g = Ok (zip_with (zip_with op) f g).
Proof.
  intros H. apply bcast_zip_Ok_id. eapply Forall2_impl; [exact H|].
  intros x y Hxy. by apply scalar_bcast_Ok.
Qed.

Lemma zip_with_replicate_same {A B C} (f : A → B → C) (l : list A) (y : B) :
  zip_with f l (replicate (length l) y) = map (λ x, f x y) l.
Proof. induction l as [|x l IH]; simpl; by f_equal. Qed.

Lemma mapM_r_decide {A B} (f : A → result B) (g : A → B) (ok : A → Prop)
    `{!∀ x, Decision (ok x)} (e : error) (l : list A) :
  Forall (λ x, f x = if bool_decide (ok x) then Ok (g x) else Err e) l →
  mapM_r f l = if bool_decide (Forall ok l) then Ok (map g l) else Err e.
Proof.
  induction 1 as [|x l Hx Hl IH]; cbn [mapM_r map].
  - by rewrite bool_decide_eq_true_2.
  - rewrite Hx, IH. clear Hx IH.
    destruct (decide (ok x)) as [Hok|Hok].
    + rewrite (bool_decide_eq_true_2 _ Hok). cbn [rbind].
      destruct (decide (Forall ok l)) as [Hall|Hall].
      * rewrite (bool_decide_eq_true_2 _ Hall). cbn [rbind].
        by rewrite bool_decide_eq_true_2 by (by constructor).
      * rewrite (bool_decide_eq_false_2 _ Hall). cbn [rbind].
        rewrite bool_decide_eq_false_2; [done|].
        by intros [_ ?]%Forall_cons.
    + rewrite (bool_decide_eq_false_2 _ Hok). cbn [rbind].
      rewrite bool_decide_eq_false_2; [done|].
      by intros [? _]%Forall_cons.
Qed.

(** *** Shape and style *)

Lemma assign_first_two (t : tensor2) :
  assign_ones 1%R [0; 1]%nat (zeros_like t) =
    if bool_decide (Forall (λ row : list R, (2 ≤ length row)%nat) t)
    then Ok (map (index_mask [0; 1]%nat) t)
    else Err IndexError.
Proof.
  unfold assign_ones, zeros_like.
  assert (Forall (λ sample : list R, Forall (λ j, (j < length sample)%nat) [0; 1]%nat)
                 (map (map (λ _, 0%R)) t)
          ↔ Forall (λ row : list R, (2 ≤ length row)%nat) t) as Hiff.
  { rewrite Forall_map. apply Forall_iff. intros row. cbv beta.
    rewrite length_map, !Forall_cons, Forall_nil. lia. }
  destruct (decide (Forall (λ row : list R, (2 ≤ length row)%nat) t)) as [H|H].
  - rewrite !bool_decide_eq_true_2 by (done || by apply Hiff).
    f_equal. rewrite map_map. apply map_ext. intros row.
    unfold index_mask. by rewrite zeros_row.
  - rewrite !bool_decide_eq_false_2 by (done || by rewrite Hiff). done.
Qed.

Lemma mul_index_mask (t : tensor2) :
  mul2 t (map (index_mask [0; 1]%nat) t)
  = Ok (map (λ row, zip_with Rmult row (index_mask [0; 1]%nat row)) t).
Proof.
  unfold mul2.
  rewrite (bcast_zip_Ok _ (index_mask [0; 1]%nat)
             (λ x y, zip_with Rmult x (index_mask [0; 1]%nat y))).
  - by rewrite zip_with_diag.
  - apply Forall2_same_length_lookup. split; [done|].
    intros i x y Hx Hy. assert (x = y) as -> by congruence.
    apply scalar_bcast_Ok. by rewrite index_mask_length.
Qed.

(** [mask_betas] raises when a row has fewer than two entries, and masks
    every row otherwise. *)
Lemma mask_betas_eq (betas : tensor2) c :
  mask_betas betas c =
    if bool_decide (Forall (λ row : list R, (2 ≤ length row)%nat) betas)
    then Ok (masked_betas betas c)
    else Err IndexError.
Proof.
  unfold mask_betas. rewrite assign_first_two.
  case_bool_decide; [|done]. cbn [rbind]. apply mul_index_mask.
Qed.

Lemma add_offset (g : tensor2) (off : list R) :
  (2 ≤ length off)%nat →
  Forall (λ row : list R, (2 ≤ length row)%nat) g →
  add2 g [off] =
    if bool_decide (Forall (λ row : list R, length row = length off) g)
    then Ok (map (λ row, zip_with Rplus row off) g)
    else Err BroadcastMismatch.
Proof.
  intros Hoff Hg. unfold add2. rewrite bcast_singleton_r.
  apply mapM_r_decide. eapply Forall_impl; [exact Hg|].
  intros row Hrow. cbv beta in *. case_bool_decide as Hlen.
  - by apply scalar_bcast_Ok.
  - apply bcast_mismatch; lia.
Qed.

(** [mask_gammas] raises when a row has fewer than two entries, and for
    'old-t-shirt' when a row has not exactly four. *)
Lemma mask_gammas_eq (gammas : tensor2) c :
  mask_gammas gammas c =
    if bool_decide (Forall (λ row : list R, (2 ≤ length row)%nat) gammas)
    then if bool_decide (c = "old-t-shirt" ∧
                         ¬ Forall (λ row : list R, length row = 4%nat) gammas)
         then Err BroadcastMismatch
         else Ok (masked_gammas gammas c)
    else Err IndexError.
Proof.
  unfold mask_gammas. rewrite assign_first_two.
  case_bool_decide as Hidx; [|done]. cbn [rbind].
  rewrite mul_index_mask. cbn [rbind]. unfold masked_gammas.
  case_bool_decide as Hc.
  - rewrite add_offset; [|cbn; lia|].
    2:{ apply Forall_map. eapply Forall_impl; [exact Hidx|].
        intros row Hrow. cbv beta in *. rewrite length_zip_with, index_mask_length. lia. }
    assert (Forall (λ row : list R, length row = length [0; 0; 1.5; 0]%R)
              (map (λ row, zip_with Rmult row (index_mask [0; 1]%nat row)) gammas)
            ↔ Forall (λ row : list R, length row = 4%nat) gammas) as Hiff.
    { rewrite Forall_map. apply Forall_iff. intros row. cbv beta.
      rewrite length_zip_with, index_mask_length. cbn [length]. lia. }
    destruct (decide (Forall (λ row : list R, length row = 4%nat) gammas)) as [H4|H4].
    + rewrite bool_decide_eq_true_2 by (by apply Hiff).
      rewrite bool_decide_eq_false_2 by (by intros [_ ?]). done.
    + rewrite bool_decide_eq_false_2 by (by rewrite Hiff).
      rewrite bool_decide_eq_true_2 by done. done.
  - rewrite bool_decide_eq_false_2 by (by intros [? _]). done.
Qed.

Lemma mask_betas_Ok (w : nat) (betas : tensor2) c :
  (2 ≤ w)%nat → is_batch w betas →
  mask_betas betas c = Ok (masked_betas betas c).
Proof.
  intros Hw Hb. rewrite mask_betas_eq, bool_decide_eq_true_2; [done|].
  eapply Forall_impl; [exact Hb|]. intros row Hrow. cbv beta in *. lia.
Qed.

Lemma mask_gammas_Ok (gammas : tensor2) c :
  is_batch 4 gammas →
  mask_gammas gammas c = Ok (masked_gammas gammas c).
Proof.
  intros Hg. rewrite mask_gammas_eq, bool_decide_eq_true_2.
  - rewrite bool_decide_eq_false_2; [done|]. by intros [_ ?].
  - eapply Forall_impl; [exact Hg|]. intros row Hrow. cbv beta in *. lia.
Qed.

Lemma mask_betas_out (betas out : tensor2) c :
  mask_betas betas c = Ok out →
  out = masked_betas betas c ∧ Forall (λ row : list R, (2 ≤ length row)%nat) betas.
Proof. rewrite mask_betas_eq. case_bool_decide; [|done]. by intros [= <-]. Qed.

Lemma mask_gammas_out (gammas out : tensor2) c :
  mask_gammas gammas c = Ok out →
  out = masked_gammas gammas c ∧
  Forall (λ row : list R, (2 ≤ length row)%nat) gammas ∧
  (c = "old-t-shirt" → Forall (λ row : list R, length row = 4%nat) gammas).
Proof.
  rewrite mask_gammas_eq. case_bool_decide as Hidx; [|done].
  case_bool_decide as Hc; [done|]. intros [= <-]. repeat split; [done|].
  intros ->. destruct (decide (Forall (λ row : list R, length row = 4%nat) gammas)); [done|].
  exfalso. by apply Hc.
Qed.

(** *** Pose *)

Lemma VALID_THETA_bound c valid :
  VALID_THETA !! c = Some valid → Forall (λ j, (j < 24)%nat) valid.
Proof.
  intros H.
  assert (c ∈ ["t-shirt"; "old-t-shirt"; "shirt"; "pant"; "skirt"]) as Hc
    by (apply VALID_THETA_keys; by eexists).
  repeat (apply elem_of_cons in Hc as [->|Hc];
          [vm_compute in H; injection H as <-; repeat constructor; lia|]).
  by apply elem_of_nil in Hc.
Qed.

(** The mask that [mask_thetas] builds: one row [theta_mask] for every 72
    entries of [thetas]. *)
Lemma mask_thetas_mask (thetas : tensor2) c valid :
  VALID_THETA !! c = Some valid →
  mask_thetas thetas c =
    if bool_decide (length (concat thetas) mod 72 = 0)%nat
    then mul_mask 72 thetas (replicate (length (concat thetas) / 72) (theta_mask valid))
    else Err ViewSizeMismatch.
Proof.
  intros Hc. unfold mask_thetas. rewrite Hc. unfold view_24_3.
  rewrite zeros_like_concat, length_replicate.
  case_bool_decide as Hmod; [|done]. cbn [rbind].
  set (M := (length (concat thetas) / 72)%nat).
  assert (length (concat thetas) = M * 72)%nat as ->.
  { pose proof (Nat.div_mod_eq (length (concat thetas)) 72). unfold M. lia. }
  rewrite chunks_replicate, fmap_replicate.
  change (chunks 3 24 (replicate 72 0%R)) with (replicate 24 (replicate 3 0%R)).
  unfold assign_ones. rewrite bool_decide_eq_true_2.
  2:{ apply Forall_forall. intros sample [-> _]%elem_of_replicate.
      rewrite length_replicate. by apply (VALID_THETA_bound c). }
  cbn [rbind]. by rewrite !fmap_replicate.
Qed.

Lemma theta_mask_times (a : R) (mask : list R) :
  bcast (scalar_op Rmult) [a] mask = Ok (map (Rmult a) mask).
Proof. cbn [bcast]. apply mapM_r_Ok, Forall_forall. by intros. Qed.

(** Rows of 72 entries or of one entry: how many of each. *)
Lemma rows_72_or_1 (t : tensor2) :
  Forall (λ row : list R, length row = 72%nat ∨ length row = 1%nat) t →
  ∃ k, (k ≤ length t)%nat ∧
       (length (concat t) = 72 * k + (length t - k))%nat ∧
       (k = length t → is_batch 72 t) ∧
       (k = 0%nat → is_batch 1 t).
Proof.
  induction 1 as [|row t Hrow Ht (k & Hk & Hnumel & H72 & H1)].
  - exists 0%nat. repeat split; (done || constructor).
  - cbn [concat length]. rewrite length_app, Hnumel.
    destruct Hrow as [Hrow|Hrow]; rewrite Hrow.
    + exists (S k). repeat split; try lia.
      * intros Hall. constructor; [done|]. apply H72. lia.
    + exists k. repeat split; try lia.
      * intros ->. constructor; [done|]. by apply H1.
Qed.

(** What [mask_thetas] does with every tensor: it needs a multiple of 72
    entries for the view; it then masks a batch of rows of 72, or a column of
    72 single entries (which broadcasting turns into 72 rows); everything
    else cannot be broadcast against the mask. *)
Lemma mask_thetas_eq (thetas : tensor2) c valid :
  VALID_THETA !! c = Some valid →
  mask_thetas thetas c =
    if bool_decide (length (concat thetas) mod 72 ≠ 0)%nat then Err ViewSizeMismatch
    else if bool_decide (is_batch 72 thetas)
    then Ok (map (λ row, zip_with Rmult row (theta_mask valid)) thetas)
    else if bool_decide (length thetas = 72%nat ∧ is_batch 1 thetas)
    then Ok (map (λ row, map (Rmult (hd 0%R row)) (theta_mask valid)) thetas)
    else Err BroadcastMismatch.
Proof.
  intros Hc. rewrite (mask_thetas_mask _ _ _ Hc).
  destruct (decide (length (concat thetas) mod 72 = 0)%nat) as [Hmod|Hmod].
  2:{ by rewrite bool_decide_eq_false_2, bool_decide_eq_true_2. }
  rewrite bool_decide_eq_true_2, bool_decide_eq_false_2 by (done || by intros ?).
  set (M := (length (concat thetas) / 72)%nat).
  assert (length (concat thetas) = 72 * M)%nat as Hnumel.
  { pose proof (Nat.div_mod_eq (length (concat thetas)) 72). unfold M. lia. }
  clearbody M. unfold mul_mask.
  destruct (decide (is_batch 72 thetas)) as [H72|H72].
  { rewrite (bool_decide_eq_true_2 (is_batch 72 thetas)) by done.
    rewrite bool_decide_eq_true_2
      by (eapply Forall_impl; [exact H72|]; intros row Hrow; by left).
    assert (M = length thetas) as ->
      by (rewrite (concat_length_uniform 72) in Hnumel by done; lia).
    unfold mul2. rewrite same_shape_bcast_Ok.
    - by rewrite zip_with_replicate_same.
    - apply Forall2_same_length_lookup. split; [by rewrite length_replicate|].
      intros i x y Hx [-> _]%lookup_replicate_1.
      rewrite theta_mask_length. by eapply (Forall_lookup_1 _ _ _ _ H72). }
  rewrite (bool_decide_eq_false_2 (is_batch 72 thetas)) by done.
  destruct (decide (length thetas = 72%nat ∧ is_batch 1 thetas)) as [[HN H1]|Hcol].
  { rewrite (bool_decide_eq_true_2 (_ ∧ _)) by done.
    rewrite bool_decide_eq_true_2
      by (eapply Forall_impl; [exact H1|]; intros row Hrow; by right).
    assert (M = 1%nat) as ->
      by (rewrite (concat_length_uniform 1) in Hnumel by done; lia).
    cbn [replicate]. unfold mul2. rewrite bcast_singleton_r.
    apply mapM_r_Ok. eapply Forall_impl; [exact H1|].
    intros row Hrow. cbv beta in *.
    destruct row as [|a [|b row]]; simpl in Hrow; try lia.
    apply theta_mask_times. }
  rewrite (bool_decide_eq_false_2 (_ ∧ _)) by done.
  case_bool_decide as Hrows; [|done].
  destruct (rows_72_or_1 thetas Hrows) as (k & Hk & Hcount & Hall72 & Hall1).
  apply bcast_mismatch; rewrite ?length_replicate.
  - intros HN. apply H72, Hall72. lia.
  - intros ->. destruct (decide (k = 0%nat)) as [->|Hk0].
    + apply Hcol. split; [lia|by apply Hall1].
    + apply H72, Hall72. lia.
  - intros HN. apply H72, Hall72. lia.
Qed.

Lemma mask_thetas_Ok thetas c valid :
  VALID_THETA !! c = Some valid → is_batch 72 thetas →
  mask_thetas thetas c = Ok (map (λ row, zip_with Rmult row (theta_mask valid)) thetas).
Proof.
  intros Hc H72. rewrite (mask_thetas_eq _ _ _ Hc).
  rewrite bool_decide_eq_false_2.
  - by rewrite bool_decide_eq_true_2.
  - intros H. apply H. rewrite (concat_length_uniform 72) by done.
    apply Nat.Div0.mod_mul.
Qed.

Lemma mask_thetas_unknown thetas c :
  VALID_THETA !! c = None → mask_thetas thetas c = Err (KeyError c).
Proof. intros H. unfold mask_thetas. by rewrite H. Qed.

Lemma mask_thetas_length thetas c out :
  mask_thetas thetas c = Ok out → length out = length thetas.
Proof.
  destruct (VALID_THETA !! c) as [valid|] eqn:Hc.
  - rewrite (mask_thetas_eq _ _ _ Hc).
    repeat case_bool_decide; try done; intros [= <-]; by rewrite length_map.
  - by rewrite mask_thetas_unknown.
Qed.

Lemma mask_thetas_out_batch thetas c out :
  mask_thetas thetas c = Ok out → is_batch 72 out.
Proof.
  destruct (VALID_THETA !! c) as [valid|] eqn:Hc.
  - rewrite (mask_thetas_eq _ _ _ Hc).
    repeat case_bool_decide; try done; intros [= <-].
    + apply Forall_map. eapply Forall_impl; [eassumption|].
      intros row Hrow. cbv beta in *. rewrite length_zip_with, theta_mask_length. lia.
    + apply Forall_map, Forall_forall. intros row _.
      by rewrite length_map, theta_mask_length.
  - by rewrite mask_thetas_unknown.
Qed.

Lemma zip_mask_absorb (row m1 m2 : list R) :
  Forall2 (λ b1 b2, (b2 * b1)%R = b1) m1 m2 →
  zip_with Rmult (zip_with Rmult row m2) m1 = zip_with Rmult row m1.
Proof.
  intros H. revert row. induction H as [|b1 b2 m1 m2 Hb H IH]; intros [|x row]; simpl; try done.
  f_equal; [|apply IH]. rewrite Rmult_assoc. by rewrite Hb.
Qed.

Lemma scaled_mask_absorb (a : R) (m1 m2 : list R) :
  Forall2 (λ b1 b2, (b2 * b1)%R = b1) m1 m2 →
  zip_with Rmult (map (Rmult a) m2) m1 = map (Rmult a) m1.
Proof.
  induction 1 as [|b1 b2 m1 m2 Hb H IH]; simpl; [done|].
  f_equal; [|apply IH]. rewrite Rmult_assoc. by rewrite Hb.
Qed.

Lemma theta_mask_nested (v1 v2 : list nat) :
  (∀ j, j ∈ v1 → j ∈ v2) →
  Forall2 (λ b1 b2, (b2 * b1)%R = b1) (theta_mask v1) (theta_mask v2).
Proof.
  intros Hsub. apply Forall2_same_length_lookup.
  split; [by rewrite !theta_mask_length|].
  intros i b1 b2 H1 H2.
  assert (i < 72)%nat as Hi
    by (apply lookup_lt_Some in H1; by rewrite theta_mask_length in H1).
  rewrite theta_mask_lookup in H1, H2 by done.
  injection H1 as <-. injection H2 as <-.
  repeat case_bool_decide; try lra. exfalso. auto.
Qed.

(** Masking for [c1] after masking for [c2], when the valid joints of [c1]
    are among those of [c2]: on every tensor the result, or the error, of
    masking for [c1] alone. *)
Lemma mask_thetas_absorb (c1 c2 : string) (v1 v2 : list nat) (thetas : tensor2) :
  VALID_THETA !! c1 = Some v1 → VALID_THETA !! c2 = Some v2 →
  (∀ j, j ∈ v1 → j ∈ v2) →
  rbind (mask_thetas thetas c2) (λ t, mask_thetas t c1) = mask_thetas thetas c1.
Proof.
  intros H1 H2 Hsub.
  pose proof (theta_mask_nested v1 v2 Hsub) as Hnest.
  destruct (mask_thetas thetas c2) as [out|e] eqn:Hout; cbn [rbind].
  - pose proof (mask_thetas_out_batch _ _ _ Hout) as Hbatch.
    rewrite (mask_thetas_Ok _ _ _ H1 Hbatch).
    rewrite (mask_thetas_eq _ _ _ H2) in Hout. rewrite (mask_thetas_eq _ _ _ H1).
    repeat case_bool_decide; try done; injection Hout as <-; f_equal;
      rewrite map_map; apply map_ext; intros row.
    + by apply zip_mask_absorb.
    + by apply scaled_mask_absorb.
  - rewrite (mask_thetas_eq _ _ _ H2) in Hout. rewrite (mask_thetas_eq _ _ _ H1).
    by repeat case_bool_decide.
Qed.

Lemma mask_thetas_idem thetas c out :
  mask_thetas thetas c = Ok out → mask_thetas out c = Ok out.
Proof.
  intros Hout. destruct (VALID_THETA !! c) as [valid|] eqn:Hc.
  - pose proof (mask_thetas_absorb c c valid valid thetas Hc Hc ltac:(done)) as H.
    rewrite Hout in H. cbn [rbind] in H. exact H.
  - by rewrite mask_thetas_unknown in Hout.
Qed.

Lemma masked_betas_rows (betas : tensor2) c :
  Forall2 (λ row row' : list R, length row' = length row) betas (masked_betas betas c).
Proof.
  apply Forall2_map_r_same, Forall_forall. intros row _. cbv beta.
  rewrite length_zip_with, index_mask_length. lia.
Qed.

Lemma mask_betas_idem (betas out : tensor2) c :
  mask_betas betas c = Ok out → mask_betas out c = Ok out.
Proof.
  intros [-> Hidx]%mask_betas_out.
  rewrite mask_betas_eq, bool_decide_eq_true_2; [by rewrite masked_betas_idem|].
  apply Forall_map. eapply Forall_impl; [exact Hidx|].
  intros row Hrow. cbv beta in *. rewrite length_zip_with, index_mask_length. lia.
Qed.

Lemma masked_gammas_widths (gammas : tensor2) c (P : nat → Prop) :
  (c = "old-t-shirt" → Forall (λ row : list R, length row = 4%nat) gammas) →
  Forall (λ row : list R, P (length row)) gammas →
  Forall (λ row : list R, P (length row)) (masked_gammas gammas c).
Proof.
  intros H4 HP. unfold masked_gammas. case_bool_decide as Hc.
  - specialize (H4 Hc). rewrite map_map. apply Forall_map.
    apply Forall_forall. intros row Hrow. cbv beta.
    eapply Forall_forall in H4; [|exact Hrow]. eapply Forall_forall in HP; [|exact Hrow].
    cbv beta in *. rewrite !length_zip_with, index_mask_length.
    cbn [length]. by replace ((length row `min` length row) `min` 4)%nat with (length row) by lia.
  - apply Forall_map. eapply Forall_impl; [exact HP|].
    intros row Hrow. cbv beta in *. rewrite length_zip_with, index_mask_length.
    by replace (length row `min` length row)%nat with (length row) by lia.
Qed.

Lemma mask_gammas_idem (gammas out : tensor2) c :
  mask_gammas gammas c = Ok out → mask_gammas out c = Ok out.
Proof.
  intros (-> & Hidx & H4)%mask_gammas_out.
  rewrite mask_gammas_eq, bool_decide_eq_true_2.
  - rewrite bool_decide_eq_false_2; [by rewrite masked_gammas_idem|].
    intros [Hc Hn]. apply Hn.
    by apply (masked_gammas_widths gammas c (λ n, n = 4%nat)); [|apply H4].
  - by apply (masked_gammas_widths gammas c (λ n, 2 ≤ n)%nat).
Qed.

(** C7 (masking idempotence): for every theta, beta and gamma (each present or
    absent) and every category, masking the masked inputs again with the same
    category gives the masked inputs back; the legacy t-shirt offset on gamma
    is included.  Where the first masking raises (a category outside the
    table with theta present, or an input that the masks cannot be applied
    to) both sides are that same error. *)
Theorem mask_inputs_idempotent thetas betas gammas c :
  rbind (mask_inputs thetas betas gammas c)
        (λ '(thetas', betas', gammas'), mask_inputs thetas' betas' gammas' c)
  = mask_inputs thetas betas gammas c.
Proof.
  unfold mask_inputs.
  assert (∀ (f : tensor2 → result tensor2) x,
            (∀ t out, f t = Ok out → f out = Ok out) →
            ∀ y, on_present f x = Ok y → on_present f y = Ok y) as Hidem.
  { intros f [t|] Hf y; cbn [on_present]; [|by intros [= <-]].
    destruct (f t) as [out|e] eqn:Hout; cbn [rbind]; [|done].
    intros [= <-]. cbn [on_present]. by rewrite (Hf _ _ Hout). }
  destruct (on_present (λ t, mask_thetas t c) thetas) as [t'|e] eqn:Ht;
    cbn [rbind]; [|done].
  destruct (on_present (λ b, mask_betas b c) betas) as [b'|e] eqn:Hb;
    cbn [rbind]; [|done].
  destruct (on_present (λ g, mask_gammas g c) gammas) as [g'|e] eqn:Hg;
    cbn [rbind]; [|done].
  rewrite (Hidem _ thetas (λ t out, mask_thetas_idem t c out) _ Ht). cbn [rbind].
  rewrite (Hidem _ betas (λ b out, mask_betas_idem b out c) _ Hb). cbn [rbind].
  rewrite (Hidem _ gammas (λ g out, mask_gammas_idem g out c) _ Hg). done.
Qed.

(** C10: the legacy category 'old-t-shirt' and 't-shirt' have the same valid
    joints, so masking a pose with either gives the same result. *)
Theorem mask_thetas_old_t_shirt (thetas : tensor2) :
  VALID_THETA !! "old-t-shirt" = VALID_THETA !! "t-shirt" ∧
  mask_thetas thetas "old-t-shirt" = mask_thetas thetas "t-shirt".
Proof.
  assert (VALID_THETA !! "old-t-shirt" = VALID_THETA !! "t-shirt") as H
    by (vm_compute; reflexivity).
  split; [done|]. unfold mask_thetas. by rewrite H.
Qed.

(** C6 (masking completeness): for a category of the table and inputs of the
    documented widths the three masks succeed; every entry of theta outside
    the valid joints, and every entry of beta and gamma outside the indices 0
    and 1, is exactly zero after masking and every other entry is unchanged;
    for 'old-t-shirt' the offset (0, 0, 1.5, 0) is then added to every masked
    gamma. *)
Theorem masking_completeness c valid_theta (thetas betas gammas : tensor2) :
  VALID_THETA !! c = Some valid_theta →
  is_batch 72 thetas → is_batch 10 betas → is_batch 4 gammas →
  ∃ thetas' betas' gammas0,
    mask_thetas thetas c = Ok thetas' ∧
    Forall2 (masked_row (joint_in valid_theta)) thetas thetas' ∧
    mask_betas betas c = Ok betas' ∧
    Forall2 (masked_row (index_in [0; 1]%nat)) betas betas' ∧
    Forall2 (masked_row (index_in [0; 1]%nat)) gammas gammas0 ∧
    mask_gammas gammas c =
      Ok (if bool_decide (c = "old-t-shirt")
          then map (λ row, zip_with Rplus row [0; 0; 1.5; 0]%R) gammas0
          else gammas0).
Proof.
  intros Hc Hth Hbe Hga.
  exists (map (λ row, zip_with Rmult row (theta_mask valid_theta)) thetas),
         (masked_betas betas c),
         (map (λ row, zip_with Rmult row (index_mask [0; 1]%nat row)) gammas).
  split; [by apply mask_thetas_Ok|].
  split.
  { apply Forall2_map_r_same. eapply Forall_impl; [exact Hth|].
    intros row Hrow. by apply theta_row_masked. }
  split; [apply (mask_betas_Ok 10); [lia|done]|].
  split.
  { apply Forall2_map_r_same, Forall_forall. intros row _. apply index_row_masked. }
  split.
  { apply Forall2_map_r_same, Forall_forall. intros row _. apply index_row_masked. }
  rewrite (mask_gammas_Ok _ _ Hga). unfold masked_gammas. by case_bool_decide.
Qed.








(** C6, an instance: a legacy t-shirt sample. *)
Lemma masking_completeness_witness :
  ∃ thetas' betas' gammas0,
    mask_thetas [replicate 72 1%R] "old-t-shirt" = Ok thetas' ∧
    Forall2 (masked_row (joint_in [0; 1; 2; 3; 6; 9; 12; 13; 14; 16; 17; 18; 19]%nat))
            [replicate 72 1%R] thetas' ∧
    mask_betas [replicate 10 1%R] "old-t-shirt" = Ok betas' ∧
    Forall2 (masked_row (index_in [0; 1]%nat)) [replicate 10 1%R] betas' ∧
    Forall2 (masked_row (index_in [0; 1]%nat)) [[1; 2; 3; 4]%R] gammas0 ∧
    mask_gammas [[1; 2; 3; 4]%R] "old-t-shirt" =
      Ok (if bool_decide ("old-t-shirt" = "old-t-shirt")
          then map (λ row, zip_with Rplus row [0; 0; 1.5; 0]%R) gammas0
          else gammas0).
Proof.
  apply (masking_completeness "old-t-shirt"
           [0; 1; 2; 3; 6; 9; 12; 13; 14; 16; 17; 18; 19]%nat).
  - by vm_compute.
  - repeat constructor.
  - repeat constructor.
  - repeat constructor.
Defined.

(** The shape errors of the masks, on widths other than the documented ones. *)
Example mask_thetas_width_71 :
  mask_thetas [replicate 71 1%R] "skirt" = Err ViewSizeMismatch.
Proof. by rewrite (mask_thetas_eq _ _ [0; 1; 2]%nat) by (by vm_compute). Qed.

Example mask_thetas_width_144 :
  mask_thetas [replicate 144 1%R] "skirt" = Err BroadcastMismatch.
Proof.
  rewrite (mask_thetas_eq _ _ [0; 1; 2]%nat) by (by vm_compute).
  rewrite bool_decide_eq_false_2 by (intros H; by apply H).
  rewrite bool_decide_eq_false_2 by (by intros [H _]%Forall_cons).
  by rewrite bool_decide_eq_false_2 by (by intros [H _]).
Qed.

Example mask_betas_width_1 : mask_betas [[5]%R] "skirt" = Err IndexError.
Proof.
  rewrite mask_betas_eq, bool_decide_eq_false_2; [done|].
  intros [H _]%Forall_cons. simpl in H. lia.
Qed.

Example mask_gammas_width_3 :
  mask_gammas [[7; 8; 9]%R] "old-t-shirt" = Err BroadcastMismatch ∧
  mask_gammas [[7; 8; 9]%R] "shirt" = Ok [[7; 8; 0]%R].
Proof.
  split.
  - rewrite mask_gammas_eq, bool_decide_eq_true_2 by (repeat constructor; simpl; lia).
    rewrite bool_decide_eq_true_2; [done|].
    split; [done|]. by intros [H _]%Forall_cons.
  - rewrite mask_gammas_eq, bool_decide_eq_true_2 by (repeat constructor; simpl; lia).
    rewrite bool_decide_eq_false_2 by (by intros [? _]).
    f_equal. cbn. rows_R_eq.
Qed.

(** ** The sub-networks on well-shaped batches *)

Lemma is_batch_map_zip_mask (w : nat) (mask : list R) (t : tensor2) :
  length mask = w → is_batch w t →
  is_batch w (map (λ row, zip_with Rmult row mask) t).
Proof.
  intros Hm Ht. apply Forall_map. eapply Forall_impl; [exact Ht|].
  intros row Hrow. cbv beta in *. rewrite length_zip_with. lia.
Qed.

Lemma masked_betas_length betas c : length (masked_betas betas c) = length betas.
Proof. unfold masked_betas. by rewrite length_map. Qed.

Lemma masked_gammas_length gammas c : length (masked_gammas gammas c) = length gammas.
Proof. unfold masked_gammas. case_bool_decide; by rewrite ?length_map. Qed.

Lemma masked_betas_batch (w : nat) betas c :
  is_batch w betas → is_batch w (masked_betas betas c).
Proof.
  intros Hb. apply Forall_map. eapply Forall_impl; [exact Hb|].
  intros row Hrow. cbv beta in *. rewrite length_zip_with, index_mask_length. lia.
Qed.

Lemma masked_gammas_batch gammas c :
  is_batch 4 gammas → is_batch 4 (masked_gammas gammas c).
Proof.
  intros Hg. unfold masked_gammas.
  assert (is_batch 4 (map (λ row, zip_with Rmult row (index_mask [0; 1]%nat row)) gammas)) as H.
  { apply Forall_map. eapply Forall_impl; [exact Hg|].
    intros row Hrow. cbv beta in *. rewrite length_zip_with, index_mask_length. lia. }
  case_bool_decide; [|done].
  apply Forall_map. eapply Forall_impl; [exact H|].
  intros row Hrow. cbv beta in *. rewrite length_zip_with, Hrow. done.
Qed.

Lemma is_batch_zip_app (w1 w2 : nat) (t1 t2 : tensor2) :
  is_batch w1 t1 → is_batch w2 t2 →
  is_batch (w1 + w2) (zip_with app t1 t2).
Proof.
  intros H1. revert t2. induction H1 as [|r1 t1 Hr1 H1 IH]; intros t2 H2.
  - constructor.
  - destruct H2 as [|r2 t2 Hr2 H2]; simpl; constructor.
    + rewrite length_app. lia.
    + by apply IH.
Qed.

Lemma FullyConnected_forward_Ok fc (x : tensor2) :
  is_batch (input_size fc) x →
  FullyConnected_forward fc x = Ok (map (net fc) x).
Proof. intros H. unfold FullyConnected_forward. by rewrite bool_decide_eq_true_2. Qed.

Lemma FullyConnected_out_batch fc (x : tensor2) :
  FullyConnected_ok fc → is_batch (input_size fc) x →
  is_batch (output_size fc) (map (net fc) x).
Proof.
  intros Hok Hx. apply Forall_map. eapply Forall_impl; [exact Hx|].
  intros row Hrow. by apply Hok.
Qed.

Lemma run_mlp_Ok ev fc (x : tensor2) :
  is_batch (input_size fc) x →
  run_mlp ev fc x = ([ev], Ok (map (net fc) x)).
Proof. intros H. unfold run_mlp. by rewrite FullyConnected_forward_Ok. Qed.

Lemma HF_forward_Ok hf valid (thetas : tensor2) betas gammas :
  VALID_THETA !! TailorNetHF.cloth_type hf = Some valid →
  input_size (TailorNetHF.mlp hf) = 72%nat →
  is_batch 72 thetas →
  TailorNetHF.forward hf thetas betas gammas =
    ([RunHF], Ok (map (net (TailorNetHF.mlp hf))
                      (map (λ row, zip_with Rmult row (theta_mask valid)) thetas))).
Proof.
  intros Hc Hin Hth. unfold TailorNetHF.forward.
  rewrite (mask_thetas_Ok _ _ _ Hc Hth), bind_lift_Ok.
  apply run_mlp_Ok. rewrite Hin.
  apply is_batch_map_zip_mask; [apply theta_mask_length|done].
Qed.

Lemma cat_dim1_two (a b : tensor2) :
  length b = length a → cat_dim1 [a; b] = Ok (zip_with app a b).
Proof.
  intros H. unfold cat_dim1. rewrite bool_decide_eq_true_2; [done|].
  by repeat constructor.
Qed.

Lemma cat_dim1_three (a b c : tensor2) :
  length b = length a → length c = length a →
  cat_dim1 [a; b; c] = Ok (zip_with app (zip_with app a b) c).
Proof.
  intros Hb Hc. unfold cat_dim1. rewrite bool_decide_eq_true_2; [done|].
  by repeat constructor.
Qed.

Lemma cat_dim1_mismatch (a : tensor2) (ts : list tensor2) :
  ¬ Forall (λ u : tensor2, length u = length a) ts →
  cat_dim1 (a :: ts) = Err CatSizeMismatch.
Proof. intros H. unfold cat_dim1. by rewrite bool_decide_eq_false_2. Qed.

(** The input of the shape-style network. *)
Lemma SS2G_forward_Ok ss (betas gammas : tensor2) thetas :
  input_size (TailorNetSS2G.mlp ss) = (10 + 4)%nat →
  length gammas = length betas →
  is_batch 10 betas → is_batch 4 gammas →
  TailorNetSS2G.forward ss thetas (Some betas) (Some gammas) =
    ([RunSS2G],
     Ok (map (net (TailorNetSS2G.mlp ss))
             (zip_with app (masked_betas betas (TailorNetSS2G.cloth_type ss))
                           (masked_gammas gammas (TailorNetSS2G.cloth_type ss))))).
Proof.
  intros Hin Hlen Hb Hg. unfold TailorNetSS2G.forward, mask_inputs.
  cbn [on_present rbind].
  rewrite (mask_betas_Ok 10), mask_gammas_Ok by (done || lia). cbn [rbind].
  rewrite bind_lift_Ok.
  rewrite cat_dim1_two by (by rewrite masked_betas_length, masked_gammas_length).
  rewrite bind_lift_Ok. apply run_mlp_Ok. rewrite Hin.
  apply is_batch_zip_app; [by apply masked_betas_batch|by apply masked_gammas_batch].
Qed.

Lemma LF_forward_Ok lf valid (thetas betas gammas : tensor2) :
  VALID_THETA !! TailorNetLF.cloth_type lf = Some valid →
  input_size (TailorNetLF.mlp lf) = (72 + 10 + 4)%nat →
  length betas = length thetas → length gammas = length thetas →
  is_batch 72 thetas → is_batch 10 betas → is_batch 4 gammas →
  TailorNetLF.forward lf thetas betas gammas =
    ([RunLF],
     Ok (map (net (TailorNetLF.mlp lf))
             (zip_with app
                (zip_with app
                   (map (λ row, zip_with Rmult row (theta_mask valid)) thetas)
                   (masked_betas betas (TailorNetLF.cloth_type lf)))
                (masked_gammas gammas (TailorNetLF.cloth_type lf))))).
Proof.
  intros Hc Hin Hlb Hlg Hth Hb Hg. unfold TailorNetLF.forward.
  unfold mask_inputs. cbn [on_present].
  rewrite (mask_thetas_Ok _ _ _ Hc Hth), (mask_betas_Ok 10), mask_gammas_Ok by (done || lia).
  cbn [rbind]. rewrite bind_lift_Ok.
  rewrite cat_dim1_three
    by (by rewrite ?masked_betas_length, ?masked_gammas_length, length_map).
  rewrite bind_lift_Ok. apply run_mlp_Ok. rewrite Hin.
  apply is_batch_zip_app; [apply is_batch_zip_app|].
  - apply is_batch_map_zip_mask; [apply theta_mask_length|done].
  - by apply masked_betas_batch.
  - by apply masked_gammas_batch.
Qed.

(** ** Sums and indices *)

Lemma nth_map_lt {A B} (f : A → B) (l : list A) (i : nat) d d' :
  (i < length l)%nat → nth i (map f l) d' = f (nth i l d).
Proof.
  revert i. induction l as [|x l IH]; intros [|i] Hi; simpl in *; try lia; [done|].
  apply IH. lia.
Qed.

Lemma nth_zip_with_lt {A B C} (f : A → B → C) (l : list A) (k : list B) (i : nat) d d1 d2 :
  (i < length l)%nat → (i < length k)%nat →
  nth i (zip_with f l k) d = f (nth i l d1) (nth i k d2).
Proof.
  revert k i. induction l as [|x l IH]; intros [|y k] [|i] Hl Hk; simpl in *; try lia; [done|].
  apply IH; lia.
Qed.

Lemma nth_Forall {A} (P : A → Prop) (l : list A) (i : nat) d :
  Forall P l → (i < length l)%nat → P (nth i l d).
Proof.
  intros Hl Hi. destruct (nth_lookup_or_length l i d) as [H|H]; [|lia].
  by eapply Forall_lookup_1.
Qed.

Lemma big_sum_S n f : big_sum (S n) f = (f 0%nat + big_sum n (λ i, f (S i)))%R.
Proof.
  unfold big_sum. cbn [seq map sumR foldr]. f_equal.
  by rewrite <- seq_shift, map_map.
Qed.

Lemma big_sum_ext n f g :
  (∀ i, (i < n)%nat → f i = g i) → big_sum n f = big_sum n g.
Proof.
  revert f g. induction n as [|n IH]; intros f g H; [done|].
  rewrite !big_sum_S. f_equal; [apply H; lia|].
  apply IH. intros i Hi. apply H. lia.
Qed.

Lemma sumR_map_big_sum {A} (g : A → R) (l : list A) d :
  sumR (map g l) = big_sum (length l) (λ i, g (nth i l d)).
Proof.
  induction l as [|x l IH]; [done|].
  cbn [length]. rewrite big_sum_S. cbn [map sumR foldr nth]. f_equal. exact IH.
Qed.

Lemma sumR_big_sum (l : list R) :
  sumR l = big_sum (length l) (λ i, nth i l 0%R).
Proof. rewrite <- (map_id l) at 1. apply (sumR_map_big_sum (λ x, x)). Qed.

(** ** The distances and the weighted sum, on well-shaped tensors *)

Lemma has_shape3_field (n v c : nat) (t : tensor3) (x : tensor2) :
  has_shape3 n v c t → x ∈ t → length x = v ∧ is_batch c x.
Proof. intros [_ H] Hx. eapply Forall_forall in H; [|exact Hx]. exact H. Qed.

Lemma sub4_Ok (N P V : nat) (rest_verts basis : tensor3) :
  has_shape3 N V 3 rest_verts → has_shape3 P V 3 basis →
  sub4 (map (λ x, [x]) rest_verts) [basis] =
    Ok (map (λ r, map (λ bp, zip_with (zip_with Rminus) r bp) basis) rest_verts).
Proof.
  intros Hr Hb. unfold sub4. rewrite bcast_singleton_r.
  rewrite (mapM_r_Ok _
    (λ x, map (λ bp, zip_with (zip_with Rminus) (hd [] x) bp) basis)).
  - by rewrite map_map.
  - apply Forall_map, Forall_forall. intros r Hin. cbv beta.
    cbn [bcast hd].
    apply mapM_r_Ok, Forall_forall. intros bp Hbp.
    destruct (has_shape3_field _ _ _ _ _ Hr Hin) as [? ?].
    destruct (has_shape3_field _ _ _ _ _ Hb Hbp) as [? ?].
    by apply (field_bcast_Ok Rminus V 3).
Qed.

Lemma pivot_dist_Ok (N P V : nat) (rest_verts basis : tensor3) :
  has_shape3 N V 3 rest_verts → has_shape3 P V 3 basis →
  pivot_dist rest_verts basis =
    Ok (map (λ r, map (λ bp, sample_dist r bp) basis) rest_verts).
Proof.
  intros Hr Hb. unfold pivot_dist. rewrite (sub4_Ok N P V) by done.
  cbn [rbind]. f_equal. rewrite map_map. apply map_ext. intros r.
  by rewrite map_map.
Qed.

Lemma sample_dist_spec (N P V : nat) (rest_verts basis : tensor3) (b p : nat) :
  has_shape3 N V 3 rest_verts → has_shape3 P V 3 basis →
  (b < N)%nat → (p < P)%nat →
  sample_dist (nth b rest_verts []) (nth p basis []) =
    dist_spec rest_verts basis V b p.
Proof.
  intros [HN Hr] [HP Hb] Hlt Hp.
  pose proof (nth_Forall _ _ b [] Hr ltac:(lia)) as [Hrv Hrc].
  pose proof (nth_Forall _ _ p [] Hb ltac:(lia)) as [Hbv Hbc].
  cbv beta in *.
  set (r := nth b rest_verts []) in *. set (bp := nth p basis []) in *.
  unfold sample_dist, dist_spec, mean. rewrite length_map, length_zip_with.
  rewrite Hrv, Hbv, Nat.min_id. do 2 f_equal.
  rewrite (sumR_map_big_sum _ _ []), length_zip_with, Hrv, Hbv, Nat.min_id.
  apply big_sum_ext. intros v Hv.
  rewrite (nth_zip_with_lt _ _ _ _ _ [] []) by lia.
  pose proof (nth_Forall _ _ v [] Hrc ltac:(lia)) as Hx.
  pose proof (nth_Forall _ _ v [] Hbc ltac:(lia)) as Hy.
  cbv beta in *.
  rewrite (sumR_map_big_sum _ _ 0%R), length_zip_with, Hx, Hy, Nat.min_id.
  apply big_sum_ext. intros c Hc.
  rewrite (nth_zip_with_lt _ _ _ _ _ 0%R 0%R) by lia.
  done.
Qed.

Lemma mul4_Ok (pivot : tensor4) (weight : tensor2) :
  Forall2 (λ (pb : tensor3) (wb : list R), length pb = length wb) pivot weight →
  mul4 pivot (map (map (λ w, [[w]])) weight) =
    Ok (zip_with (zip_with (λ field w, map (map (λ x, (x * w)%R)) field)) pivot weight).
Proof.
  intros H. unfold mul4. apply bcast_zip_Ok.
  eapply Forall2_impl; [exact H|]. intros pb wb Hlen. cbv beta.
  apply bcast_zip_Ok. apply Forall2_same_length_Forall; [done|].
  apply Forall_forall. intros field _ w _. apply field_scale_Ok.
Qed.

Lemma is_field_add (V C : nat) (f g : tensor2) :
  is_field V C f → is_field V C g →
  is_field V C (zip_with (zip_with Rplus) f g).
Proof.
  intros [Hf Hfc] [Hg Hgc]. split.
  - rewrite length_zip_with. lia.
  - apply Forall_forall. intros x Hx.
    apply elem_of_lookup_zip_with in Hx as (i & a & b & -> & Ha & Hb).
    eapply Forall_lookup_1 in Hfc; [|exact Ha].
    eapply Forall_lookup_1 in Hgc; [|exact Hb].
    cbv beta in *. rewrite length_zip_with. lia.
Qed.

Lemma at2_add (V C : nat) (f g : tensor2) (v c : nat) :
  is_field V C f → is_field V C g → (v < V)%nat → (c < C)%nat →
  at2 (zip_with (zip_with Rplus) f g) v c = (at2 f v c + at2 g v c)%R.
Proof.
  intros [Hf Hfc] [Hg Hgc] Hv Hc. unfold at2, at1.
  rewrite (nth_zip_with_lt _ _ _ _ _ [] []) by lia.
  pose proof (nth_Forall _ _ v [] Hfc ltac:(lia)) as Hx.
  pose proof (nth_Forall _ _ v [] Hgc ltac:(lia)) as Hy.
  cbv beta in *.
  by rewrite (nth_zip_with_lt _ _ _ _ _ 0%R 0%R) by lia.
Qed.

Lemma foldl_add_fields (V C : nat) (fs : list tensor2) (acc : tensor2) :
  is_field V C acc → Forall (is_field V C) fs →
  is_field V C (foldl (zip_with (zip_with Rplus)) acc fs) ∧
  ∀ v c, (v < V)%nat → (c < C)%nat →
    at2 (foldl (zip_with (zip_with Rplus)) acc fs) v c =
      (at2 acc v c + big_sum (length fs) (λ p, at2 (nth p fs []) v c))%R.
Proof.
  intros Hacc Hfs. revert acc Hacc.
  induction Hfs as [|f fs Hf Hfs IH]; intros acc Hacc.
  - split; [done|]. intros v c _ _. unfold big_sum. simpl. lra.
  - cbn [foldl].
    destruct (IH _ (is_field_add _ _ _ _ Hacc Hf)) as [Hshape Hat].
    split; [done|]. intros v c Hv Hc.
    rewrite Hat by done. rewrite (at2_add V C) by done.
    cbn [length]. rewrite big_sum_S. cbn [nth]. lra.
Qed.

Lemma sum_fields_spec (V C : nat) (fs : list tensor2) :
  fs ≠ [] → Forall (is_field V C) fs →
  is_field V C (sum_fields fs) ∧
  ∀ v c, (v < V)%nat → (c < C)%nat →
    at2 (sum_fields fs) v c = big_sum (length fs) (λ p, at2 (nth p fs []) v c).
Proof.
  intros Hne Hfs. destruct fs as [|f fs]; [done|].
  apply Forall_cons in Hfs as [Hf Hfs]. cbn [sum_fields].
  destruct (foldl_add_fields V C fs f Hf Hfs) as [Hshape Hat].
  split; [done|]. intros v c Hv Hc. rewrite Hat by done.
  cbn [length]. by rewrite big_sum_S.
Qed.

Lemma at2_map_map (f : R → R) (t : tensor2) (i j : nat) (P : nat) :
  (i < length t)%nat → is_batch P t → (j < P)%nat →
  at2 (map (map f) t) i j = f (at2 t i j).
Proof.
  intros Hi Ht Hj. unfold at2, at1.
  rewrite (nth_map_lt _ _ _ []) by done.
  pose proof (nth_Forall _ _ i [] Ht Hi) as Hrow. cbv beta in Hrow.
  by rewrite (nth_map_lt _ _ _ 0%R) by lia.
Qed.

Lemma rbf_weight_batch sigma (dist : tensor2) (P : nat) :
  is_batch P dist → is_batch P (rbf_weight sigma dist).
Proof.
  intros H. apply Forall_map. eapply Forall_impl; [exact H|].
  intros row Hrow. cbv beta in *. by rewrite length_map.
Qed.

Lemma normalize_weight_batch (weight : tensor2) (P : nat) :
  is_batch P weight → is_batch P (normalize_weight weight).
Proof.
  intros H. apply Forall_map. eapply Forall_impl; [exact H|].
  intros row Hrow. cbv beta in *. by rewrite length_map.
Qed.

Lemma normalize_weight_at (weight : tensor2) (P b p : nat) :
  (b < length weight)%nat → is_batch P weight → (p < P)%nat →
  at2 (normalize_weight weight) b p =
    (at2 weight b p / big_sum P (λ q, at2 weight b q))%R.
Proof.
  intros Hb Hw Hp. unfold normalize_weight, at2, at1.
  rewrite (nth_map_lt _ _ _ []) by done.
  pose proof (nth_Forall _ _ b [] Hw Hb) as Hrow. cbv beta in Hrow.
  rewrite (nth_map_lt _ _ _ 0%R) by lia.
  by rewrite sumR_big_sum, Hrow.
Qed.

Lemma kernel_weights_at sigma (dist : tensor2) (P b p : nat) :
  (b < length dist)%nat → is_batch P dist → (p < P)%nat →
  at2 (kernel_weights sigma dist) b p =
    (exp (- at2 dist b p / sigma)
     / big_sum P (λ q, exp (- at2 dist b q / sigma)))%R.
Proof.
  intros Hb Hd Hp. unfold kernel_weights.
  rewrite (normalize_weight_at _ P)
    by (try apply rbf_weight_batch; try done; by unfold rbf_weight; rewrite length_map).
  unfold rbf_weight. rewrite (at2_map_map _ _ _ _ P) by done.
  f_equal. apply big_sum_ext. intros q Hq.
  by rewrite (at2_map_map _ _ _ _ P).
Qed.

Lemma scaled_fields (P V : nat) (pb : tensor3) (wb : list R) :
  has_shape3 P V 3 pb → length wb = P →
  length (zip_with (λ (field : tensor2) w, map (map (λ x, (x * w)%R)) field) pb wb) = P ∧
  Forall (is_field V 3)
    (zip_with (λ (field : tensor2) w, map (map (λ x, (x * w)%R)) field) pb wb).
Proof.
  intros [HP Hpb] Hwb. split; [rewrite length_zip_with; lia|].
  apply Forall_forall. intros f Hf.
  apply elem_of_lookup_zip_with in Hf as (i & field & w & -> & Hfield & _).
  eapply Forall_lookup_1 in Hpb as [Hlen Hrows]; [|exact Hfield].
  split; [by rewrite length_map|].
  apply Forall_map. eapply Forall_impl; [exact Hrows|].
  intros row Hrow. cbv beta in *. by rewrite length_map.
Qed.

Lemma weighted_sum_spec (N P V : nat) (pivot : tensor4) (weight : tensor2) :
  (0 < P)%nat →
  has_shape4 N P V 3 pivot →
  length weight = N → is_batch P weight →
  let out := map sum_fields
               (zip_with (zip_with (λ (field : tensor2) w, map (map (λ x, (x * w)%R)) field))
                         pivot weight) in
  has_shape3 N V 3 out ∧
  ∀ b v c, (b < N)%nat → (v < V)%nat → (c < 3)%nat →
    at3 out b v c = big_sum P (λ p, (at4 pivot b p v c * at2 weight b p)%R).
Proof.
  intros HP [HN Hpivot] Hwn Hw out. split.
  - split; [unfold out; rewrite length_map, length_zip_with; lia|].
    apply Forall_map, Forall_forall. intros fs Hfs.
    apply elem_of_lookup_zip_with in Hfs as (b & pb & wb & -> & Hpb & Hwb).
    eapply Forall_lookup_1 in Hpivot; [|exact Hpb].
    eapply Forall_lookup_1 in Hw; [|exact Hwb]. cbv beta in Hw.
    destruct (scaled_fields P V pb wb Hpivot Hw) as [Hlen Hfields].
    apply (sum_fields_spec V 3); [|done].
    intros Hnil. rewrite Hnil in Hlen. simpl in Hlen. lia.
  - intros b v c Hb Hv Hc. unfold out, at3.
    rewrite (nth_map_lt _ _ _ []) by (rewrite length_zip_with; lia).
    rewrite (nth_zip_with_lt _ _ _ _ _ [] []) by lia.
    pose proof (nth_Forall _ _ b [] Hpivot ltac:(lia)) as Hpb.
    pose proof (nth_Forall _ _ b [] Hw ltac:(lia)) as Hwb.
    cbv beta in Hpb, Hwb.
    set (pb := nth b pivot []) in *. set (wb := nth b weight []) in *.
    destruct (scaled_fields P V pb wb Hpb Hwb) as [Hlen Hfields].
    destruct (sum_fields_spec V 3 _
                ltac:(intros Hnil; rewrite Hnil in Hlen; simpl in Hlen; lia) Hfields)
      as [_ Hat].
    rewrite Hat by done. rewrite Hlen.
    apply big_sum_ext. intros p Hp.
    destruct Hpb as [HlenP Hpb].
    rewrite (nth_zip_with_lt _ _ _ _ _ [] 0%R) by lia.
    pose proof (nth_Forall _ _ p [] Hpb ltac:(lia)) as [Hfv Hfc].
    rewrite (at2_map_map _ _ _ _ 3) by (done || lia).
    reflexivity.
Qed.

(** ** The kernel blending stage *)

Lemma ss2g_rest_verts_Ok (self : TailorNet) (N P V : nat) (betas gammas : tensor2) :
  TailorNet_wf P V self →
  (0 < N)%nat → length betas = N → length gammas = N →
  is_batch 10 betas → is_batch 4 gammas →
  ∃ rest_verts,
    ss2g_rest_verts self N betas gammas = ([RunSS2G], Ok rest_verts) ∧
    has_shape3 N V 3 rest_verts.
Proof.
  intros (_ & _ & _ & _ & _ & Hin & Hout & Hok) HN Hb Hg Hbw Hgw.
  set (ss := tailornet_ss2g self) in *.
  set (x := zip_with app (masked_betas betas (TailorNetSS2G.cloth_type ss))
                         (masked_gammas gammas (TailorNetSS2G.cloth_type ss))).
  assert (is_batch (input_size (TailorNetSS2G.mlp ss)) x) as Hx.
  { rewrite Hin. apply is_batch_zip_app;
      [by apply masked_betas_batch|by apply masked_gammas_batch]. }
  assert (length (map (net (TailorNetSS2G.mlp ss)) x) = N) as Hlen.
  { unfold x. rewrite length_map, length_zip_with, masked_betas_length, masked_gammas_length. lia. }
  assert (is_batch (V * 3) (map (net (TailorNetSS2G.mlp ss)) x)) as Hraw.
  { rewrite <- Hout. by apply FullyConnected_out_batch. }
  exists (map (chunks 3 V) (map (net (TailorNetSS2G.mlp ss)) x)). split.
  - unfold ss2g_rest_verts. fold ss.
    rewrite (SS2G_forward_Ok ss betas gammas None Hin) by (done || congruence).
    fold x. rewrite bind_Ok.
    rewrite (view_bs_3_rows N V) by done. done.
  - by apply view_rows_shape.
Qed.

Lemma has_shape3_batch (N V C : nat) (t : tensor3) :
  has_shape3 N V C t → length t = N.
Proof. by intros [? _]. Qed.

Lemma pivot_dist_batch (rest_verts basis : tensor3) :
  length (map (λ r, map (λ bp, sample_dist r bp) basis) rest_verts) = length rest_verts ∧
  is_batch (length basis) (map (λ r, map (λ bp, sample_dist r bp) basis) rest_verts).
Proof.
  split; [by rewrite length_map|].
  apply Forall_map, Forall_forall. intros r _. cbv beta. by rewrite length_map.
Qed.

Lemma interp4_exec (self : TailorNet) (N P V : nat)
    (thetas betas gammas : tensor2) (pivot : tensor4) (sigma : R) :
  TailorNet_wf P V self →
  (0 < N)%nat → length betas = N → length gammas = N →
  is_batch 10 betas → is_batch 4 gammas →
  has_shape4 N P V 3 pivot →
  ∃ rest_verts,
    ss2g_rest_verts self N betas gammas = ([RunSS2G], Ok rest_verts) ∧
    has_shape3 N V 3 rest_verts ∧
    interp4 self thetas betas gammas pivot sigma
      = ([RunSS2G], Ok (blend sigma rest_verts (basis self) pivot)) ∧
    has_shape3 N V 3 (blend sigma rest_verts (basis self) pivot).
Proof.
  intros Hwf HN Hb Hg Hbw Hgw Hpivot.
  destruct (ss2g_rest_verts_Ok self N P V betas gammas Hwf HN Hb Hg Hbw Hgw)
    as (rest_verts & Hrest & Hshape).
  destruct Hwf as (HP & Hbasis & _).
  pose proof (pivot_dist_Ok N P V rest_verts (basis self) Hshape Hbasis) as Hdist.
  destruct (pivot_dist_batch rest_verts (basis self)) as [Hdn Hdp].
  rewrite (has_shape3_batch _ _ _ _ Hshape) in Hdn.
  rewrite (has_shape3_batch _ _ _ _ Hbasis) in Hdp.
  unfold blend.
  set (dist := map (λ r, map (λ bp, sample_dist r bp) (basis self)) rest_verts) in *.
  assert (length (kernel_weights sigma dist) = N) as Hwn.
  { unfold kernel_weights, normalize_weight, rbf_weight. by rewrite !length_map. }
  assert (is_batch P (kernel_weights sigma dist)) as Hwp
    by (by apply normalize_weight_batch, rbf_weight_batch).
  exists rest_verts. split; [done|]. split; [done|]. split.
  - unfold interp4. destruct Hpivot as [HlenN Hpivot]. rewrite HlenN, Hrest, bind_Ok.
    rewrite Hdist, bind_lift_Ok. fold (kernel_weights sigma dist).
    rewrite mul4_Ok.
    2:{ apply Forall2_same_length_Forall; [lia|].
        eapply Forall_impl; [exact Hpivot|]. intros pb [Hpb _] wb Hwb.
        eapply Forall_forall in Hwp; [|exact Hwb]. cbv beta in Hwp. lia. }
    rewrite bind_lift_Ok. done.
  - by apply (weighted_sum_spec N P V pivot _ HP Hpivot Hwn Hwp).
Qed.

(** ** The orchestrator *)

Lemma mapM_M_Ok {A B} (f : A → M B) (g : A → B) (ev : event) (l : list A) :
  Forall (λ x, f x = ([ev], Ok (g x))) l →
  mapM_M f l = (replicate (length l) ev, Ok (map g l)).
Proof.
  induction 1 as [|x l Hx Hl IH]; [done|].
  cbn [mapM_M]. rewrite Hx, bind_Ok, IH, bind_Ok.
  cbn [ret fst snd]. by rewrite app_nil_r.
Qed.

Lemma hf_pivot_field_Ok (N V : nat) hf valid (betas thetas gammas : tensor2) :
  VALID_THETA !! TailorNetHF.cloth_type hf = Some valid →
  input_size (TailorNetHF.mlp hf) = 72%nat →
  output_size (TailorNetHF.mlp hf) = (V * 3)%nat →
  FullyConnected_ok (TailorNetHF.mlp hf) →
  (0 < N)%nat → length thetas = N → is_batch 72 thetas →
  let field := map (chunks 3 V)
                 (map (net (TailorNetHF.mlp hf))
                      (map (λ row, zip_with Rmult row (theta_mask valid)) thetas)) in
  hf_pivot_field N betas thetas gammas hf = ([RunHF], Ok field) ∧
  has_shape3 N V 3 field.
Proof.
  intros Hc Hin Hout Hok HN Hlen Hth field.
  assert (is_batch 72 (map (λ row, zip_with Rmult row (theta_mask valid)) thetas)) as Hm
    by (apply is_batch_map_zip_mask; [apply theta_mask_length|done]).
  assert (is_batch (V * 3)
            (map (net (TailorNetHF.mlp hf))
                 (map (λ row, zip_with Rmult row (theta_mask valid)) thetas))) as Hraw.
  { rewrite <- Hout. apply FullyConnected_out_batch; [done|]. by rewrite Hin. }
  split.
  - unfold hf_pivot_field. rewrite (HF_forward_Ok hf valid) by done.
    rewrite bind_Ok. rewrite (view_bs_3_rows N V) by (by rewrite ?length_map). done.
  - apply view_rows_shape; [by rewrite !length_map|done].
Qed.

Lemma shape3_of (N V C : nat) (t : tensor3) :
  has_shape3 N V C t → (0 < N)%nat →
  shape3 t = (N, V, match V with O => O | S _ => C end).
Proof.
  intros [HN Ht] Hpos. unfold shape3.
  destruct t as [|f t]; simpl in *; [lia|].
  apply Forall_cons in Ht as [[Hf Hfc] _]. rewrite HN, Hf.
  destruct f as [|x f]; simpl in *; [by subst|].
  apply Forall_cons in Hfc as [Hx _]. rewrite Hx. by subst.
Qed.

Lemma stack_Ok (N V C : nat) (ts : list tensor3) :
  ts ≠ [] → (0 < N)%nat → Forall (has_shape3 N V C) ts → stack ts = Ok ts.
Proof.
  intros Hne HN Hts. destruct ts as [|t ts]; [done|].
  apply Forall_cons in Hts as [Ht Hts]. unfold stack.
  rewrite bool_decide_eq_true_2; [done|].
  eapply Forall_impl; [exact Hts|]. intros u Hu.
  by rewrite (shape3_of N V C u), (shape3_of N V C t).
Qed.

Lemma transpose01_length {A} (n : nat) (t : list (list A)) :
  Forall (λ row, length row = n) t → length (transpose01 n t) = n.
Proof.
  induction 1 as [|row t Hrow Ht IH]; simpl; [by rewrite length_replicate|].
  rewrite length_zip_with. lia.
Qed.

Lemma transpose01_columns {A} (n : nat) (t : list (list A)) :
  Forall (λ col, length col = length t) (transpose01 n t).
Proof.
  induction t as [|row t IH]; simpl.
  - apply Forall_forall. intros col Hcol. by apply elem_of_replicate in Hcol as [-> _].
  - apply Forall_forall. intros col Hcol.
    apply elem_of_lookup_zip_with in Hcol as (i & x & c & -> & _ & Hc).
    eapply Forall_lookup_1 in IH; [|exact Hc]. simpl. by rewrite IH.
Qed.

Lemma transpose01_entries {A} (Q : A → Prop) (n : nat) (t : list (list A)) :
  Forall (Forall Q) t → Forall (Forall Q) (transpose01 n t).
Proof.
  induction 1 as [|row t Hrow Ht IH]; simpl.
  - apply Forall_forall. intros col Hcol. by apply elem_of_replicate in Hcol as [-> _].
  - apply Forall_forall. intros col Hcol.
    apply elem_of_lookup_zip_with in Hcol as (i & x & c & -> & Hx & Hc).
    constructor.
    + eapply Forall_lookup_1; [exact Hrow|exact Hx].
    + eapply Forall_lookup_1 in IH; [exact IH|exact Hc].
Qed.

Lemma transpose01_nth {A} (n : nat) (t : list (list A)) (i j : nat) d :
  Forall (λ row, length row = n) t →
  (i < n)%nat → (j < length t)%nat →
  nth j (nth i (transpose01 n t) []) d = nth i (nth j t []) d.
Proof.
  intros Ht Hi. revert j. induction Ht as [|row t Hrow Ht IH]; intros j Hj; simpl in *; [lia|].
  rewrite (nth_zip_with_lt _ _ _ _ _ d [])
    by (rewrite ?transpose01_length by done; lia).
  destruct j as [|j]; simpl; [done|]. apply IH. lia.
Qed.

Lemma transpose01_shape4 (N P V C : nat) (ts : list tensor3) :
  length ts = P → Forall (has_shape3 N V C) ts →
  has_shape4 N P V C (transpose01 N ts).
Proof.
  intros HP Hts.
  assert (Forall (λ row : tensor3, length row = N) ts) as Hrows
    by (eapply Forall_impl; [exact Hts|]; by intros t [? _]).
  split; [by apply transpose01_length|].
  pose proof (transpose01_columns N ts) as Hcols.
  pose proof (transpose01_entries
                (λ s : tensor2, length s = V ∧ Forall (λ x : list R, length x = C) s) N ts) as Hent.
  assert (Forall (Forall (λ s : tensor2,
            length s = V ∧ Forall (λ x : list R, length x = C) s)) ts) as H
    by (eapply Forall_impl; [exact Hts|]; by intros t [_ ?]).
  specialize (Hent H).
  apply Forall_forall. intros col Hcol.
  eapply Forall_forall in Hcols; [|exact Hcol].
  eapply Forall_forall in Hent; [|exact Hcol].
  split; [congruence|done].
Qed.

Lemma add3_Ok (N V C : nat) (a b : tensor3) :
  has_shape3 N V C a → has_shape3 N V C b →
  add3 a b = Ok (zip_with (zip_with (zip_with Rplus)) a b) ∧
  has_shape3 N V C (zip_with (zip_with (zip_with Rplus)) a b) ∧
  ∀ i v c, (i < N)%nat → (v < V)%nat → (c < C)%nat →
    at3 (zip_with (zip_with (zip_with Rplus)) a b) i v c = (at3 a i v c + at3 b i v c)%R.
Proof.
  intros [Ha Hfa] [Hb Hfb]. split; [|split].
  - unfold add3. apply bcast_zip_Ok_id.
    apply Forall2_same_length_Forall; [congruence|].
    eapply Forall_impl; [exact Hfa|]. intros f [Hf Hfc] g Hg. cbv beta in *.
    eapply Forall_forall in Hfb as [Hgl Hgc]; [|exact Hg].
    by apply (field_bcast_Ok Rplus V C).
  - split; [rewrite length_zip_with; lia|].
    apply Forall_forall. intros f Hf.
    apply elem_of_lookup_zip_with in Hf as (i & x & y & -> & Hx & Hy).
    eapply Forall_lookup_1 in Hfa; [|exact Hx].
    eapply Forall_lookup_1 in Hfb; [|exact Hy].
    by apply (is_field_add V C).
  - intros i v c Hi Hv Hc. unfold at3.
    rewrite (nth_zip_with_lt _ _ _ _ _ [] []) by lia.
    apply (at2_add V C); try done.
    + apply (nth_Forall _ _ i [] Hfa). lia.
    + apply (nth_Forall _ _ i [] Hfb). lia.
Qed.

Lemma lf_field_Ok (self : TailorNet) (N P V : nat) (betas thetas gammas : tensor2) :
  TailorNet_wf P V self → valid_batch N betas thetas gammas →
  ∃ lf_raw,
    TailorNetLF.forward (tailornet_lf self) thetas betas gammas = ([RunLF], Ok lf_raw) ∧
    view_bs_3 N lf_raw = Ok (map (chunks 3 V) lf_raw) ∧
    has_shape3 N V 3 (map (chunks 3 V) lf_raw).
Proof.
  intros (_ & _ & _ & _ & ([valid Hc] & Hin & Hout & Hok) & _)
         (HN & [Hth Hthw] & [Hb Hbw] & [Hg Hgw]).
  set (lf := tailornet_lf self) in *.
  eexists. split; [apply (LF_forward_Ok lf valid); (done || congruence)|].
  set (x := zip_with app _ _).
  assert (is_batch (input_size (TailorNetLF.mlp lf)) x) as Hx.
  { rewrite Hin. apply is_batch_zip_app; [apply is_batch_zip_app|].
    - apply is_batch_map_zip_mask; [apply theta_mask_length|done].
    - by apply masked_betas_batch.
    - by apply masked_gammas_batch. }
  assert (length (map (net (TailorNetLF.mlp lf)) x) = N) as Hlen.
  { unfold x. rewrite length_map, !length_zip_with, length_map,
      masked_betas_length, masked_gammas_length. lia. }
  assert (is_batch (V * 3) (map (net (TailorNetLF.mlp lf)) x)) as Hraw.
  { rewrite <- Hout. by apply FullyConnected_out_batch. }
  split; [by apply view_bs_3_rows|by apply view_rows_shape].
Qed.

Lemma hf_fields_Ok (self : TailorNet) (N P V : nat) (betas thetas gammas : tensor2) :
  TailorNet_wf P V self →
  (0 < N)%nat → length thetas = N → is_batch 72 thetas →
  ∃ hf_fields,
    mapM_M (hf_pivot_field N betas thetas gammas) (tailornet_hfs self)
      = (replicate P RunHF, Ok hf_fields) ∧
    length hf_fields = P ∧
    Forall (has_shape3 N V 3) hf_fields.
Proof.
  intros (HP & _ & HlenP & Hhfs & _) HN Hth Hthw.
  set (g := λ hf : TailorNetHF.t,
         map (chunks 3 V)
           (map (net (TailorNetHF.mlp hf))
              (map (λ row, zip_with Rmult row
                             (theta_mask (default [] (VALID_THETA !! TailorNetHF.cloth_type hf))))
                   thetas))).
  exists (map g (tailornet_hfs self)).
  assert (Forall (λ hf, hf_pivot_field N betas thetas gammas hf = ([RunHF], Ok (g hf)) ∧
                        has_shape3 N V 3 (g hf)) (tailornet_hfs self)) as H.
  { eapply Forall_impl; [exact Hhfs|].
    intros hf ([valid Hc] & Hin & Hout & Hok). unfold g. rewrite Hc. cbn [default].
    by apply hf_pivot_field_Ok. }
  split; [|split].
  - rewrite <- HlenP. apply mapM_M_Ok.
    eapply Forall_impl; [exact H|]. by intros hf [? _].
  - by rewrite length_map.
  - apply Forall_map. eapply Forall_impl; [exact H|]. by intros hf [_ ?].
Qed.

Lemma valid_batch_shape_style (N : nat) (betas thetas gammas : tensor2) :
  valid_batch N betas thetas gammas →
  (0 < N)%nat ∧ length betas = N ∧ length gammas = N ∧
  is_batch 10 betas ∧ is_batch 4 gammas.
Proof. intros (HN & _ & [? ?] & [? ?]). done. Qed.

(** C1: the kernel blending stage on a batch of [P] pivot fields.  The
    distance [dist[b,p]] is the mean over the vertices of the squared
    Euclidean distance between the rest-vertex field of the shape-style
    network and the basis of pivot [p], times 1000; the unnormalized weight is
    [exp (- dist[b,p] / sigma)]; the result is the sum over the pivots of the
    pivot fields weighted by the normalized weights, the same weight for
    every vertex and coordinate. *)
Theorem interp4_kernel_blend (self : TailorNet) (N P V : nat)
    (thetas betas gammas : tensor2) (pivot : tensor4) (sigma : R) :
  TailorNet_wf P V self →
  (0 < N)%nat → length betas = N → length gammas = N →
  is_batch 10 betas → is_batch 4 gammas →
  has_shape4 N P V 3 pivot →
  ∃ rest_verts dist out,
    ss2g_rest_verts self N betas gammas = ([RunSS2G], Ok rest_verts) ∧
    has_shape3 N V 3 rest_verts ∧
    pivot_dist rest_verts (basis self) = Ok dist ∧
    (∀ b p, (b < N)%nat → (p < P)%nat →
       at2 dist b p = dist_spec rest_verts (basis self) V b p ∧
       at2 (rbf_weight sigma dist) b p = weight_spec sigma rest_verts (basis self) V b p) ∧
    interp4 self thetas betas gammas pivot sigma = ([RunSS2G], Ok out) ∧
    has_shape3 N V 3 out ∧
    ∀ b v c, (b < N)%nat → (v < V)%nat → (c < 3)%nat →
      at3 out b v c = blend_spec sigma rest_verts (basis self) pivot P V b v c.
Proof.
  intros Hwf HN Hb Hg Hbw Hgw Hpivot.
  destruct (interp4_exec self N P V thetas betas gammas pivot sigma
              Hwf HN Hb Hg Hbw Hgw Hpivot)
    as (rest_verts & Hrest & Hshape & Hinterp & Hout).
  destruct Hwf as (HP & Hbasis & _).
  pose proof (pivot_dist_Ok N P V rest_verts (basis self) Hshape Hbasis) as Hdist.
  destruct (pivot_dist_batch rest_verts (basis self)) as [Hdn Hdp].
  rewrite (has_shape3_batch _ _ _ _ Hshape) in Hdn.
  rewrite (has_shape3_batch _ _ _ _ Hbasis) in Hdp.
  unfold blend in Hinterp, Hout.
  set (dist := map (λ r, map (λ bp, sample_dist r bp) (basis self)) rest_verts) in *.
  assert (∀ b p, (b < N)%nat → (p < P)%nat →
            at2 dist b p = dist_spec rest_verts (basis self) V b p) as Hat.
  { intros b p Hlb Hlp. unfold dist, at2, at1.
    rewrite (nth_map_lt _ _ _ []) by (destruct Hshape; lia).
    rewrite (nth_map_lt _ _ _ []) by (destruct Hbasis; lia).
    by apply (sample_dist_spec N P V). }
  assert (∀ b p, (b < N)%nat → (p < P)%nat →
            at2 (rbf_weight sigma dist) b p =
              weight_spec sigma rest_verts (basis self) V b p) as Hwat.
  { intros b p Hlb Hlp. unfold rbf_weight.
    rewrite (at2_map_map _ _ _ _ P) by (done || lia).
    unfold weight_spec. by rewrite Hat. }
  assert (length (kernel_weights sigma dist) = N) as Hwn.
  { unfold kernel_weights, normalize_weight, rbf_weight. by rewrite !length_map. }
  assert (is_batch P (kernel_weights sigma dist)) as Hwp
    by (by apply normalize_weight_batch, rbf_weight_batch).
  destruct (weighted_sum_spec N P V pivot _ HP Hpivot Hwn Hwp) as [_ Hblend].
  eexists rest_verts, dist, _.
  split; [done|]. split; [done|]. split; [done|].
  split; [by intros; split; auto|].
  split; [exact Hinterp|]. split; [exact Hout|].
  intros b v c Hlb Hlv Hlc. rewrite Hblend by done.
  unfold blend_spec. apply big_sum_ext. intros p Hlp.
  rewrite (kernel_weights_at _ _ P) by (done || lia).
  rewrite <- (Hwat b p) by done.
  unfold rbf_weight at 1. rewrite (at2_map_map _ _ _ _ P) by (done || lia).
  rewrite Rmult_comm. f_equal. f_equal.
  apply big_sum_ext. intros q Hlq. rewrite <- (Hwat b q) by done.
  unfold rbf_weight. by rewrite (at2_map_map _ _ _ _ P) by (done || lia).
Qed.

Lemma forward_exec (self : TailorNet) (N P V : nat)
    (betas thetas gammas : tensor2) :
  TailorNet_wf P V self → valid_batch N betas thetas gammas →
  ∃ hf_fields blended lf_raw lf,
    mapM_M (hf_pivot_field N betas thetas gammas) (tailornet_hfs self)
      = (replicate P RunHF, Ok hf_fields) ∧
    length hf_fields = P ∧
    interp4 self thetas betas gammas (transpose01 N hf_fields) (kernel_sigma self)
      = ([RunSS2G], Ok blended) ∧
    has_shape3 N V 3 blended ∧
    TailorNetLF.forward (tailornet_lf self) thetas betas gammas = ([RunLF], Ok lf_raw) ∧
    view_bs_3 N lf_raw = Ok lf ∧
    has_shape3 N V 3 lf ∧
    forward self betas thetas gammas
      = (replicate P RunHF ++ [RunSS2G; RunLF],
         Ok (zip_with (zip_with (zip_with Rplus)) lf blended)).
Proof.
  intros Hwf Hvalid.
  destruct (valid_batch_shape_style _ _ _ _ Hvalid) as (HN & Hb & Hg & Hbw & Hgw).
  pose proof Hvalid as (_ & [Hth Hthw] & _).
  destruct (hf_fields_Ok self N P V betas thetas gammas Hwf HN Hth Hthw)
    as (hf_fields & Hhf & HlenP & Hshapes).
  pose proof (transpose01_shape4 N P V 3 hf_fields HlenP Hshapes) as Hpivot.
  destruct (interp4_exec self N P V thetas betas gammas (transpose01 N hf_fields)
              (kernel_sigma self) Hwf HN Hb Hg Hbw Hgw Hpivot)
    as (rest_verts & _ & _ & Hinterp & Hblended).
  destruct (lf_field_Ok self N P V betas thetas gammas Hwf Hvalid)
    as (lf_raw & Hlf & Hview & Hlfshape).
  destruct (add3_Ok N V 3 _ _ Hlfshape Hblended) as (Hadd & _ & _).
  eexists hf_fields, _, lf_raw, _.
  split; [done|]. split; [done|]. split; [exact Hinterp|]. split; [done|].
  split; [done|]. split; [exact Hview|]. split; [done|].
  unfold forward.
  rewrite Hth, Hhf, bind_Ok.
  rewrite (stack_Ok N V 3) by
    (try done; intros Hnil; rewrite Hnil in HlenP; destruct Hwf as [? _]; simpl in *; lia).
  rewrite bind_lift_Ok, Hinterp, bind_Ok, Hlf, bind_Ok, Hview, bind_lift_Ok, Hadd.
  cbn [lift fst snd]. by rewrite app_nil_r.
Qed.

(** C2: for a valid batch the orchestrator returns the entry-wise sum of the
    field of the low-frequency network and of the kernel blend of the stacked
    fields of all [P] pivot networks, of shape (batch, V, 3); the pivot
    networks run first, then the shape-style network, then the low-frequency
    one. *)
Theorem forward_lf_plus_blended_hf (self : TailorNet) (N P V : nat)
    (betas thetas gammas : tensor2) :
  TailorNet_wf P V self → valid_batch N betas thetas gammas →
  ∃ hf_fields blended lf_raw lf out,
    mapM_M (hf_pivot_field N betas thetas gammas) (tailornet_hfs self)
      = (replicate P RunHF, Ok hf_fields) ∧
    length hf_fields = P ∧
    interp4 self thetas betas gammas (transpose01 N hf_fields) (kernel_sigma self)
      = ([RunSS2G], Ok blended) ∧
    TailorNetLF.forward (tailornet_lf self) thetas betas gammas = ([RunLF], Ok lf_raw) ∧
    view_bs_3 N lf_raw = Ok lf ∧
    forward self betas thetas gammas
      = ((replicate P RunHF ++ [RunSS2G; RunLF])%list, Ok out) ∧
    has_shape3 N V 3 out ∧
    ∀ b v c, (b < N)%nat → (v < V)%nat → (c < 3)%nat →
      at3 out b v c = (at3 lf b v c + at3 blended b v c)%R.
Proof.
  intros Hwf Hvalid.
  destruct (forward_exec self N P V betas thetas gammas Hwf Hvalid)
    as (hf_fields & blended & lf_raw & lf & Hhf & HlenP & Hinterp & Hblended
        & Hlf & Hview & Hlfshape & Hforward).
  destruct (add3_Ok N V 3 lf blended Hlfshape Hblended) as (_ & Hout & Hat).
  exists hf_fields, blended, lf_raw, lf,
         (zip_with (zip_with (zip_with Rplus)) lf blended).
  repeat (split; [done|]). exact Hat.
Qed.

(** ** The high-frequency network *)

(** C9: the output (and the trace) of a high-frequency network is the same
    for any two pairs of beta and gamma, present or absent, and for any two
    poses with the same masked pose: it depends on the masked theta only. *)
Theorem hf_forward_depends_on_masked_theta (hf : TailorNetHF.t)
    (thetas1 thetas2 : tensor2) (betas1 gammas1 betas2 gammas2 : option tensor2) :
  mask_thetas thetas1 (TailorNetHF.cloth_type hf)
    = mask_thetas thetas2 (TailorNetHF.cloth_type hf) →
  TailorNetHF.forward hf thetas1 betas1 gammas1
    = TailorNetHF.forward hf thetas2 betas2 gammas2.
Proof. intros H. unfold TailorNetHF.forward. by rewrite H. Qed.

(** C9, an instance: a skirt network, two poses that differ in a masked joint
    only, with and without shape and style. *)
Lemma hf_forward_depends_on_masked_theta_witness :
  mask_thetas [replicate 9 1 ++ replicate 63 2]%R "skirt"
    = mask_thetas [replicate 9 1 ++ replicate 63 5]%R "skirt" ∧
  TailorNetHF.forward (TailorNetHF.init "skirt" 3 (λ row, take 3 row))
    [replicate 9 1 ++ replicate 63 2]%R None None
  = TailorNetHF.forward (TailorNetHF.init "skirt" 3 (λ row, take 3 row))
    [replicate 9 1 ++ replicate 63 5]%R (Some demo_betas) (Some demo_gammas).
Proof.
  assert (mask_thetas [replicate 9 1 ++ replicate 63 2]%R "skirt"
          = mask_thetas [replicate 9 1 ++ replicate 63 5]%R "skirt") as H.
  { rewrite !(mask_thetas_Ok _ "skirt" [0; 1; 2]%nat);
      [|by vm_compute|repeat constructor|by vm_compute|repeat constructor].
    cbn. do 2 f_equal. list_R_eq. }
  split; [exact H|].
  apply (hf_forward_depends_on_masked_theta
           (TailorNetHF.init "skirt" 3 (λ row, take 3 row))). exact H.
Defined.

(** ** The kernel weights *)

Lemma sumR_div (s : R) (l : list R) :
  sumR (map (λ w, (w / s)%R) l) = (sumR l / s)%R.
Proof.
  induction l as [|x l IH]; simpl.
  - unfold Rdiv. by rewrite Rmult_0_l.
  - rewrite IH. unfold Rdiv. by rewrite Rmult_plus_distr_r.
Qed.

Lemma sumR_exp_pos (sigma : R) (dist_row : list R) :
  dist_row ≠ [] → (0 < sumR (map (λ d, exp (- d / sigma)) dist_row))%R.
Proof.
  intros Hne. destruct dist_row as [|d row]; [done|]. clear Hne.
  revert d. induction row as [|d' row IH]; intros d; simpl in *.
  - pose proof (exp_pos (- d / sigma)). lra.
  - pose proof (exp_pos (- d / sigma)). specialize (IH d'). lra.
Qed.

Lemma kernel_weights_lookup (sigma : R) (dist : tensor2) (b : nat) (dist_row : list R) :
  dist !! b = Some dist_row →
  kernel_weights sigma dist !! b =
    Some (map (λ w, (w / sumR (map (λ d, exp (- d / sigma)) dist_row))%R)
              (map (λ d, exp (- d / sigma)) dist_row)).
Proof.
  intros H. unfold kernel_weights, normalize_weight, rbf_weight.
  by rewrite !list_lookup_fmap, H.
Qed.

(** C3 (weight normalization): for every batch element whose normalization
    denominator is not zero, the normalized kernel weights of its pivots sum
    to 1. *)
Theorem kernel_weights_sum_to_one (sigma : R) (dist : tensor2) (b : nat)
    (dist_row : list R) :
  dist !! b = Some dist_row →
  sumR (map (λ d, exp (- d / sigma)) dist_row) ≠ 0%R →
  ∃ weight_row,
    kernel_weights sigma dist !! b = Some weight_row ∧
    length weight_row = length dist_row ∧
    sumR weight_row = 1%R.
Proof.
  intros Hb Hden. eexists. split; [by apply kernel_weights_lookup|].
  split; [by rewrite !length_map|].
  rewrite sumR_div. by apply Rdiv_diag.
Qed.

(** C3, an instance: two pivots, one at distance 0 and one far away. *)
Lemma kernel_weights_sum_to_one_witness :
  ∃ weight_row,
    kernel_weights (1 / 100) [[0; 1000]%R] !! 0%nat = Some weight_row ∧
    length weight_row = 2%nat ∧
    sumR weight_row = 1%R.
Proof.
  apply (kernel_weights_sum_to_one (1 / 100) [[0; 1000]%R] 0 [0; 1000]%R).
  - reflexivity.
  - apply Rgt_not_eq, Rlt_gt, sumR_exp_pos. discriminate.
Defined.

Lemma exp_neg_lt_inv (x : R) : (0 < x)%R → (exp (- x) < / x)%R.
Proof.
  intros Hx. rewrite exp_Ropp.
  apply Rinv_lt_contravar.
  - pose proof (exp_pos x). nra.
  - pose proof (exp_ineq1 x ltac:(lra)). lra.
Qed.

Lemma pow2_le_exp (n : nat) : (2 ^ n <= exp (INR n))%R.
Proof.
  induction n as [|n IH].
  - simpl. rewrite exp_0. lra.
  - rewrite S_INR, exp_plus. simpl.
    pose proof (exp_ineq1 1 ltac:(lra)). pose proof (exp_pos (INR n)).
    assert (0 < 2 ^ n)%R by (apply pow_lt; lra). nra.
Qed.

Lemma two_weights_uniform_eq (sigma d0 d1 : R) :
  kernel_weights sigma [[d0; d1]] = [uniform_weights 2] →
  exp (- d0 / sigma) = exp (- d1 / sigma).
Proof.
  unfold kernel_weights, normalize_weight, rbf_weight, uniform_weights. cbn.
  intros [= H0 H1].
  pose proof (exp_pos (- d0 / sigma)) as Hp0.
  pose proof (exp_pos (- d1 / sigma)) as Hp1.
  set (w0 := exp (- d0 / sigma)) in *. set (w1 := exp (- d1 / sigma)) in *.
  assert (w0 / (w0 + (w1 + 0)) = w1 / (w0 + (w1 + 0)))%R as H by congruence.
  unfold Rdiv in H. apply Rmult_eq_reg_r in H; [done|].
  apply Rinv_neq_0_compat. lra.
Qed.

(** C4, counterexample: two pivots at distances 0.4 and 0.5 with the default
    bandwidth 0.01.  The unnormalized weights are [exp (-40)] and
    [exp (-50)]; their sum, the normalization denominator, is below 10^-8,
    and yet the weights are not the uniform ones: nothing detects the tiny
    denominator. *)
Lemma kernel_weights_tiny_denominator_not_uniform :
  (sumR (map (λ d, exp (- d / (1 / 100))) [2 / 5; 1 / 2]) < 1 / 10 ^ 8)%R ∧
  kernel_weights (1 / 100) [[2 / 5; 1 / 2]%R] ≠ [uniform_weights 2].
Proof.
  split.
  - cbn [map sumR foldr].
    replace (- (2 / 5) / (1 / 100))%R with (Ropp 40) by field.
    replace (- (1 / 2) / (1 / 100))%R with (Ropp 50) by field.
    assert (exp (Ropp 40) <= (/ 2) ^ 40)%R as H0.
    { rewrite exp_Ropp, pow_inv.
      apply Rinv_le_contravar; [apply pow_lt; lra|].
      replace 40%R with (INR 40) by (rewrite INR_IZR_INZ; reflexivity).
      apply pow2_le_exp. }
    assert (exp (Ropp 50) < exp (Ropp 40))%R as H1 by (apply exp_increasing; lra).
    assert ((/ 2) ^ 40 < 1 / 10 ^ 8 / 2)%R as H2.
    { rewrite pow_inv. apply Rmult_lt_reg_r with (2 ^ 40)%R; [apply pow_lt; lra|].
      rewrite Rinv_l by (apply pow_nonzero; lra). simpl. lra. }
    lra.
  - intros H. apply two_weights_uniform_eq, exp_inv in H. lra.
Qed.

(** C4, as the code has it: there is no guard.  The weights of a batch
    element are always [exp (- dist / sigma)] divided by their plain sum,
    however small that sum is, and no floor [eps] on the sum makes the
    weights fall back to the uniform ones. *)
Theorem kernel_weights_unguarded (sigma eps : R) :
  (0 < sigma)%R → (0 < eps)%R →
  (∀ (dist : tensor2) (b : nat) (dist_row : list R),
     dist !! b = Some dist_row →
     kernel_weights sigma dist !! b =
       Some (map (λ w, (w / sumR (map (λ d, exp (- d / sigma)) dist_row))%R)
                 (map (λ d, exp (- d / sigma)) dist_row))) ∧
  ¬ degenerate_guard sigma eps.
Proof.
  intros Hsigma Heps. split.
  - intros dist b dist_row Hb. by apply kernel_weights_lookup.
  - intros Hguard.
    set (x := (2 / eps)%R).
    assert (0 < x)%R as Hx by (apply Rdiv_lt_0_compat; lra).
    specialize (Hguard [sigma * x; sigma * (x + 1)]%R ltac:(discriminate)).
    assert (- (sigma * x) / sigma = - x)%R as E0 by (field; lra).
    assert (- (sigma * (x + 1)) / sigma = - (x + 1))%R as E1 by (field; lra).
    cbn [map sumR foldr length] in Hguard. rewrite E0, E1 in Hguard.
    assert (exp (- (x + 1)) < exp (- x))%R as Hlt by (apply exp_increasing; lra).
    assert (exp (- x) < eps / 2)%R as Hsmall.
    { apply Rlt_le_trans with (/ x)%R; [by apply exp_neg_lt_inv|].
      unfold x. right. field. lra. }
    assert (exp (- x) + (exp (- (x + 1)) + 0) < eps)%R as Hsum by lra.
    specialize (Hguard Hsum).
    apply two_weights_uniform_eq in Hguard. rewrite E0, E1 in Hguard. lra.
Qed.

(** C4, an instance of the statement above: the default bandwidth and a
    floor of 10^-8. *)
Lemma kernel_weights_unguarded_witness :
  (∀ (dist : tensor2) (b : nat) (dist_row : list R),
     dist !! b = Some dist_row →
     kernel_weights (1 / 100) dist !! b =
       Some (map (λ w, (w / sumR (map (λ d, exp (- d / (1 / 100))) dist_row))%R)
                 (map (λ d, exp (- d / (1 / 100))) dist_row))) ∧
  ¬ degenerate_guard (1 / 100) (1 / 10 ^ 8).
Proof.
  apply (kernel_weights_unguarded (1 / 100) (1 / 10 ^ 8)).
  - lra.
  - apply Rdiv_lt_0_compat; [lra|]. apply pow_lt. lra.
Defined.

(** ** Batches whose sizes disagree *)

Lemma LF_forward_mismatch lf (thetas betas gammas : tensor2) :
  length betas ≠ length thetas ∨ length gammas ≠ length thetas →
  ∃ e, TailorNetLF.forward lf thetas betas gammas = ([], Err e).
Proof.
  intros Hne. unfold TailorNetLF.forward, mask_inputs. cbn [on_present].
  destruct (mask_thetas thetas (TailorNetLF.cloth_type lf)) as [out|e] eqn:Hm;
    cbn [rbind]; [|by eexists].
  destruct (mask_betas betas (TailorNetLF.cloth_type lf)) as [b'|e] eqn:Hmb;
    cbn [rbind]; [|by eexists].
  destruct (mask_gammas gammas (TailorNetLF.cloth_type lf)) as [g'|e] eqn:Hmg;
    cbn [rbind]; [|by eexists].
  rewrite bind_lift_Ok. apply mask_thetas_length in Hm.
  apply mask_betas_out in Hmb as [-> _]. apply mask_gammas_out in Hmg as [-> _].
  rewrite cat_dim1_mismatch; [by eexists|].
  intros H. apply Forall_cons in H as [Hb H]. apply Forall_cons in H as [Hg _].
  rewrite masked_betas_length in Hb. rewrite masked_gammas_length in Hg.
  destruct Hne; congruence.
Qed.

Lemma SS2G_forward_mismatch ss thetas (betas gammas : tensor2) :
  is_batch 10 betas → is_batch 4 gammas →
  length betas ≠ length gammas →
  TailorNetSS2G.forward ss thetas (Some betas) (Some gammas) = ([], Err CatSizeMismatch).
Proof.
  intros Hbw Hgw Hne. unfold TailorNetSS2G.forward, mask_inputs.
  cbn [on_present rbind].
  rewrite (mask_betas_Ok 10), mask_gammas_Ok by (done || lia). cbn [rbind].
  rewrite bind_lift_Ok. rewrite cat_dim1_mismatch; [done|].
  intros H. apply Forall_cons in H as [Hg _].
  rewrite masked_betas_length, masked_gammas_length in Hg. congruence.
Qed.

Lemma is_Err_bind {A B} (m : M A) (f : A → M B) :
  (∀ a, is_Err (outcome (f a))) → is_Err (outcome (bind m f)).
Proof.
  intros Hf. destruct m as [tr [a|e]]; [|by exists e].
  rewrite bind_Ok. apply Hf.
Qed.

Lemma is_Err_bind_l {A B} (m : M A) (f : A → M B) :
  is_Err (outcome m) → is_Err (outcome (bind m f)).
Proof. destruct m as [tr [a|e]]; intros [e' H]; [done|by exists e]. Qed.

(** Without any assumption on the predictor: a batch whose sizes disagree is
    never answered. *)
Lemma forward_mismatch_fails (self : TailorNet) (betas thetas gammas : tensor2) :
  length betas ≠ length thetas ∨ length gammas ≠ length thetas →
  is_Err (outcome (forward self betas thetas gammas)).
Proof.
  intros Hne. unfold forward.
  do 3 (apply is_Err_bind; intros ?). apply is_Err_bind_l.
  destruct (LF_forward_mismatch (tailornet_lf self) thetas betas gammas Hne) as [e ->].
  by exists e.
Qed.

(** With the pivot networks in order, they all run before anything fails. *)
Lemma forward_hf_phase (self : TailorNet) (N P V : nat) (betas thetas gammas : tensor2) :
  TailorNet_wf P V self →
  (0 < N)%nat → length thetas = N → is_batch 72 thetas →
  ∃ hf_fields,
    forward self betas thetas gammas =
      bind (replicate P RunHF, Ok hf_fields) (λ _,
        bind (interp4 self thetas betas gammas (transpose01 N hf_fields) (kernel_sigma self))
          (λ pred_disp_hf,
             bind (TailorNetLF.forward (tailornet_lf self) thetas betas gammas) (λ lf,
               bind (lift (view_bs_3 N lf)) (λ pred_disp_lf,
                 lift (add3 pred_disp_lf pred_disp_hf))))).
Proof.
  intros Hwf HN Hth Hthw.
  destruct (hf_fields_Ok self N P V betas thetas gammas Hwf HN Hth Hthw)
    as (hf_fields & Hhf & HlenP & Hshapes).
  exists hf_fields. unfold forward. rewrite Hth, Hhf, !bind_Ok.
  rewrite (stack_Ok N V 3) by
    (try done; intros Hnil; rewrite Hnil in HlenP; destruct Hwf as [? _]; simpl in *; lia).
  by rewrite bind_lift_Ok.
Qed.

Lemma forward_mismatch_after_hf (self : TailorNet) (N P V : nat)
    (betas thetas gammas : tensor2) :
  TailorNet_wf P V self →
  (0 < N)%nat → length thetas = N → is_batch 72 thetas →
  length betas ≠ N ∨ length gammas ≠ N →
  ∃ tr e, forward self betas thetas gammas = (replicate P RunHF ++ tr, Err e).
Proof.
  intros Hwf HN Hth Hthw Hne.
  destruct (forward_hf_phase self N P V betas thetas gammas Hwf HN Hth Hthw)
    as (hf_fields & ->).
  rewrite bind_Ok.
  destruct (interp4 _ _ _ _ _ _) as [tr [blended|e]].
  - rewrite bind_Ok.
    destruct (LF_forward_mismatch (tailornet_lf self) thetas betas gammas
                ltac:(rewrite Hth; exact Hne)) as [e ->].
    rewrite bind_Err. by exists (tr ++ []), e.
  - rewrite bind_Err. by exists tr, e.
Qed.

Lemma forward_shape_style_mismatch (self : TailorNet) (N P V : nat)
    (betas thetas gammas : tensor2) :
  TailorNet_wf P V self →
  (0 < N)%nat → length thetas = N → is_batch 72 thetas →
  is_batch 10 betas → is_batch 4 gammas →
  length betas ≠ length gammas →
  forward self betas thetas gammas = (replicate P RunHF, Err CatSizeMismatch).
Proof.
  intros Hwf HN Hth Hthw Hbw Hgw Hne.
  destruct (forward_hf_phase self N P V betas thetas gammas Hwf HN Hth Hthw)
    as (hf_fields & ->).
  rewrite bind_Ok. unfold interp4, ss2g_rest_verts.
  rewrite SS2G_forward_mismatch by done. rewrite !bind_Err.
  cbn [fst snd]. by rewrite app_nil_r.
Qed.

Lemma Linear_forward_length (l : Linear) (x : list R) :
  length (weight l) = length (bias l) →
  length (Linear_forward l x) = length (bias l).
Proof. intros H. unfold Linear_forward. rewrite length_zip_with, length_map. lia. Qed.

Lemma layers_net_length first hidden last (x : list R) :
  length (weight last) = length (bias last) →
  length (layers_net first hidden last x) = length (bias last).
Proof. intros H. unfold layers_net. by apply Linear_forward_length. Qed.

Lemma constant_net_ok (n_in n_out : nat) (out : list R) :
  length out = n_out →
  FullyConnected_ok {| input_size := n_in; output_size := n_out;
                       net := constant_net n_in out |}.
Proof.
  intros H row _. cbn [net output_size]. unfold constant_net.
  rewrite layers_net_length; cbn [zero_layer weight bias]; [done|].
  by rewrite length_replicate.
Qed.

Lemma demo_net_wf : TailorNet_wf 2 1 demo_net.
Proof.
  assert (is_Some (VALID_THETA !! "t-shirt")) as Hc by (by vm_compute; eexists).
  unfold TailorNet_wf, demo_net, has_shape3. cbn.
  repeat split; try done; try lia; repeat constructor; try done;
    by apply constant_net_ok.
Qed.

(** C5, counterexample: one pose and one shape vector with two style vectors.
    The call fails, but only in the concatenation of the shape-style network,
    after both pivot networks have run. *)
Lemma forward_mismatch_raised_after_hf :
  length demo_gammas2 ≠ length demo_thetas ∧
  forward demo_net demo_betas demo_thetas demo_gammas2
    = ([RunHF; RunHF], Err CatSizeMismatch).
Proof.
  split; [by cbn|].
  apply (forward_shape_style_mismatch demo_net 1 2 1).
  - apply demo_net_wf.
  - lia.
  - reflexivity.
  - repeat constructor.
  - repeat constructor.
  - repeat constructor.
  - by cbn.
Qed.

(** C5, as the code has it: there is no check of the batch sizes ahead of the
    networks.  For a batch of [N > 0] poses of width 72: when the batch size
    of beta or of gamma is not [N] the call fails, but after all [P] pivot
    networks have run on theta; when beta and gamma have the documented
    widths and batch sizes that differ from each other, the failure is the
    size mismatch of the concatenation in the shape-style network; with the
    documented widths and all three batch sizes equal the call does not
    fail. *)
Theorem forward_batch_sizes (self : TailorNet) (N P V : nat)
    (betas thetas gammas : tensor2) :
  TailorNet_wf P V self →
  (0 < N)%nat → length thetas = N → is_batch 72 thetas →
  (length betas ≠ N ∨ length gammas ≠ N →
     ∃ tr e, forward self betas thetas gammas = (replicate P RunHF ++ tr, Err e)) ∧
  (is_batch 10 betas → is_batch 4 gammas → length betas ≠ length gammas →
     forward self betas thetas gammas = (replicate P RunHF, Err CatSizeMismatch)) ∧
  (is_batch 10 betas → is_batch 4 gammas → length betas = N → length gammas = N →
     ∃ out, forward self betas thetas gammas
              = (replicate P RunHF ++ [RunSS2G; RunLF], Ok out)).
Proof.
  intros Hwf HN Hth Hthw. split; [|split].
  - by apply (forward_mismatch_after_hf self N P V).
  - by apply (forward_shape_style_mismatch self N P V).
  - intros Hbw Hgw Hb Hg.
    destruct (forward_exec self N P V betas thetas gammas Hwf ltac:(by repeat split))
      as (_ & blended & _ & lf & _ & _ & _ & _ & _ & _ & _ & Hforward).
    by eexists.
Qed.

(** C5, an instance of the statement above: the small predictor on a batch
    of one pose, with two style vectors and with one. *)
Lemma forward_batch_sizes_witness :
  (∃ tr e, forward demo_net demo_betas demo_thetas demo_gammas2
             = (replicate 2 RunHF ++ tr, Err e)) ∧
  forward demo_net demo_betas demo_thetas demo_gammas2
    = (replicate 2 RunHF, Err CatSizeMismatch) ∧
  (∃ out, forward demo_net demo_betas demo_thetas demo_gammas
            = (replicate 2 RunHF ++ [RunSS2G; RunLF], Ok out)).
Proof.
  split; [|split].
  - apply (forward_batch_sizes demo_net 1 2 1 demo_betas demo_thetas demo_gammas2);
      [apply demo_net_wf|lia|reflexivity|repeat constructor|by right].
  - apply (forward_batch_sizes demo_net 1 2 1 demo_betas demo_thetas demo_gammas2);
      [apply demo_net_wf|lia|reflexivity|repeat constructor
      |repeat constructor|repeat constructor|by cbn].
  - apply (forward_batch_sizes demo_net 1 2 1 demo_betas demo_thetas demo_gammas);
      [apply demo_net_wf|lia|reflexivity|repeat constructor
      |repeat constructor|repeat constructor|reflexivity|reflexivity].
Defined.

(** C2, an instance: the small predictor on a batch of one. *)
Lemma forward_lf_plus_blended_hf_witness :
  ∃ hf_fields blended lf_raw lf out,
    mapM_M (hf_pivot_field 1 demo_betas demo_thetas demo_gammas) (tailornet_hfs demo_net)
      = (replicate 2 RunHF, Ok hf_fields) ∧
    length hf_fields = 2%nat ∧
    interp4 demo_net demo_thetas demo_betas demo_gammas (transpose01 1 hf_fields)
            (kernel_sigma demo_net)
      = ([RunSS2G], Ok blended) ∧
    TailorNetLF.forward (tailornet_lf demo_net) demo_thetas demo_betas demo_gammas
      = ([RunLF], Ok lf_raw) ∧
    view_bs_3 1 lf_raw = Ok lf ∧
    forward demo_net demo_betas demo_thetas demo_gammas
      = (replicate 2 RunHF ++ [RunSS2G; RunLF], Ok out) ∧
    has_shape3 1 1 3 out ∧
    ∀ b v c, (b < 1)%nat → (v < 1)%nat → (c < 3)%nat →
      at3 out b v c = (at3 lf b v c + at3 blended b v c)%R.
Proof.
  apply (forward_lf_plus_blended_hf demo_net 1 2 1 demo_betas demo_thetas demo_gammas).
  - apply demo_net_wf.
  - unfold valid_batch, demo_betas, demo_thetas, demo_gammas.
    repeat split; try lia; repeat constructor.
Defined.

(** C1, an instance: the small predictor blending the fields (1, 0, 0) and
    (0, 1, 0) of its two pivots. *)
Lemma interp4_kernel_blend_witness :
  ∃ rest_verts dist out,
    ss2g_rest_verts demo_net 1 demo_betas demo_gammas = ([RunSS2G], Ok rest_verts) ∧
    has_shape3 1 1 3 rest_verts ∧
    pivot_dist rest_verts (basis demo_net) = Ok dist ∧
    (∀ b p, (b < 1)%nat → (p < 2)%nat →
       at2 dist b p = dist_spec rest_verts (basis demo_net) 1 b p ∧
       at2 (rbf_weight (1 / 100) dist) b p
         = weight_spec (1 / 100) rest_verts (basis demo_net) 1 b p) ∧
    interp4 demo_net demo_thetas demo_betas demo_gammas
            [[ [[1; 0; 0]]; [[0; 1; 0]] ]]%R (1 / 100)
      = ([RunSS2G], Ok out) ∧
    has_shape3 1 1 3 out ∧
    ∀ b v c, (b < 1)%nat → (v < 1)%nat → (c < 3)%nat →
      at3 out b v c
        = blend_spec (1 / 100) rest_verts (basis demo_net)
            [[ [[1; 0; 0]]; [[0; 1; 0]] ]]%R 2 1 b v c.
Proof.
  apply (interp4_kernel_blend demo_net 1 2 1 demo_thetas demo_betas demo_gammas).
  - apply demo_net_wf.
  - lia.
  - reflexivity.
  - reflexivity.
  - repeat constructor.
  - repeat constructor.
  - unfold has_shape4, has_shape3. repeat split; repeat constructor.
Defined.

(** ** The model on concrete inputs *)

Example theta_mask_skirt_head :
  take 12 (theta_mask [0; 1; 2]%nat) = [1; 1; 1; 1; 1; 1; 1; 1; 1; 0; 0; 0]%R.
Proof. reflexivity. Qed.

Example mask_gammas_old_t_shirt :
  mask_gammas [[7; 8; 9; 10]%R] "old-t-shirt" = Ok [[7; 8; 1.5; 0]%R].
Proof. rewrite mask_gammas_Ok by repeat constructor. f_equal. cbn. rows_R_eq. Qed.

Example mask_gammas_shirt :
  mask_gammas [[7; 8; 9; 10]%R] "shirt" = Ok [[7; 8; 0; 0]%R].
Proof. rewrite mask_gammas_Ok by repeat constructor. f_equal. cbn. rows_R_eq. Qed.

Example view_bs_3_two_samples :
  view_bs_3 2 [[1; 2; 3; 4; 5; 6]; [7; 8; 9; 10; 11; 12]]%R
  = Ok [ [[1; 2; 3]; [4; 5; 6]]; [[7; 8; 9]; [10; 11; 12]] ]%R.
Proof. reflexivity. Qed.

Example view_bs_3_regroups :
  view_bs_3 1 [[1; 2; 3]; [4; 5; 6]]%R = Ok [ [[1; 2; 3]; [4; 5; 6]] ]%R.
Proof. reflexivity. Qed.

Example view_bs_3_empty_batch : view_bs_3 0 [] = Err ViewSizeMismatch.
Proof. reflexivity. Qed.

Example transpose01_pivots :
  transpose01 2 [[1; 2]; [3; 4]; [5; 6]]%nat = [[1; 3; 5]; [2; 4; 6]]%nat.
Proof. reflexivity. Qed.

Example pivot_dist_demo :
  ∃ d0 d1, pivot_dist [[[0; 0; 0]]]%R (basis demo_net) = Ok [[d0; d1]] ∧
           d0 = 0%R ∧ d1 = 1000%R.
Proof.
  do 2 eexists. split; [reflexivity|].
  unfold mean. cbn. split; lra.
Qed.

(** An empty batch is never answered: the view with batch size 0 raises (or,
    without pivot networks, the stacking does). *)
Lemma forward_empty_batch_fails (self : TailorNet) (betas gammas : tensor2) :
  is_Err (outcome (forward self betas [] gammas)).
Proof.
  unfold forward. cbn [length].
  destruct (tailornet_hfs self) as [|hf hfs]; cbn [mapM_M].
  - unfold ret. rewrite bind_Ok. cbn [stack]. rewrite bind_lift_Err. by eexists.
  - do 2 apply is_Err_bind_l. unfold hf_pivot_field.
    apply is_Err_bind. intros out. unfold view_bs_3.
    rewrite bool_decide_eq_false_2 by (by intros [? _]). by eexists.
Qed.

(** ** More on the kernel weights *)

Lemma big_sum_le n f g :
  (∀ i, (i < n)%nat → (f i <= g i)%R) → (big_sum n f <= big_sum n g)%R.
Proof.
  revert f g. induction n as [|n IH]; intros f g H.
  - unfold big_sum. simpl. lra.
  - rewrite !big_sum_S.
    assert (f 0%nat <= g 0%nat)%R by (apply H; lia).
    assert (big_sum n (λ i, f (S i)) <= big_sum n (λ i, g (S i)))%R; [|lra].
    apply IH. intros i Hi. apply H. lia.
Qed.

Lemma big_sum_scale n f (k : R) :
  big_sum n (λ i, (f i * k)%R) = (big_sum n f * k)%R.
Proof.
  revert f. induction n as [|n IH]; intros f.
  - unfold big_sum. simpl. lra.
  - rewrite !big_sum_S, IH. lra.
Qed.

Lemma big_sum_pos n f :
  (0 < n)%nat → (∀ i, (i < n)%nat → (0 < f i)%R) → (0 < big_sum n f)%R.
Proof.
  revert f. induction n as [|n IH]; intros f Hn Hf; [lia|].
  rewrite big_sum_S.
  assert (0 < f 0%nat)%R by (apply Hf; lia).
  destruct n as [|n].
  - unfold big_sum. simpl. lra.
  - assert (0 < big_sum (S n) (λ i, f (S i)))%R; [|lra].
    apply IH; [lia|]. intros i Hi. apply Hf. lia.
Qed.

Lemma big_sum_const n (k : R) : big_sum n (λ _, k) = (INR n * k)%R.
Proof.
  induction n as [|n IH].
  - unfold big_sum. simpl. lra.
  - rewrite big_sum_S, IH, S_INR. lra.
Qed.

Lemma big_sum_ge_term n f (i : nat) :
  (i < n)%nat → (∀ j, (j < n)%nat → (0 <= f j)%R) → (f i <= big_sum n f)%R.
Proof.
  revert f i. induction n as [|n IH]; intros f i Hi Hf; [lia|].
  rewrite big_sum_S.
  assert (0 <= f 0%nat)%R by (apply Hf; lia).
  assert (0 <= big_sum n (λ j, f (S j)))%R.
  { replace 0%R with (big_sum n (λ _, 0%R)) by (rewrite big_sum_const; lra).
    apply big_sum_le. intros j Hj. apply Hf. lia. }
  destruct i as [|i]; [lra|].
  assert (f (S i) <= big_sum n (λ j, f (S j)))%R; [|lra].
  apply (IH (λ j, f (S j))); [lia|]. intros j Hj. apply Hf. lia.
Qed.

(** The weights of one batch element in index form: positive, at most one,
    and they add up to one. *)
Lemma kernel_weights_facts sigma (dist : tensor2) (P b : nat) :
  (0 < P)%nat → (b < length dist)%nat → is_batch P dist →
  (∀ p, (p < P)%nat →
     (0 < at2 (kernel_weights sigma dist) b p <= 1)%R) ∧
  big_sum P (λ p, at2 (kernel_weights sigma dist) b p) = 1%R.
Proof.
  intros HP Hb Hd.
  set (e := λ q, exp (- at2 dist b q / sigma)).
  assert (0 < big_sum P e)%R as HS
    by (apply big_sum_pos; [done|]; intros; apply exp_pos).
  assert (∀ p, (p < P)%nat →
            at2 (kernel_weights sigma dist) b p = (e p / big_sum P e)%R) as Hat
    by (intros p Hp; by apply kernel_weights_at).
  split.
  - intros p Hp. rewrite Hat by done.
    pose proof (exp_pos (- at2 dist b p / sigma)) as Hpos. fold (e p) in Hpos.
    assert (e p <= big_sum P e)%R as Hle.
    { apply (big_sum_ge_term P e p Hp). intros j _. left. apply exp_pos. }
    split.
    + by apply Rdiv_lt_0_compat.
    + apply Rmult_le_reg_r with (big_sum P e); [done|].
      unfold Rdiv. rewrite Rmult_assoc, Rinv_l by lra. lra.
  - rewrite (big_sum_ext _ _ (λ p, (e p * / big_sum P e)%R))
      by (intros p Hp; by rewrite Hat).
    rewrite big_sum_scale. apply Rinv_r. lra.
Qed.

Lemma interp4_weights (self : TailorNet) (N P V : nat)
    (thetas betas gammas : tensor2) (pivot : tensor4) (sigma : R) :
  TailorNet_wf P V self →
  (0 < N)%nat → length betas = N → length gammas = N →
  is_batch 10 betas → is_batch 4 gammas →
  has_shape4 N P V 3 pivot →
  ∃ rest_verts dist out,
    ss2g_rest_verts self N betas gammas = ([RunSS2G], Ok rest_verts) ∧
    pivot_dist rest_verts (basis self) = Ok dist ∧
    length dist = N ∧ is_batch P dist ∧
    interp4 self thetas betas gammas pivot sigma = ([RunSS2G], Ok out) ∧
    has_shape3 N V 3 out ∧
    ∀ b v c, (b < N)%nat → (v < V)%nat → (c < 3)%nat →
      at3 out b v c
        = big_sum P (λ p, (at4 pivot b p v c * at2 (kernel_weights sigma dist) b p)%R).
Proof.
  intros Hwf HN Hb Hg Hbw Hgw Hpivot.
  destruct (interp4_exec self N P V thetas betas gammas pivot sigma
              Hwf HN Hb Hg Hbw Hgw Hpivot)
    as (rest_verts & Hrest & Hshape & Hinterp & Hout).
  destruct Hwf as (HP & Hbasis & _).
  pose proof (pivot_dist_Ok N P V rest_verts (basis self) Hshape Hbasis) as Hdist.
  destruct (pivot_dist_batch rest_verts (basis self)) as [Hdn Hdp].
  rewrite (has_shape3_batch _ _ _ _ Hshape) in Hdn.
  rewrite (has_shape3_batch _ _ _ _ Hbasis) in Hdp.
  unfold blend in Hinterp, Hout.
  set (dist := map (λ r, map (λ bp, sample_dist r bp) (basis self)) rest_verts) in *.
  assert (length (kernel_weights sigma dist) = N) as Hwn.
  { unfold kernel_weights, normalize_weight, rbf_weight. by rewrite !length_map. }
  assert (is_batch P (kernel_weights sigma dist)) as Hwp
    by (by apply normalize_weight_batch, rbf_weight_batch).
  destruct (weighted_sum_spec N P V pivot _ HP Hpivot Hwn Hwp) as [_ Hblend].
  eexists rest_verts, dist, _.
  repeat (split; [done|]). exact Hblend.
Qed.

Lemma weighted_average_bounds (P : nat) (x w : nat → R) (m M : R) :
  big_sum P w = 1%R →
  (∀ p, (p < P)%nat → (0 < w p)%R) →
  (∀ p, (p < P)%nat → (m <= x p <= M)%R) →
  (m <= big_sum P (λ p, (x p * w p)%R) <= M)%R.
Proof.
  intros Hsum Hpos Hx.
  assert (big_sum P (λ p, (w p * m)%R) = m) as Em by (rewrite big_sum_scale, Hsum; lra).
  assert (big_sum P (λ p, (w p * M)%R) = M) as EM by (rewrite big_sum_scale, Hsum; lra).
  split.
  - rewrite <- Em at 1. apply big_sum_le. intros p Hp.
    specialize (Hpos p Hp). specialize (Hx p Hp). nra.
  - rewrite <- EM at 1. apply big_sum_le. intros p Hp.
    specialize (Hpos p Hp). specialize (Hx p Hp). nra.
Qed.

(** The blend is a weighted average: every entry of the blended field lies
    between the smallest and the largest of the entries of the pivot fields
    at the same sample, vertex and coordinate. *)
Theorem interp4_between_pivots (self : TailorNet) (N P V : nat)
    (thetas betas gammas : tensor2) (pivot : tensor4) (sigma : R) :
  TailorNet_wf P V self →
  (0 < N)%nat → length betas = N → length gammas = N →
  is_batch 10 betas → is_batch 4 gammas →
  has_shape4 N P V 3 pivot →
  ∃ out,
    interp4 self thetas betas gammas pivot sigma = ([RunSS2G], Ok out) ∧
    ∀ b v c (m M : R), (b < N)%nat → (v < V)%nat → (c < 3)%nat →
      (∀ p, (p < P)%nat → (m <= at4 pivot b p v c <= M)%R) →
      (m <= at3 out b v c <= M)%R.
Proof.
  intros Hwf HN Hb Hg Hbw Hgw Hpivot.
  destruct (interp4_weights self N P V thetas betas gammas pivot sigma
              Hwf HN Hb Hg Hbw Hgw Hpivot)
    as (rest_verts & dist & out & _ & _ & Hdn & Hdp & Hinterp & _ & Hat).
  exists out. split; [done|].
  intros b v c m M Hlb Hlv Hlc Hx. rewrite Hat by done.
  destruct Hwf as (HP & _).
  destruct (kernel_weights_facts sigma dist P b HP ltac:(lia) Hdp) as [Hw Hsum].
  apply weighted_average_bounds; [done| |done].
  intros p Hp. by apply Hw.
Qed.

(** With a single pivot the blend is the field of that pivot: for every
    sample whose distance to the pivot keeps the weight in the range of the
    exponential, whatever that distance is (the weight is divided by itself). *)
Theorem interp4_single_pivot (self : TailorNet) (N V : nat)
    (thetas betas gammas : tensor2) (pivot : tensor4) (sigma : R) :
  TailorNet_wf 1 V self →
  (0 < N)%nat → length betas = N → length gammas = N →
  is_batch 10 betas → is_batch 4 gammas →
  has_shape4 N 1 V 3 pivot →
  ∃ rest_verts dist out,
    ss2g_rest_verts self N betas gammas = ([RunSS2G], Ok rest_verts) ∧
    pivot_dist rest_verts (basis self) = Ok dist ∧
    interp4 self thetas betas gammas pivot sigma = ([RunSS2G], Ok out) ∧
    ∀ b, (b < N)%nat → exp_in_range sigma (at2 dist b 0) →
      ∀ v c, (v < V)%nat → (c < 3)%nat → at3 out b v c = at4 pivot b 0 v c.
Proof.
  intros Hwf HN Hb Hg Hbw Hgw Hpivot.
  destruct (interp4_weights self N 1 V thetas betas gammas pivot sigma
              Hwf HN Hb Hg Hbw Hgw Hpivot)
    as (rest_verts & dist & out & Hrest & Hdist & Hdn & Hdp & Hinterp & _ & Hat).
  exists rest_verts, dist, out. repeat (split; [done|]).
  intros b Hlb _ v c Hlv Hlc. rewrite Hat by done.
  destruct (kernel_weights_facts sigma dist 1 b ltac:(lia) ltac:(lia) Hdp) as [_ Hsum].
  unfold big_sum in *. cbn [seq map sumR foldr] in *. nra.
Qed.

Lemma demo_net1_wf : TailorNet_wf 1 1 demo_net1.
Proof.
  assert (is_Some (VALID_THETA !! "t-shirt")) as Hc by (by vm_compute; eexists).
  unfold TailorNet_wf, demo_net1, has_shape3. cbn.
  repeat split; try done; try lia; repeat constructor; try done;
    by apply constant_net_ok.
Qed.

Lemma interp4_between_pivots_witness :
  ∃ out,
    interp4 demo_net demo_thetas demo_betas demo_gammas
            [[ [[1; 0; 0]]; [[0; 1; 0]] ]]%R (1 / 100)
      = ([RunSS2G], Ok out) ∧
    ∀ b v c (m M : R), (b < 1)%nat → (v < 1)%nat → (c < 3)%nat →
      (∀ p, (p < 2)%nat →
         (m <= at4 [[ [[1; 0; 0]]; [[0; 1; 0]] ]]%R b p v c <= M)%R) →
      (m <= at3 out b v c <= M)%R.
Proof.
  apply (interp4_between_pivots demo_net 1 2 1 demo_thetas demo_betas demo_gammas).
  - apply demo_net_wf.
  - lia.
  - reflexivity.
  - reflexivity.
  - repeat constructor.
  - repeat constructor.
  - unfold has_shape4, has_shape3. repeat split; repeat constructor.
Defined.

Lemma ss2g_rest_verts_value_eq (self : TailorNet) (N P V : nat) (betas gammas : tensor2) :
  TailorNet_wf P V self →
  (0 < N)%nat → length betas = N → length gammas = N →
  is_batch 10 betas → is_batch 4 gammas →
  ss2g_rest_verts self N betas gammas
    = ([RunSS2G], Ok (rest_verts_value V betas gammas (tailornet_ss2g self))).
Proof.
  intros (_ & _ & _ & _ & _ & Hin & Hout & Hok) HN Hb Hg Hbw Hgw.
  unfold ss2g_rest_verts, rest_verts_value.
  rewrite (SS2G_forward_Ok _ betas gammas None Hin) by (done || congruence).
  rewrite bind_Ok. rewrite (view_bs_3_rows N V); [done|done| |].
  - rewrite length_map, length_zip_with, masked_betas_length, masked_gammas_length. lia.
  - rewrite <- Hout. apply FullyConnected_out_batch; [done|]. rewrite Hin.
    apply is_batch_zip_app; [by apply masked_betas_batch|by apply masked_gammas_batch].
Qed.

Lemma zero_plus (out : list R) : zip_with Rplus (replicate (length out) 0%R) out = out.
Proof. induction out as [|x out IH]; simpl; [done|]. f_equal; [lra|exact IH]. Qed.

(** The small networks return the bias of their output layer. *)
Lemma constant_net_value (n_in : nat) (out x : list R) : constant_net n_in out x = out.
Proof.
  unfold constant_net, layers_net, Linear_forward. cbn [zero_layer weight bias].
  rewrite fmap_replicate.
  set (h := foldl _ _ _).
  assert (dot (replicate 2 0%R) h = 0%R) as ->.
  { unfold dot. destruct h as [|a [|b h]]; cbn; lra. }
  apply zero_plus.
Qed.

(** An instance: the rest vertices (0, 0, 0) of the small predictor are at
    distance 0.1 from its pivot (0.01, 0, 0), the exponent is -10, and the
    blend is the field (5, 6, 7) of the pivot. *)
Lemma interp4_single_pivot_witness :
  ∃ out,
    interp4 demo_net1 demo_thetas demo_betas demo_gammas [[ [[5; 6; 7]] ]]%R (1 / 100)
      = ([RunSS2G], Ok out) ∧
    ∀ v c, (v < 1)%nat → (c < 3)%nat →
      at3 out 0 v c = at4 [[ [[5; 6; 7]] ]]%R 0 0 v c.
Proof.
  destruct (interp4_single_pivot demo_net1 1 1 demo_thetas demo_betas demo_gammas
              [[ [[5; 6; 7]] ]]%R (1 / 100))
    as (rest_verts & dist & out & Hrest & Hdist & Hinterp & H).
  - apply demo_net1_wf.
  - lia.
  - reflexivity.
  - reflexivity.
  - repeat constructor.
  - repeat constructor.
  - unfold has_shape4, has_shape3. repeat split; repeat constructor.
  - exists out. split; [exact Hinterp|]. apply H; [lia|].
    rewrite (ss2g_rest_verts_value_eq demo_net1 1 1 1) in Hrest;
      [|apply demo_net1_wf|lia|reflexivity|reflexivity|repeat constructor|repeat constructor].
    injection Hrest as <-.
    unfold rest_verts_value in Hdist.
    cbn [demo_net1 tailornet_ss2g TailorNetSS2G.init TailorNetSS2G.mlp net] in Hdist.
    rewrite (map_ext _ (λ _, [0; 0; 0]%R)) in Hdist by (intros; apply constant_net_value).
    cbn in Hdist. injection Hdist as <-.
    unfold exp_in_range, at2, at1, mean. cbn. lra.
Defined.

Lemma sumR_replicate (n : nat) (x : R) : sumR (replicate n x) = (INR n * x)%R.
Proof.
  induction n as [|n IH]; cbn [replicate sumR foldr].
  - simpl. lra.
  - fold (sumR (replicate n x)). rewrite IH, S_INR. lra.
Qed.

(** Pivots at equal distance share the weight equally: each of the [P]
    weights is [1 / P], for a distance that keeps the weights in the range of
    the exponential. *)
Theorem kernel_weights_equal_distances (sigma d : R) (dist : tensor2) (b P : nat) :
  (0 < P)%nat → exp_in_range sigma d →
  dist !! b = Some (replicate P d) →
  kernel_weights sigma dist !! b = Some (replicate P (1 / INR P)%R).
Proof.
  intros HP _ Hb. rewrite (kernel_weights_lookup _ _ _ _ Hb).
  f_equal. rewrite !fmap_replicate. f_equal. rewrite sumR_replicate.
  pose proof (exp_pos (- d / sigma)).
  assert (0 < INR P)%R by (apply lt_0_INR; lia).
  field. split; lra.
Qed.

Lemma kernel_weights_equal_distances_witness :
  kernel_weights (1 / 100) [replicate 3 (1 / 2)%R] !! 0%nat
  = Some (replicate 3 (1 / INR 3)%R).
Proof.
  apply (kernel_weights_equal_distances (1 / 100) (1 / 2) [replicate 3 (1 / 2)%R] 0 3).
  - lia.
  - unfold exp_in_range. lra.
  - reflexivity.
Defined.

(** A nearer pivot never weighs less: for a positive bandwidth and distances
    that are not negative (as [pivot_dist] gives them), of which the nearer
    one keeps its weight in the range of the exponential, a smaller distance
    gives a normalized weight that is at least as large. *)
Theorem kernel_weights_monotone (sigma : R) (dist : tensor2) (P b p q : nat) :
  (0 < sigma)%R →
  (b < length dist)%nat → is_batch P dist → (p < P)%nat → (q < P)%nat →
  (∀ r, (r < P)%nat → (0 <= at2 dist b r)%R) →
  exp_in_range sigma (at2 dist b p) →
  (at2 dist b p <= at2 dist b q)%R →
  (at2 (kernel_weights sigma dist) b q <= at2 (kernel_weights sigma dist) b p)%R.
Proof.
  intros Hsigma Hb Hd Hp Hq _ _ Hle.
  rewrite !(kernel_weights_at _ _ P) by done.
  assert (0 < big_sum P (λ r, exp (- at2 dist b r / sigma)))%R as HS
    by (apply big_sum_pos; [lia|]; intros; apply exp_pos).
  apply Rmult_le_compat_r; [left; by apply Rinv_0_lt_compat|].
  destruct Hle as [Hlt|Heq]; [left|right; by rewrite Heq].
  apply exp_increasing.
  apply Rmult_lt_compat_r; [by apply Rinv_0_lt_compat|]. lra.
Qed.

Lemma kernel_weights_monotone_witness :
  (at2 (kernel_weights (1 / 100) [[1 / 10; 1 / 2]%R]) 0 1
   <= at2 (kernel_weights (1 / 100) [[1 / 10; 1 / 2]%R]) 0 0)%R.
Proof.
  apply (kernel_weights_monotone (1 / 100) [[1 / 10; 1 / 2]%R] 2 0 0 1).
  - lra.
  - cbn. lia.
  - repeat constructor.
  - lia.
  - lia.
  - intros [|[|r]] Hr; unfold at2, at1; cbn; (lra || lia).
  - unfold exp_in_range, at2, at1. cbn. lra.
  - unfold at2, at1. cbn. lra.
Defined.

(** Only the differences of the distances matter: adding the same amount to
    every distance of the batch leaves the normalized weights unchanged, as
    long as the distances keep the weights in the range of the exponential
    before and after. *)
Theorem kernel_weights_shift (sigma c : R) (dist : tensor2) :
  Forall (Forall (exp_in_range sigma)) dist →
  Forall (Forall (exp_in_range sigma)) (map (map (λ d, (d + c)%R)) dist) →
  kernel_weights sigma (map (map (λ d, (d + c)%R)) dist) = kernel_weights sigma dist.
Proof.
  intros _ _.
  unfold kernel_weights, normalize_weight, rbf_weight.
  rewrite !map_map. apply map_ext. intros row. rewrite !map_map.
  set (k := exp (- c / sigma)).
  assert (0 < k)%R as Hk by apply exp_pos.
  assert (∀ d, exp (- (d + c) / sigma) = (exp (- d / sigma) * k)%R) as He.
  { intros d. unfold k. rewrite <- exp_plus. f_equal. unfold Rdiv. lra. }
  assert (sumR (map (λ d, exp (- (d + c) / sigma)) row)
          = (sumR (map (λ d, exp (- d / sigma)) row) * k)%R) as Hs.
  { induction row as [|d row IH]; cbn [map sumR foldr]; [lra|].
    fold (sumR (map (λ d, exp (- (d + c) / sigma)) row)).
    fold (sumR (map (λ d, exp (- d / sigma)) row)).
    rewrite IH, He. lra. }
  rewrite Hs. apply map_ext. intros d. rewrite He.
  destruct row as [|d0 row0] eqn:Hrow.
  - cbn [map sumR foldr]. unfold Rdiv. rewrite Rmult_0_l, !Rinv_0. lra.
  - assert (0 < sumR (map (λ d, exp (- d / sigma)) (d0 :: row0)))%R
      by (apply sumR_exp_pos; discriminate).
    field. split; lra.
Qed.

Lemma kernel_weights_shift_witness :
  kernel_weights (1 / 100) (map (map (λ d, (d + 1 / 5)%R)) [[0; 1 / 10]%R])
  = kernel_weights (1 / 100) [[0; 1 / 10]%R].
Proof.
  apply (kernel_weights_shift (1 / 100) (1 / 5) [[0; 1 / 10]%R]).
  - repeat constructor; unfold exp_in_range; lra.
  - repeat constructor; unfold exp_in_range; lra.
Defined.

(** The factor on the distances and the bandwidth are one parameter: scaling
    every distance by [k] is the same as dividing the bandwidth by [k]. *)
Theorem kernel_weights_scale (sigma k : R) (dist : tensor2) :
  sigma ≠ 0%R → k ≠ 0%R →
  kernel_weights sigma (map (map (λ d, (d * k)%R)) dist)
  = kernel_weights (sigma / k) dist.
Proof.
  intros Hsigma Hk. unfold kernel_weights. f_equal.
  unfold rbf_weight. rewrite map_map. apply map_ext. intros row.
  rewrite map_map. apply map_ext. intros d. f_equal. by field.
Qed.

Lemma kernel_weights_scale_witness :
  kernel_weights (1 / 100) (map (map (λ d, (d * 1000)%R)) [[0; 1]%R])
  = kernel_weights (1 / 100 / 1000) [[0; 1]%R].
Proof. apply (kernel_weights_scale (1 / 100) 1000); lra. Defined.

(** ** The distances to the pivots *)

Lemma big_sum_nonneg n f :
  (∀ i, (i < n)%nat → (0 <= f i)%R) → (0 <= big_sum n f)%R.
Proof.
  intros H. replace 0%R with (big_sum n (λ _, 0%R)) by (rewrite big_sum_const; lra).
  by apply big_sum_le.
Qed.

Lemma big_sum_zero_iff n f :
  (∀ i, (i < n)%nat → (0 <= f i)%R) →
  big_sum n f = 0%R ↔ ∀ i, (i < n)%nat → f i = 0%R.
Proof.
  intros Hf. split.
  - intros Hz i Hi. pose proof (big_sum_ge_term n f i Hi Hf) as Hle.
    specialize (Hf i Hi). lra.
  - intros Hz. rewrite (big_sum_ext _ _ (λ _, 0%R)) by done.
    rewrite big_sum_const. lra.
Qed.

Lemma field_eq_at (V C : nat) (f g : tensor2) :
  is_field V C f → is_field V C g →
  f = g ↔ ∀ v c, (v < V)%nat → (c < C)%nat → at2 f v c = at2 g v c.
Proof.
  intros [Hf Hfc] [Hg Hgc]. split; [by intros ->|].
  intros H. apply (nth_ext _ _ [] []); [congruence|].
  intros v Hv. rewrite Hf in Hv.
  pose proof (nth_Forall _ _ v [] Hfc ltac:(lia)) as Hx.
  pose proof (nth_Forall _ _ v [] Hgc ltac:(lia)) as Hy.
  cbv beta in Hx, Hy.
  apply (nth_ext _ _ 0%R 0%R); [congruence|].
  intros c Hc. rewrite Hx in Hc. by apply H.
Qed.

(** The distance of a sample to a pivot is never negative, and it is zero
    exactly when the rest-vertex field of the sample is the basis of the
    pivot. *)
Theorem pivot_dist_zero_iff (N P V : nat) (rest_verts basis : tensor3) (b p : nat) :
  has_shape3 N V 3 rest_verts → has_shape3 P V 3 basis →
  (0 < V)%nat → (b < N)%nat → (p < P)%nat →
  ∃ dist,
    pivot_dist rest_verts basis = Ok dist ∧
    (0 <= at2 dist b p)%R ∧
    (at2 dist b p = 0%R ↔ nth b rest_verts [] = nth p basis []).
Proof.
  intros Hr Hb HV Hlb Hlp.
  eexists. split; [by apply (pivot_dist_Ok N P V)|].
  assert (at2 (map (λ r, map (λ bp, sample_dist r bp) basis) rest_verts) b p
          = dist_spec rest_verts basis V b p) as ->.
  { unfold at2, at1.
    rewrite (nth_map_lt _ _ _ []) by (destruct Hr; lia).
    rewrite (nth_map_lt _ _ _ []) by (destruct Hb; lia).
    by apply (sample_dist_spec N P V). }
  unfold dist_spec.
  set (sq := λ v, big_sum 3 (λ c, ((at3 rest_verts b v c - at3 basis p v c) ^ 2)%R)).
  assert (∀ v, (v < V)%nat → (0 <= sq v)%R) as Hsq.
  { intros v _. apply big_sum_nonneg. intros c _. apply pow2_ge_0. }
  assert (0 < INR V)%R as HVR by (apply lt_0_INR; lia).
  pose proof (big_sum_nonneg V sq Hsq) as Hnn.
  split.
  - apply Rmult_le_pos; [|lra]. apply Rmult_le_pos; [done|].
    left. by apply Rinv_0_lt_compat.
  - assert (big_sum V sq / INR V * 1000 = 0 ↔ big_sum V sq = 0)%R as ->.
    { split; [|intros ->; unfold Rdiv; lra].
      intros H. apply Rmult_integral in H as [H|H]; [|lra].
      apply Rmult_integral in H as [H|H]; [done|].
      pose proof (Rinv_0_lt_compat _ HVR). lra. }
    rewrite (big_sum_zero_iff V sq Hsq).
    destruct Hr as [HN Hr]. destruct Hb as [HP Hb].
    pose proof (nth_Forall _ _ b [] Hr ltac:(lia)) as Hrb.
    pose proof (nth_Forall _ _ p [] Hb ltac:(lia)) as Hbp.
    rewrite (field_eq_at V 3 _ _ Hrb Hbp).
    split.
    + intros H v c Hv Hc. specialize (H v Hv). unfold sq in H.
      rewrite big_sum_zero_iff in H by (intros; apply pow2_ge_0).
      specialize (H c Hc). unfold at3 in H.
      set (x := at2 (nth b rest_verts []) v c) in *.
      set (y := at2 (nth p basis []) v c) in *.
      assert ((x - y) * (x - y) = 0)%R as Hxy by (simpl in H; lra).
      apply Rmult_integral in Hxy. lra.
    + intros H v Hv. unfold sq.
      apply big_sum_zero_iff; [intros; apply pow2_ge_0|].
      intros c Hc. unfold at3. rewrite (H v c Hv Hc). lra.
Qed.

Lemma pivot_dist_zero_iff_witness :
  ∃ dist,
    pivot_dist [[[0; 0; 0]]]%R (basis demo_net) = Ok dist ∧
    (0 <= at2 dist 0 0)%R ∧
    (at2 dist 0 0 = 0%R ↔ nth 0 [[[0; 0; 0]]]%R [] = nth 0 (basis demo_net) []).
Proof.
  apply (pivot_dist_zero_iff 1 2 1 [[[0; 0; 0]]]%R (basis demo_net) 0 0).
  - unfold has_shape3. repeat split; repeat constructor.
  - unfold has_shape3. repeat split; repeat constructor.
  - lia.
  - lia.
  - lia.
Defined.

(** ** The orchestrator, sample by sample *)

Lemma result_Ok_inj {A} (tr tr' : list event) (a a' : A) :
  (tr, Ok a) = (tr', Ok a') → a = a'.
Proof. by intros [= _ ->]. Qed.

Lemma hf_field_value_Ok (N V : nat) hf (betas thetas gammas : tensor2) :
  is_Some (VALID_THETA !! TailorNetHF.cloth_type hf) →
  input_size (TailorNetHF.mlp hf) = 72%nat →
  output_size (TailorNetHF.mlp hf) = (V * 3)%nat →
  FullyConnected_ok (TailorNetHF.mlp hf) →
  (0 < N)%nat → length thetas = N → is_batch 72 thetas →
  hf_pivot_field N betas thetas gammas hf = ([RunHF], Ok (hf_field_value V thetas hf)) ∧
  has_shape3 N V 3 (hf_field_value V thetas hf).
Proof.
  intros [valid Hc] Hin Hout Hok HN Hlen Hth.
  unfold hf_field_value, theta_valid. rewrite Hc. cbn [default].
  by apply hf_pivot_field_Ok.
Qed.

Lemma forward_batch_value (self : TailorNet) (N P V : nat)
    (betas thetas gammas : tensor2) :
  TailorNet_wf P V self → valid_batch N betas thetas gammas →
  forward self betas thetas gammas
    = (replicate P RunHF ++ [RunSS2G; RunLF],
       Ok (batch_value self V betas thetas gammas)).
Proof.
  intros Hwf Hvalid.
  destruct (forward_exec self N P V betas thetas gammas Hwf Hvalid)
    as (hf_fields & blended & lf_raw & lf & Hhf & HlenP & Hinterp & Hblended
        & Hlf & Hview & Hlfshape & Hforward).
  rewrite Hforward. do 2 f_equal. unfold batch_value.
  destruct (valid_batch_shape_style _ _ _ _ Hvalid) as (HN & Hb & Hg & Hbw & Hgw).
  pose proof Hvalid as (_ & [Hth Hthw] & _).
  pose proof Hwf as (HP & Hbasis & HlenP' & Hhfs & ([vlf Hclf] & Hinlf & Houtlf & Hoklf)
                     & Hinss & Houtss & Hokss).
  (* the pivot fields *)
  assert (hf_fields = map (hf_field_value V thetas) (tailornet_hfs self)) as ->.
  { assert (mapM_M (hf_pivot_field N betas thetas gammas) (tailornet_hfs self)
            = (replicate (length (tailornet_hfs self)) RunHF,
               Ok (map (hf_field_value V thetas) (tailornet_hfs self)))) as Hv.
    { apply mapM_M_Ok. eapply Forall_impl; [exact Hhfs|].
      intros hf (Hc & Hin & Hout & Hok).
      by apply (hf_field_value_Ok N V). }
    rewrite Hhf in Hv. by apply result_Ok_inj in Hv. }
  (* the low-frequency field *)
  assert (lf = lf_field_value V betas thetas gammas (tailornet_lf self)) as ->.
  { rewrite (LF_forward_Ok _ vlf) in Hlf by (done || congruence).
    apply result_Ok_inj in Hlf. subst lf_raw.
    unfold lf_field_value, theta_valid. rewrite Hclf. cbn [default].
    destruct (lf_field_Ok self N P V betas thetas gammas Hwf Hvalid)
      as (lf_raw' & Hlf' & Hview' & _).
    rewrite (LF_forward_Ok _ vlf) in Hlf' by (done || congruence).
    apply result_Ok_inj in Hlf'. subst lf_raw'.
    rewrite Hview' in Hview. by injection Hview as <-. }
  (* the blend *)
  f_equal. rewrite Hth.
  assert (Forall (has_shape3 N V 3)
            (map (hf_field_value V thetas) (tailornet_hfs self))) as Hshapes.
  { apply Forall_map. eapply Forall_impl; [exact Hhfs|].
    intros hf (Hc & Hin & Hout & Hok).
    by apply (hf_field_value_Ok N V hf betas thetas gammas). }
  pose proof (transpose01_shape4 N P V 3 _ ltac:(by rewrite length_map) Hshapes)
    as Hpivot.
  destruct (interp4_exec self N P V thetas betas gammas _ (kernel_sigma self)
              Hwf HN Hb Hg Hbw Hgw Hpivot)
    as (rest_verts & Hrest & _ & Hinterp' & _).
  rewrite Hinterp' in Hinterp. apply result_Ok_inj in Hinterp. subst blended.
  f_equal.
  unfold ss2g_rest_verts in Hrest.
  rewrite (SS2G_forward_Ok _ betas gammas None Hinss) in Hrest by (done || congruence).
  rewrite bind_Ok in Hrest.
  rewrite (view_bs_3_rows N V) in Hrest.
  - cbn [lift fst snd] in Hrest. by apply result_Ok_inj in Hrest.
  - done.
  - rewrite length_map, length_zip_with, masked_betas_length, masked_gammas_length. lia.
  - rewrite <- Houtss. apply FullyConnected_out_batch; [done|]. rewrite Hinss.
    apply is_batch_zip_app; [by apply masked_betas_batch|by apply masked_gammas_batch].
Qed.

Lemma masked_gammas_app (a b : tensor2) c :
  masked_gammas (a ++ b) c = masked_gammas a c ++ masked_gammas b c.
Proof. unfold masked_gammas. case_bool_decide; by rewrite !map_app. Qed.

Lemma masked_betas_app (a b : tensor2) c :
  masked_betas (a ++ b) c = masked_betas a c ++ masked_betas b c.
Proof. unfold masked_betas. by rewrite map_app. Qed.

Lemma kernel_weights_app sigma (a b : tensor2) :
  kernel_weights sigma (a ++ b) = kernel_weights sigma a ++ kernel_weights sigma b.
Proof. unfold kernel_weights, normalize_weight, rbf_weight. by rewrite !map_app. Qed.

Lemma kernel_weights_length sigma (dist : tensor2) :
  length (kernel_weights sigma dist) = length dist.
Proof. unfold kernel_weights, normalize_weight, rbf_weight. by rewrite !length_map. Qed.

Lemma transpose01_app {A B} (f1 f2 : B → list A) (n1 n2 : nat) (l : list B) :
  (∀ x, length (f1 x) = n1) →
  transpose01 (n1 + n2) (map (λ x, f1 x ++ f2 x) l)
  = transpose01 n1 (map f1 l) ++ transpose01 n2 (map f2 l).
Proof.
  intros H1. induction l as [|x l IH]; cbn [map transpose01].
  - by rewrite replicate_add.
  - rewrite IH. apply zip_with_app.
    rewrite transpose01_length; [by rewrite H1|].
    apply Forall_map, Forall_forall. intros y _. apply H1.
Qed.

Lemma lf_field_value_app (V : nat) lf (be1 be2 th1 th2 ga1 ga2 : tensor2) :
  length be1 = length th1 → length ga1 = length th1 →
  lf_field_value V (be1 ++ be2) (th1 ++ th2) (ga1 ++ ga2) lf
  = lf_field_value V be1 th1 ga1 lf ++ lf_field_value V be2 th2 ga2 lf.
Proof.
  intros Hb Hg. unfold lf_field_value.
  rewrite masked_betas_app, masked_gammas_app, map_app.
  rewrite (zip_with_app _ (map _ th1))
    by (by rewrite length_map, masked_betas_length).
  rewrite zip_with_app
    by (rewrite length_zip_with, length_map, masked_betas_length, masked_gammas_length; lia).
  by rewrite !map_app.
Qed.

Lemma rest_verts_value_app (V : nat) ss (be1 be2 ga1 ga2 : tensor2) :
  length be1 = length ga1 →
  rest_verts_value V (be1 ++ be2) (ga1 ++ ga2) ss
  = rest_verts_value V be1 ga1 ss ++ rest_verts_value V be2 ga2 ss.
Proof.
  intros Hb. unfold rest_verts_value.
  rewrite masked_betas_app, masked_gammas_app.
  rewrite zip_with_app by (by rewrite masked_betas_length, masked_gammas_length).
  by rewrite !map_app.
Qed.

Lemma hf_field_value_app (V : nat) hf (th1 th2 : tensor2) :
  hf_field_value V (th1 ++ th2) hf = hf_field_value V th1 hf ++ hf_field_value V th2 hf.
Proof. unfold hf_field_value. by rewrite !map_app. Qed.

Lemma blend_app sigma (rv1 rv2 basis : tensor3) (pv1 pv2 : tensor4) :
  length pv1 = length rv1 →
  blend sigma (rv1 ++ rv2) basis (pv1 ++ pv2)
  = blend sigma rv1 basis pv1 ++ blend sigma rv2 basis pv2.
Proof.
  intros H. unfold blend.
  rewrite map_app, kernel_weights_app.
  rewrite zip_with_app by (by rewrite kernel_weights_length, length_map).
  by rewrite map_app.
Qed.

Lemma batch_value_app (self : TailorNet) (V : nat)
    (be1 be2 th1 th2 ga1 ga2 : tensor2) :
  length be1 = length th1 → length ga1 = length th1 →
  batch_value self V (be1 ++ be2) (th1 ++ th2) (ga1 ++ ga2)
  = batch_value self V be1 th1 ga1 ++ batch_value self V be2 th2 ga2.
Proof.
  intros Hb Hg. unfold batch_value.
  rewrite lf_field_value_app by done.
  rewrite rest_verts_value_app by congruence.
  rewrite length_app.
  rewrite (map_ext _ (λ hf, hf_field_value V th1 hf ++ hf_field_value V th2 hf))
    by (intros; apply hf_field_value_app).
  rewrite (transpose01_app (hf_field_value V th1) (hf_field_value V th2))
    by (intros hf; unfold hf_field_value; by rewrite !length_map).
  assert (length (transpose01 (length th1)
                    (map (hf_field_value V th1) (tailornet_hfs self))) = length th1) as Hp.
  { apply transpose01_length, Forall_map, Forall_forall. intros hf _.
    unfold hf_field_value. by rewrite !length_map. }
  rewrite blend_app.
  2:{ rewrite Hp. unfold rest_verts_value.
      rewrite !length_map, length_zip_with, masked_betas_length, masked_gammas_length. lia. }
  apply zip_with_app.
  unfold lf_field_value, blend, rest_verts_value.
  rewrite !length_map, !length_zip_with, !length_map, kernel_weights_length,
    !length_map, !length_zip_with, !masked_betas_length, !masked_gammas_length, Hp. lia.
Qed.

(** Batch consistency: the prediction for a sample does not depend on what
    else is in the batch.  Predicting two valid batches one after the other
    and predicting them as one batch give the same fields, in order. *)
Theorem forward_batch_concat (self : TailorNet) (N1 N2 P V : nat)
    (be1 th1 ga1 be2 th2 ga2 : tensor2) :
  TailorNet_wf P V self →
  valid_batch N1 be1 th1 ga1 → valid_batch N2 be2 th2 ga2 →
  ∃ out1 out2,
    forward self be1 th1 ga1 = (replicate P RunHF ++ [RunSS2G; RunLF], Ok out1) ∧
    forward self be2 th2 ga2 = (replicate P RunHF ++ [RunSS2G; RunLF], Ok out2) ∧
    forward self (be1 ++ be2) (th1 ++ th2) (ga1 ++ ga2)
      = (replicate P RunHF ++ [RunSS2G; RunLF], Ok (out1 ++ out2)).
Proof.
  intros Hwf Hv1 Hv2.
  exists (batch_value self V be1 th1 ga1), (batch_value self V be2 th2 ga2).
  split; [by apply (forward_batch_value self N1)|].
  split; [by apply (forward_batch_value self N2)|].
  destruct Hv1 as (HN1 & [Ht1 Htw1] & [Hb1 Hbw1] & [Hg1 Hgw1]).
  destruct Hv2 as (HN2 & [Ht2 Htw2] & [Hb2 Hbw2] & [Hg2 Hgw2]).
  rewrite <- batch_value_app by congruence.
  apply (forward_batch_value self (N1 + N2)); [done|].
  unfold valid_batch, is_batch. rewrite !length_app, !Forall_app.
  repeat split; (done || lia).
Qed.

Lemma forward_batch_concat_witness :
  ∃ out1 out2,
    forward demo_net demo_betas demo_thetas demo_gammas
      = (replicate 2 RunHF ++ [RunSS2G; RunLF], Ok out1) ∧
    forward demo_net demo_betas demo_thetas demo_gammas
      = (replicate 2 RunHF ++ [RunSS2G; RunLF], Ok out2) ∧
    forward demo_net (demo_betas ++ demo_betas) (demo_thetas ++ demo_thetas)
                     (demo_gammas ++ demo_gammas)
      = (replicate 2 RunHF ++ [RunSS2G; RunLF], Ok (out1 ++ out2)).
Proof.
  assert (valid_batch 1 demo_betas demo_thetas demo_gammas) as Hv.
  { unfold valid_batch, demo_betas, demo_thetas, demo_gammas.
    repeat split; try lia; repeat constructor. }
  apply (forward_batch_concat demo_net 1 1 2 1); [apply demo_net_wf|exact Hv|exact Hv].
Defined.

(** ** Failures of the orchestrator *)

(** A predictor without pivot networks cannot predict: stacking no fields
    raises, before any network has run, whatever the inputs are. *)
Theorem forward_no_pivots (self : TailorNet) (betas thetas gammas : tensor2) :
  tailornet_hfs self = [] →
  forward self betas thetas gammas = ([], Err StackEmpty).
Proof. intros H. unfold forward. rewrite H. reflexivity. Qed.

Lemma forward_no_pivots_witness :
  forward {| cloth_type := "t-shirt"; kernel_sigma := 1 / 100; basis := [];
             tailornet_lf := tailornet_lf demo_net; tailornet_hfs := [];
             tailornet_ss2g := tailornet_ss2g demo_net |}
          demo_betas demo_thetas demo_gammas
  = ([], Err StackEmpty).
Proof. by apply forward_no_pivots. Defined.

Lemma mapM_M_app_Err {A B} (f : A → M B) (g : A → B) (ev : event)
    (l1 l2 : list A) (x : A) (e : error) :
  Forall (λ y, f y = ([ev], Ok (g y))) l1 →
  f x = ([], Err e) →
  mapM_M f (l1 ++ x :: l2) = (replicate (length l1) ev, Err e).
Proof.
  intros H1 Hx. induction H1 as [|y l1 Hy H1 IH]; cbn [mapM_M app].
  - by rewrite Hx.
  - rewrite Hy, bind_Ok, IH. by rewrite bind_Err.
Qed.

(** A pivot network whose garment class is not in the table makes the call
    fail with the [KeyError] of that class; the pivot networks before it have
    run, nothing after it has. *)
Theorem forward_unknown_pivot_class (self : TailorNet) (N V : nat)
    (betas thetas gammas : tensor2) (hfs1 hfs2 : list TailorNetHF.t) (hf : TailorNetHF.t) :
  tailornet_hfs self = hfs1 ++ hf :: hfs2 →
  Forall (λ h, is_Some (VALID_THETA !! TailorNetHF.cloth_type h) ∧
               input_size (TailorNetHF.mlp h) = 72%nat ∧
               output_size (TailorNetHF.mlp h) = (V * 3)%nat ∧
               FullyConnected_ok (TailorNetHF.mlp h)) hfs1 →
  VALID_THETA !! TailorNetHF.cloth_type hf = None →
  (0 < N)%nat → length thetas = N → is_batch 72 thetas →
  forward self betas thetas gammas
    = (replicate (length hfs1) RunHF, Err (KeyError (TailorNetHF.cloth_type hf))).
Proof.
  intros Hhfs H1 Hc HN Hth Hthw. unfold forward. rewrite Hhfs, Hth.
  rewrite (mapM_M_app_Err _ (hf_field_value V thetas) RunHF _ _ _
             (KeyError (TailorNetHF.cloth_type hf))); [done| |].
  - eapply Forall_impl; [exact H1|]. intros h (Hch & Hin & Hout & Hok).
    by apply (hf_field_value_Ok N V).
  - unfold hf_pivot_field, TailorNetHF.forward, mask_thetas. by rewrite Hc.
Qed.

Lemma forward_unknown_pivot_class_witness :
  forward {| cloth_type := "dress"; kernel_sigma := 1 / 100; basis := basis demo_net;
             tailornet_lf := tailornet_lf demo_net;
             tailornet_hfs :=
               [ TailorNetHF.init "t-shirt" 3 (constant_net 72 [1; 0; 0]%R) ]
               ++ TailorNetHF.init "dress" 3 (constant_net 72 [0; 1; 0]%R) :: [];
             tailornet_ss2g := tailornet_ss2g demo_net |}
          demo_betas demo_thetas demo_gammas
  = (replicate 1 RunHF, Err (KeyError "dress")).
Proof.
  apply (forward_unknown_pivot_class _ 1 1 demo_betas demo_thetas demo_gammas
           [ TailorNetHF.init "t-shirt" 3 (constant_net 72 [1; 0; 0]%R) ] []
           (TailorNetHF.init "dress" 3 (constant_net 72 [0; 1; 0]%R))).
  - reflexivity.
  - apply Forall_cons. split; [|constructor].
    split; [by vm_compute; eexists|]. split; [reflexivity|]. split; [reflexivity|].
    by apply constant_net_ok.
  - by vm_compute.
  - lia.
  - reflexivity.
  - repeat constructor.
Defined.

(** ** More on masking *)

(** Masking for a garment class whose valid joints are among those of
    another class absorbs the masking of that other class: a pose masked for
    a shirt and then for a skirt is the pose masked for a skirt. *)
Theorem mask_thetas_nested (c1 c2 : string) (v1 v2 : list nat) (thetas : tensor2) :
  VALID_THETA !! c1 = Some v1 → VALID_THETA !! c2 = Some v2 →
  (∀ j, j ∈ v1 → j ∈ v2) →
  rbind (mask_thetas thetas c2) (λ t, mask_thetas t c1) = mask_thetas thetas c1.
Proof.
  intros H1 H2 Hsub. by apply (mask_thetas_absorb c1 c2 v1 v2).
Qed.

Lemma mask_thetas_nested_witness :
  rbind (mask_thetas demo_thetas "shirt") (λ t, mask_thetas t "skirt")
  = mask_thetas demo_thetas "skirt".
Proof.
  apply (mask_thetas_nested "skirt" "shirt" [0; 1; 2]%nat
           [0; 1; 2; 3; 6; 9; 12; 13; 14; 16; 17; 18; 19; 20; 21]%nat).
  - by vm_compute.
  - by vm_compute.
  - intros j Hj. repeat (apply elem_of_cons in Hj as [->|Hj]; [set_solver|]).
    by apply elem_of_nil in Hj.
Defined.

Lemma masked_rows_eq_iff (valid : list nat) (r1 r2 : list R) :
  length r1 = 72%nat → length r2 = 72%nat →
  zip_with Rmult r1 (theta_mask valid) = zip_with Rmult r2 (theta_mask valid) ↔
  ∀ i, (i < 72)%nat → (i / 3)%nat ∈ valid → nth i r1 0%R = nth i r2 0%R.
Proof.
  intros H1 H2.
  assert (∀ (r : list R) i, length r = 72%nat → (i < 72)%nat →
            zip_with Rmult r (theta_mask valid) !! i
            = Some (nth i r 0 * (if bool_decide ((i / 3)%nat ∈ valid) then 1 else 0))%R)
    as Hlk.
  { intros r i Hr Hi. rewrite lookup_zip_with, theta_mask_lookup by done.
    destruct (nth_lookup_or_length r i 0%R) as [->|]; [done|lia]. }
  split.
  - intros Heq i Hi Hin.
    pose proof (Hlk r1 i H1 Hi) as E1. pose proof (Hlk r2 i H2 Hi) as E2.
    rewrite Heq, E2 in E1. injection E1 as E1.
    rewrite bool_decide_eq_true_2 in E1 by done. lra.
  - intros Hag. apply list_eq. intros i.
    destruct (decide (i < 72)%nat) as [Hi|Hi].
    + rewrite !Hlk by done. f_equal.
      case_bool_decide; [rewrite (Hag i Hi) by done; lra|lra].
    + assert (∀ r : list R, zip_with Rmult r (theta_mask valid) !! i = None) as Hnone
        by (intros r; apply lookup_ge_None; rewrite length_zip_with, theta_mask_length; lia).
      by rewrite !Hnone.
Qed.

(** Two batches of poses are masked to the same batch exactly when they
    agree on the valid joints of the garment class. *)
Theorem mask_thetas_eq_iff (c : string) (valid : list nat) (t1 t2 : tensor2) :
  VALID_THETA !! c = Some valid →
  is_batch 72 t1 → is_batch 72 t2 →
  mask_thetas t1 c = mask_thetas t2 c ↔ agree_on_joints valid t1 t2.
Proof.
  intros Hc Hw1 Hw2.
  rewrite (mask_thetas_Ok _ _ _ Hc Hw1), (mask_thetas_Ok _ _ _ Hc Hw2).
  unfold agree_on_joints, at2, at1. split.
  - intros [= Heq].
    assert (length t1 = length t2) as Hlen
      by (apply (f_equal length) in Heq; by rewrite !length_map in Heq).
    split; [done|]. intros b i Hb Hi Hin.
    pose proof (nth_Forall _ _ b [] Hw1 Hb) as H1.
    pose proof (nth_Forall _ _ b [] Hw2 ltac:(lia)) as H2. cbv beta in H1, H2.
    apply (masked_rows_eq_iff valid _ _ H1 H2); [|done|done].
    apply (f_equal (λ l, nth b l [])) in Heq.
    rewrite !(nth_map_lt _ _ _ []) in Heq by lia. exact Heq.
  - intros [Hlen Hag]. f_equal.
    apply (nth_ext _ _ [] []); [by rewrite !length_map|].
    intros b Hb. rewrite length_map in Hb.
    rewrite !(nth_map_lt _ _ _ []) by lia.
    pose proof (nth_Forall _ _ b [] Hw1 Hb) as H1.
    pose proof (nth_Forall _ _ b [] Hw2 ltac:(lia)) as H2. cbv beta in H1, H2.
    apply (masked_rows_eq_iff valid _ _ H1 H2). intros i Hi Hin. by apply Hag.
Qed.

Lemma mask_thetas_eq_iff_witness :
  mask_thetas [replicate 9 1 ++ replicate 63 2]%R "skirt"
    = mask_thetas [replicate 9 1 ++ replicate 63 5]%R "skirt" ↔
  agree_on_joints [0; 1; 2]%nat
    [replicate 9 1 ++ replicate 63 2]%R [replicate 9 1 ++ replicate 63 5]%R.
Proof.
  apply (mask_thetas_eq_iff "skirt" [0; 1; 2]%nat).
  - by vm_compute.
  - repeat constructor.
  - repeat constructor.
Defined.

Lemma mask_thetas_agree (c : string) (t1 t2 : tensor2) :
  is_batch 72 t1 → is_batch 72 t2 → length t1 = length t2 →
  (∀ valid, VALID_THETA !! c = Some valid → agree_on_joints valid t1 t2) →
  mask_thetas t1 c = mask_thetas t2 c.
Proof.
  intros Hw1 Hw2 Hlen Hag.
  destruct (VALID_THETA !! c) as [valid|] eqn:Hc;
    [|by rewrite !(mask_thetas_unknown _ _ Hc)].
  rewrite (mask_thetas_Ok _ _ _ Hc Hw1), (mask_thetas_Ok _ _ _ Hc Hw2).
  destruct (Hag valid eq_refl) as [_ Hat]. f_equal.
  apply (nth_ext _ _ [] []); [by rewrite !length_map|].
  intros b Hb. rewrite length_map in Hb.
  rewrite !(nth_map_lt _ _ _ []) by lia.
  pose proof (nth_Forall _ _ b [] Hw1 Hb) as H1.
  pose proof (nth_Forall _ _ b [] Hw2 ltac:(lia)) as H2. cbv beta in H1, H2.
  apply (masked_rows_eq_iff valid _ _ H1 H2). intros i Hi Hin. by apply Hat.
Qed.

Lemma mapM_M_ext {A B} (f g : A → M B) (l : list A) :
  Forall (λ x, f x = g x) l → mapM_M f l = mapM_M g l.
Proof.
  induction 1 as [|x l Hx Hl IH]; [done|].
  cbn [mapM_M]. by rewrite Hx, IH.
Qed.

(** Joints that are not valid for the garment have no influence: two batches
    of poses that agree on the valid joints of the garment classes of the
    pivot networks and of the low-frequency network give the same result
    (and the same failure, if any). *)
Theorem forward_blind_to_masked_joints (self : TailorNet)
    (betas thetas1 thetas2 gammas : tensor2) :
  is_batch 72 thetas1 → is_batch 72 thetas2 → length thetas1 = length thetas2 →
  (∀ c valid,
     c = TailorNetLF.cloth_type (tailornet_lf self) ∨
     (∃ hf, hf ∈ tailornet_hfs self ∧ c = TailorNetHF.cloth_type hf) →
     VALID_THETA !! c = Some valid → agree_on_joints valid thetas1 thetas2) →
  forward self betas thetas1 gammas = forward self betas thetas2 gammas.
Proof.
  intros Hw1 Hw2 Hlen Hag. unfold forward. rewrite Hlen.
  rewrite (mapM_M_ext (hf_pivot_field (length thetas2) betas thetas1 gammas)
                      (hf_pivot_field (length thetas2) betas thetas2 gammas)).
  2:{ apply Forall_forall. intros hf Hhf.
      unfold hf_pivot_field, TailorNetHF.forward.
      rewrite (mask_thetas_agree _ thetas1 thetas2); try done.
      intros valid Hv. apply (Hag (TailorNetHF.cloth_type hf)); [|done].
      right. by exists hf. }
  assert (TailorNetLF.forward (tailornet_lf self) thetas1 betas gammas
          = TailorNetLF.forward (tailornet_lf self) thetas2 betas gammas) as ->.
  { unfold TailorNetLF.forward, mask_inputs. cbn [on_present].
    rewrite (mask_thetas_agree _ thetas1 thetas2); try done.
    intros valid Hv. apply (Hag (TailorNetLF.cloth_type (tailornet_lf self))); [|done].
    by left. }
  reflexivity.
Qed.

Lemma forward_blind_to_masked_joints_witness :
  forward demo_net demo_betas [replicate 60 0 ++ replicate 12 1]%R demo_gammas
  = forward demo_net demo_betas [replicate 60 0 ++ replicate 12 7]%R demo_gammas.
Proof.
  apply (forward_blind_to_masked_joints demo_net).
  - repeat constructor.
  - repeat constructor.
  - reflexivity.
  - intros c valid Hc Hv.
    assert (c = "t-shirt") as ->.
    { destruct Hc as [->|(hf & Hhf & ->)]; [reflexivity|].
      cbn in Hhf. repeat (apply elem_of_cons in Hhf as [->|Hhf]; [reflexivity|]).
      by apply elem_of_nil in Hhf. }
    assert (valid = [0; 1; 2; 3; 6; 9; 12; 13; 14; 16; 17; 18; 19]%nat) as ->
      by (vm_compute in Hv; congruence).
    split; [reflexivity|].
    intros b i Hb Hi Hin. cbn in Hb. assert (b = 0%nat) as -> by lia.
    assert (i / 3 < 20)%nat as Hj.
    { repeat (apply elem_of_cons in Hin as [->|Hin]; [lia|]).
      by apply elem_of_nil in Hin. }
    assert (i < 60)%nat as Hi60.
    { pose proof (Nat.div_mod_eq i 3). pose proof (Nat.mod_upper_bound i 3). lia. }
    unfold at2, at1. cbn [nth].
    rewrite !app_nth1 by (rewrite length_replicate; lia). reflexivity.
Defined.

Lemma index01_row_agree (r1 r2 : list R) :
  length r1 = length r2 → take 2 r1 = take 2 r2 →
  zip_with Rmult r1 (index_mask [0; 1]%nat r1)
  = zip_with Rmult r2 (index_mask [0; 1]%nat r2).
Proof.
  intros Hlen Htake.
  destruct r1 as [|a1 [|b1 r1]], r2 as [|a2 [|b2 r2]]; simpl in Hlen; try lia; try done.
  - by injection Htake as ->.
  - injection Htake as -> ->.
    unfold index_mask. cbn [length replicate set_ones foldr]. cbn. do 2 f_equal.
    injection Hlen as Hlen. clear -Hlen. revert r2 Hlen.
    induction r1 as [|x r1 IH]; intros [|y r2] Hlen; simpl in *; try lia; [done|].
    f_equal; [lra|]. apply IH. lia.
Qed.

Lemma masked_rows_agree (t1 t2 : tensor2) :
  agree_on_first_two t1 t2 →
  map (λ row, zip_with Rmult row (index_mask [0; 1]%nat row)) t1
  = map (λ row, zip_with Rmult row (index_mask [0; 1]%nat row)) t2.
Proof.
  intros H. induction H as [|r1 r2 t1 t2 [Hlen Htake] H IH]; cbn [map]; [done|].
  f_equal; [by apply index01_row_agree|exact IH].
Qed.

Lemma agree_widths (P : nat → Prop) (t1 t2 : tensor2) :
  agree_on_first_two t1 t2 →
  Forall (λ row : list R, P (length row)) t1 ↔ Forall (λ row : list R, P (length row)) t2.
Proof.
  intros H. induction H as [|r1 r2 t1 t2 [Hlen Htake] H IH]; [done|].
  rewrite !Forall_cons, IH, Hlen. done.
Qed.

(** Batches that agree on their first two entries are masked alike, to the
    same rows or to the same error. *)
Lemma mask_betas_agree (b1 b2 : tensor2) c :
  agree_on_first_two b1 b2 → mask_betas b1 c = mask_betas b2 c.
Proof.
  intros H. rewrite !mask_betas_eq. unfold masked_betas.
  rewrite (masked_rows_agree _ _ H).
  pose proof (agree_widths (λ n, 2 ≤ n)%nat _ _ H) as Hw.
  by rewrite (bool_decide_ext _ _ Hw).
Qed.

Lemma mask_gammas_agree (g1 g2 : tensor2) c :
  agree_on_first_two g1 g2 → mask_gammas g1 c = mask_gammas g2 c.
Proof.
  intros H. rewrite !mask_gammas_eq. unfold masked_gammas.
  rewrite (masked_rows_agree _ _ H).
  pose proof (agree_widths (λ n, 2 ≤ n)%nat _ _ H) as Hw.
  pose proof (agree_widths (λ n, n = 4)%nat _ _ H) as H4.
  rewrite (bool_decide_ext _ _ Hw).
  assert (c = "old-t-shirt" ∧ ¬ Forall (λ row : list R, length row = 4%nat) g1
          ↔ c = "old-t-shirt" ∧ ¬ Forall (λ row : list R, length row = 4%nat) g2) as Hc
    by (by rewrite H4).
  by rewrite (bool_decide_ext _ _ Hc).
Qed.

(** Of the shape and style vectors only the first two entries are used: two
    batches that agree on the first two entries of every beta and of every
    gamma give the same result (and the same failure, if any), whatever the
    garment classes are. *)
Theorem forward_uses_first_two_of_shape_style (self : TailorNet)
    (betas1 betas2 thetas gammas1 gammas2 : tensor2) :
  agree_on_first_two betas1 betas2 → agree_on_first_two gammas1 gammas2 →
  forward self betas1 thetas gammas1 = forward self betas2 thetas gammas2.
Proof.
  intros Hb Hg. unfold forward.
  assert (∀ pivot,
            interp4 self thetas betas1 gammas1 pivot (kernel_sigma self)
            = interp4 self thetas betas2 gammas2 pivot (kernel_sigma self)) as Hinterp.
  { intros pivot. unfold interp4, ss2g_rest_verts, TailorNetSS2G.forward, mask_inputs.
    cbn [on_present].
    by rewrite (mask_betas_agree betas1 betas2), (mask_gammas_agree gammas1 gammas2). }
  assert (TailorNetLF.forward (tailornet_lf self) thetas betas1 gammas1
          = TailorNetLF.forward (tailornet_lf self) thetas betas2 gammas2) as ->.
  { unfold TailorNetLF.forward, mask_inputs. cbn [on_present].
    by rewrite (mask_betas_agree betas1 betas2), (mask_gammas_agree gammas1 gammas2). }
  rewrite (mapM_M_ext (hf_pivot_field (length thetas) betas1 thetas gammas1)
                      (hf_pivot_field (length thetas) betas2 thetas gammas2))
    by (by apply Forall_forall).
  destruct (mapM_M _ _) as [tr [hfs|e]]; [|done].
  rewrite !bind_Ok. destruct (stack hfs) as [stacked|e]; [|done].
  rewrite !bind_lift_Ok. by rewrite Hinterp.
Qed.

Lemma forward_uses_first_two_of_shape_style_witness :
  forward demo_net [[1; 2; 3; 4; 5; 6; 7; 8; 9; 10]%R] demo_thetas [[1; 2; 3; 4]%R]
  = forward demo_net [[1; 2; 0; 0; 0; 0; 0; 0; 0; 0]%R] demo_thetas [[1; 2; 9; 9]%R].
Proof.
  apply (forward_uses_first_two_of_shape_style demo_net).
  - repeat constructor.
  - repeat constructor.
Defined.

(** ** The layers of a fully connected network *)

Lemma features_through_app (l1 l2 : list layer) (w : nat) :
  features_through (l1 ++ l2) w = rbind (features_through l1 w) (features_through l2).
Proof.
  revert w. induction l1 as [|[i o| |] l1 IH]; intros w; cbn [app features_through rbind];
    try done.
  case_bool_decide; [apply IH|done].
Qed.

Lemma features_through_hidden (h k : nat) :
  features_through (concat (replicate k [LinearLayer h h; ReLULayer])) h = Ok h.
Proof.
  induction k as [|k IH]; [done|].
  cbn [replicate concat app features_through].
  by rewrite bool_decide_eq_true_2.
Qed.

Lemma filter_linear_hidden (h k : nat) :
  length (List.filter is_linear (concat (replicate k [LinearLayer h h; ReLULayer]))) = k.
Proof. induction k as [|k IH]; [done|]. cbn. by rewrite IH. Qed.

Lemma filter_dropout_hidden (h k : nat) :
  length (List.filter is_dropout (concat (replicate k [LinearLayer h h; ReLULayer]))) = 0%nat.
Proof. induction k as [|k IH]; [done|]. cbn. exact IH. Qed.

(** Whatever the hidden width and the depth, the layers fit together: the
    network takes exactly [input_size] features and gives [output_size]
    features, and any other number of input features is refused by its first
    layer. *)
Theorem FullyConnected_layers_fit (input_size output_size hidden_size : nat) (n : Z) :
  ∃ layers,
    FullyConnected_layers input_size output_size hidden_size (Some n) = Ok layers ∧
    features_through layers input_size = Ok output_size ∧
    ∀ w, w ≠ input_size → features_through layers w = Err LinearSizeMismatch.
Proof.
  eexists. split; [reflexivity|]. split.
  - rewrite !features_through_app. cbn [features_through rbind].
    rewrite bool_decide_eq_true_2 by done. cbn [rbind].
    rewrite features_through_hidden. cbn [rbind].
    by rewrite bool_decide_eq_true_2.
  - intros w Hw. rewrite <- !app_assoc. cbn [app features_through].
    by rewrite bool_decide_eq_false_2.
Qed.

(** [num_layers] is the number of linear layers, but never fewer than two are
    built: every value below 2 gives the network of [num_layers = 2], and
    leaving [num_layers] at its default [None] raises. *)
Theorem FullyConnected_layers_depth (input_size output_size hidden_size : nat) :
  FullyConnected_layers input_size output_size hidden_size None = Err TypeError ∧
  ∀ n : Z, ∃ layers,
    FullyConnected_layers input_size output_size hidden_size (Some n) = Ok layers ∧
    length (List.filter is_linear layers) = Z.to_nat (Z.max 2 n) ∧
    length (List.filter is_dropout layers) = 1%nat ∧
    ((n <= 2)%Z →
       FullyConnected_layers input_size output_size hidden_size (Some n)
       = FullyConnected_layers input_size output_size hidden_size (Some 2%Z)).
Proof.
  split; [done|]. intros n. eexists. split; [reflexivity|]. split; [|split].
  - rewrite !List.filter_app, !length_app, filter_linear_hidden. cbn. lia.
  - rewrite !List.filter_app, !length_app, filter_dropout_hidden. reflexivity.
  - intros Hn. unfold FullyConnected_layers.
    by replace (Z.to_nat (n - 2)) with (Z.to_nat (2 - 2)) by lia.
Qed.

(** ** The shape-style network *)

(** The shape-style network never consults the table of valid joints and
    never reads theta: on a well-shaped batch of betas and gammas it succeeds
    for every garment class, also one outside the table, with one output row
    per sample. *)
Theorem ss2g_forward_any_class (ss : TailorNetSS2G.t) (thetas : option tensor2)
    (betas gammas : tensor2) :
  input_size (TailorNetSS2G.mlp ss) = (10 + 4)%nat →
  length gammas = length betas →
  is_batch 10 betas → is_batch 4 gammas →
  ∃ out,
    TailorNetSS2G.forward ss thetas (Some betas) (Some gammas) = ([RunSS2G], Ok out) ∧
    TailorNetSS2G.forward ss None (Some betas) (Some gammas) = ([RunSS2G], Ok out) ∧
    length out = length betas.
Proof.
  intros Hin Hlen Hb Hg. eexists.
  split; [by apply SS2G_forward_Ok|]. split; [by apply SS2G_forward_Ok|].
  rewrite length_map, length_zip_with, masked_betas_length, masked_gammas_length. lia.
Qed.

Lemma ss2g_forward_any_class_witness :
  ∃ out,
    TailorNetSS2G.forward (TailorNetSS2G.init "dress" 3 (constant_net 14 [0; 0; 0]%R))
      (Some demo_thetas) (Some demo_betas) (Some demo_gammas) = ([RunSS2G], Ok out) ∧
    TailorNetSS2G.forward (TailorNetSS2G.init "dress" 3 (constant_net 14 [0; 0; 0]%R))
      None (Some demo_betas) (Some demo_gammas) = ([RunSS2G], Ok out) ∧
    length out = length demo_betas.
Proof.
  apply (ss2g_forward_any_class
           (TailorNetSS2G.init "dress" 3 (constant_net 14 [0; 0; 0]%R))).
  - reflexivity.
  - reflexivity.
  - repeat constructor.
  - repeat constructor.
Defined.

(** A pivot that is farther away by [delta] weighs less by the factor
    [exp (- delta / sigma)], and so, for a positive bandwidth, at most that
    factor; for distances that are not negative and keep both weights in the
    range of the exponential. *)
Theorem kernel_weights_ratio (sigma : R) (dist : tensor2) (P b p q : nat) :
  (0 < sigma)%R →
  (b < length dist)%nat → is_batch P dist → (p < P)%nat → (q < P)%nat →
  (∀ r, (r < P)%nat → (0 <= at2 dist b r)%R) →
  exp_in_range sigma (at2 dist b p) → exp_in_range sigma (at2 dist b q) →
  at2 (kernel_weights sigma dist) b q
    = (at2 (kernel_weights sigma dist) b p
       * exp (- (at2 dist b q - at2 dist b p) / sigma))%R ∧
  (at2 (kernel_weights sigma dist) b q
     <= exp (- (at2 dist b q - at2 dist b p) / sigma))%R.
Proof.
  intros Hsigma Hb Hd Hp Hq _ _ _.
  assert (at2 (kernel_weights sigma dist) b q
          = (at2 (kernel_weights sigma dist) b p
             * exp (- (at2 dist b q - at2 dist b p) / sigma))%R) as Heq.
  { rewrite !(kernel_weights_at _ _ P) by done.
    assert (exp (- at2 dist b q / sigma)
            = (exp (- at2 dist b p / sigma)
               * exp (- (at2 dist b q - at2 dist b p) / sigma))%R) as ->.
    { rewrite <- exp_plus. f_equal. field. lra. }
    unfold Rdiv. ring. }
  split; [exact Heq|]. rewrite Heq.
  destruct (kernel_weights_facts sigma dist P b ltac:(lia) Hb Hd) as [Hw _].
  specialize (Hw p Hp).
  pose proof (exp_pos (- (at2 dist b q - at2 dist b p) / sigma)). nra.
Qed.

Lemma kernel_weights_ratio_witness :
  at2 (kernel_weights (1 / 100) [[1 / 10; 1 / 2]%R]) 0 1
    = (at2 (kernel_weights (1 / 100) [[1 / 10; 1 / 2]%R]) 0 0
       * exp (- (at2 [[1 / 10; 1 / 2]%R] 0 1 - at2 [[1 / 10; 1 / 2]%R] 0 0) / (1 / 100)))%R ∧
  (at2 (kernel_weights (1 / 100) [[1 / 10; 1 / 2]%R]) 0 1
     <= exp (- (at2 [[1 / 10; 1 / 2]%R] 0 1 - at2 [[1 / 10; 1 / 2]%R] 0 0) / (1 / 100)))%R.
Proof.
  apply (kernel_weights_ratio (1 / 100) [[1 / 10; 1 / 2]%R] 2 0 0 1).
  - lra.
  - cbn. lia.
  - repeat constructor.
  - lia.
  - lia.
  - intros [|[|r]] Hr; unfold at2, at1; cbn; (lra || lia).
  - unfold exp_in_range, at2, at1. cbn. lra.
  - unfold exp_in_range, at2, at1. cbn. lra.
Defined.

Lemma forward_mismatch_fails_witness :
  is_Err (outcome (forward demo_net demo_betas demo_thetas demo_gammas2)).
Proof. apply (forward_mismatch_fails demo_net). right. by cbn. Defined.

(** ** Inputs of other widths *)

Lemma mask_thetas_uniform (c : string) (valid : list nat) (w : nat) (thetas : tensor2) :
  VALID_THETA !! c = Some valid →
  thetas ≠ [] → is_batch w thetas →
  mask_thetas thetas c =
    if bool_decide ((length thetas * w) mod 72 ≠ 0)%nat then Err ViewSizeMismatch
    else if bool_decide (w = 72%nat)
    then Ok (map (λ row, zip_with Rmult row (theta_mask valid)) thetas)
    else if bool_decide (w = 1%nat ∧ length thetas = 72%nat)
    then Ok (map (λ row, map (Rmult (hd 0%R row)) (theta_mask valid)) thetas)
    else Err BroadcastMismatch.
Proof.
  intros Hc Hne Hw. rewrite (mask_thetas_eq _ _ _ Hc).
  rewrite (concat_length_uniform w) by done.
  assert (is_batch 72 thetas ↔ w = 72%nat) as H72.
  { split; [|by intros <-]. intros H.
    destruct thetas as [|row thetas]; [done|].
    apply Forall_cons in H as [H _]. apply Forall_cons in Hw as [Hw _]. congruence. }
  assert (length thetas = 72%nat ∧ is_batch 1 thetas
          ↔ w = 1%nat ∧ length thetas = 72%nat) as H1.
  { split; [|by intros [-> ?]]. intros [HN H].
    destruct thetas as [|row thetas]; [done|].
    apply Forall_cons in H as [H _]. apply Forall_cons in Hw as [Hw _].
    split; [congruence|done]. }
  by rewrite (bool_decide_ext _ _ H72), (bool_decide_ext _ _ H1).
Qed.

(** [mask_thetas] checks the width of a batch of [N ≥ 1] rows of [w] entries
    only through its view and its product.  The view raises unless [N * w]
    is a multiple of 72.  Rows of 72 entries are masked.  A column of 72
    single entries passes the view as one sample and is broadcast against the
    mask into 72 rows of 72 entries.  Every other shape fails in the
    product. *)
Theorem mask_thetas_shapes (c : string) (valid : list nat) (w : nat) (thetas : tensor2) :
  VALID_THETA !! c = Some valid →
  thetas ≠ [] → is_batch w thetas →
  ((length thetas * w) mod 72 ≠ 0 → mask_thetas thetas c = Err ViewSizeMismatch)%nat ∧
  (w = 72%nat →
     mask_thetas thetas c = Ok (map (λ row, zip_with Rmult row (theta_mask valid)) thetas)) ∧
  (w = 1%nat → length thetas = 72%nat →
     mask_thetas thetas c
     = Ok (map (λ row, map (Rmult (hd 0%R row)) (theta_mask valid)) thetas)) ∧
  ((length thetas * w) mod 72 = 0 → w ≠ 72 → ¬ (w = 1 ∧ length thetas = 72) →
     mask_thetas thetas c = Err BroadcastMismatch)%nat.
Proof.
  intros Hc Hne Hw. rewrite (mask_thetas_uniform c valid w) by done.
  split; [|split; [|split]].
  - intros H. by rewrite bool_decide_eq_true_2.
  - intros ->. rewrite bool_decide_eq_false_2; [by rewrite bool_decide_eq_true_2|].
    intros H. apply H. apply Nat.Div0.mod_mul.
  - intros -> HN. rewrite HN.
    rewrite bool_decide_eq_false_2 by (intros H; by apply H).
    rewrite bool_decide_eq_false_2 by done.
    by rewrite bool_decide_eq_true_2.
  - intros Hmod H72 H1.
    rewrite bool_decide_eq_false_2 by (intros H; by apply H).
    by rewrite !bool_decide_eq_false_2.
Qed.

Lemma mask_thetas_shapes_witness :
  mask_thetas (replicate 72 [2%R]) "skirt"
  = Ok (map (λ row, map (Rmult (hd 0%R row)) (theta_mask [0; 1; 2]%nat))
            (replicate 72 [2%R])) ∧
  mask_thetas [replicate 36 1%R; replicate 36 1%R] "skirt" = Err BroadcastMismatch ∧
  mask_thetas [replicate 71 1%R] "skirt" = Err ViewSizeMismatch.
Proof.
  split; [|split].
  - apply (mask_thetas_shapes "skirt" [0; 1; 2]%nat 1 (replicate 72 [2%R]));
      [by vm_compute|done|by apply Forall_replicate|reflexivity|reflexivity].
  - apply (mask_thetas_shapes "skirt" [0; 1; 2]%nat 36
             [replicate 36 1%R; replicate 36 1%R]);
      [by vm_compute|done|repeat constructor|reflexivity|lia|cbn; lia].
  - apply (mask_thetas_shapes "skirt" [0; 1; 2]%nat 71 [replicate 71 1%R]);
      [by vm_compute|done|repeat constructor|by vm_compute].
Defined.

Lemma first_two_row (row : list R) :
  (2 ≤ length row)%nat →
  zip_with Rmult row (index_mask [0; 1]%nat row)
  = take 2 row ++ replicate (length row - 2) 0%R.
Proof.
  intros Hlen. destruct row as [|a [|b rest]]; simpl in Hlen; try lia.
  unfold index_mask. cbn [length replicate set_ones foldr take app Nat.sub].
  cbn [zip_with insert list_insert]. cbn.
  apply (f_equal2 cons); [lra|]. apply (f_equal2 cons); [lra|].
  rewrite Nat.sub_0_r. clear Hlen.
  induction rest as [|x rest IH]; cbn; [done|].
  apply (f_equal2 cons); [lra|exact IH].
Qed.

Lemma first_two_rows (w : nat) (t : tensor2) :
  (2 ≤ w)%nat → is_batch w t →
  map (λ row, zip_with Rmult row (index_mask [0; 1]%nat row)) t
  = map (λ row, take 2 row ++ replicate (w - 2) 0%R) t.
Proof.
  intros Hw Ht. apply map_ext_Forall. eapply Forall_impl; [exact Ht|].
  intros row Hrow. cbv beta in *. rewrite first_two_row by lia. by rewrite Hrow.
Qed.

(** The masks of beta and gamma do not check the documented widths.  On a
    batch of [N ≥ 1] rows of [w] entries both raise the [IndexError] of the
    assignment when [w < 2]; otherwise [mask_betas] keeps the first two
    entries and zeroes the others, whatever [w] is, and so does [mask_gammas]
    unless the category is 'old-t-shirt', where the offset of four entries
    can be added only for [w = 4]. *)
Theorem mask_shape_style_widths (c : string) (w : nat) (t : tensor2) :
  t ≠ [] → is_batch w t →
  ((w < 2)%nat →
     mask_betas t c = Err IndexError ∧ mask_gammas t c = Err IndexError) ∧
  ((2 ≤ w)%nat →
     mask_betas t c = Ok (map (λ row, take 2 row ++ replicate (w - 2) 0%R) t) ∧
     (c ≠ "old-t-shirt" →
        mask_gammas t c = Ok (map (λ row, take 2 row ++ replicate (w - 2) 0%R) t)) ∧
     (c = "old-t-shirt" → w ≠ 4%nat → mask_gammas t c = Err BroadcastMismatch) ∧
     (c = "old-t-shirt" → w = 4%nat →
        mask_gammas t c = Ok (map (λ row, take 2 row ++ [1.5; 0]%R) t))).
Proof.
  intros Hne Hw.
  assert (Forall (λ row : list R, (2 ≤ length row)%nat) t ↔ (2 ≤ w)%nat) as Hidx.
  { destruct t as [|row t]; [done|]. split.
    - intros [H _]%Forall_cons. apply Forall_cons in Hw as [Hw _]. lia.
    - intros H. eapply Forall_impl; [exact Hw|]. intros r Hr. cbv beta in *. lia. }
  assert (Forall (λ row : list R, length row = 4%nat) t ↔ w = 4%nat) as H4.
  { destruct t as [|row t]; [done|]. split.
    - intros [H _]%Forall_cons. apply Forall_cons in Hw as [Hw _]. congruence.
    - by intros ->. }
  rewrite mask_betas_eq, mask_gammas_eq. rewrite (bool_decide_ext _ _ Hidx).
  split.
  - intros Hlt. by rewrite bool_decide_eq_false_2 by lia.
  - intros Hge. rewrite bool_decide_eq_true_2 by done.
    unfold masked_betas, masked_gammas. rewrite (first_two_rows w) by done.
    split; [done|]. split; [|split].
    + intros Hc. rewrite bool_decide_eq_false_2 by (by intros [? _]).
      by rewrite bool_decide_eq_false_2.
    + intros Hc Hw4. rewrite bool_decide_eq_true_2; [done|].
      split; [done|]. by rewrite H4.
    + intros Hc ->. rewrite bool_decide_eq_false_2 by (intros [_ H]; by apply H, H4).
      rewrite bool_decide_eq_true_2 by done. f_equal.
      rewrite map_map. apply map_ext_Forall. eapply Forall_impl; [exact Hw|].
      intros row Hrow. cbv beta in *.
      destruct row as [|a [|b [|x [|y [|z row]]]]]; simpl in Hrow; try lia.
      cbn. list_R_eq.
Qed.

Lemma mask_shape_style_widths_witness :
  mask_betas [[5]%R] "shirt" = Err IndexError ∧
  mask_betas [[1; 2; 3]%R] "shirt" = Ok [[1; 2; 0]%R] ∧
  mask_gammas [[1; 2; 3]%R] "old-t-shirt" = Err BroadcastMismatch ∧
  mask_gammas [[1; 2; 3; 4]%R] "old-t-shirt" = Ok [[1; 2; 1.5; 0]%R].
Proof.
  pose proof (mask_shape_style_widths "shirt" 1 [[5]%R]
                ltac:(done) ltac:(repeat constructor)) as [H1 _].
  pose proof (mask_shape_style_widths "shirt" 3 [[1; 2; 3]%R]
                ltac:(done) ltac:(repeat constructor)) as [_ H3].
  pose proof (mask_shape_style_widths "old-t-shirt" 3 [[1; 2; 3]%R]
                ltac:(done) ltac:(repeat constructor)) as [_ H3'].
  pose proof (mask_shape_style_widths "old-t-shirt" 4 [[1; 2; 3; 4]%R]
                ltac:(done) ltac:(repeat constructor)) as [_ H4].
  destruct (H1 ltac:(lia)) as [Hb1 _].
  destruct (H3 ltac:(lia)) as [Hb3 _].
  destruct (H3' ltac:(lia)) as (_ & _ & Hg3 & _).
  destruct (H4 ltac:(lia)) as (_ & _ & _ & Hg4).
  split; [exact Hb1|]. split; [exact Hb3|].
  split; [apply Hg3; [done|lia]|]. by apply Hg4.
Defined.

(** A batch of poses of a wrong width is turned down by the mask of the first
    pivot network, before any network has run. *)
Theorem forward_wrong_pose_width (self : TailorNet) (w : nat)
    (betas thetas gammas : tensor2) (hf : TailorNetHF.t) (hfs : list TailorNetHF.t) :
  tailornet_hfs self = hf :: hfs →
  is_Some (VALID_THETA !! TailorNetHF.cloth_type hf) →
  thetas ≠ [] → is_batch w thetas →
  w ≠ 72%nat → ¬ (w = 1%nat ∧ length thetas = 72%nat) →
  ∃ e, forward self betas thetas gammas = ([], Err e) ∧
       (e = ViewSizeMismatch ∨ e = BroadcastMismatch).
Proof.
  intros Hhfs [valid Hc] Hne Hw H72 H1.
  assert (∃ e, mask_thetas thetas (TailorNetHF.cloth_type hf) = Err e ∧
               (e = ViewSizeMismatch ∨ e = BroadcastMismatch)) as (e & He & Hkind).
  { rewrite (mask_thetas_uniform _ valid w) by done.
    case_bool_decide; [by eexists; split; [|left]|].
    rewrite !bool_decide_eq_false_2 by done. by eexists; split; [|right]. }
  exists e. split; [|done].
  unfold forward. rewrite Hhfs. cbn [mapM_M].
  unfold hf_pivot_field at 1, TailorNetHF.forward. by rewrite He.
Qed.

Lemma forward_wrong_pose_width_witness :
  ∃ e, forward demo_net demo_betas [replicate 71 0%R] demo_gammas = ([], Err e) ∧
       (e = ViewSizeMismatch ∨ e = BroadcastMismatch).
Proof.
  apply (forward_wrong_pose_width demo_net 71 demo_betas [replicate 71 0%R] demo_gammas
           (TailorNetHF.init "t-shirt" 3 (constant_net 72 [1; 0; 0]%R))
           [TailorNetHF.init "t-shirt" 3 (constant_net 72 [0; 1; 0]%R)]).
  - reflexivity.
  - by vm_compute; eexists.
  - done.
  - repeat constructor.
  - lia.
  - lia.
Defined.
